(** * SIL instruction utilities (lib/SIL/InstructionUtils.cpp)

    A shallow embedding of the value canonicalizer (the [strip*] family and
    [getUnderlyingObject]), the closure origin resolver
    ([findClosureForAppliedArg]), the formal access root resolver
    ([findAccessedAddressBase], [isPossibleFormalAccessBase]) and the
    ownership-dialect evaluator ([FunctionOwnershipEvaluator::evaluate]).

    The IR is a store of nodes addressed by handles.  A [SILValue] is the
    handle (the C++ pointer) of a node; pointer equality is handle equality.
    Every [while (true)] loop of the source is run with a fuel counter; the
    termination theorems show that the fuel is never exhausted on a graph
    whose edges descend along a rank. *)

From Stdlib Require Import Arith Bool List Lia.
From stdpp Require Import base option list relations.

(** ** Handles *)

Abbreviation SILValue := nat (only parsing).
Abbreviation SILBasicBlockRef := nat (only parsing).
Abbreviation SILFunctionRef := nat (only parsing).

(** ** Node kinds

    The union of [ValueKind] and [SILInstructionKind]: every kind that
    InstructionUtils.cpp names, the three object projections of
    Projection.h, and a few ordinary kinds that none of the switches of the
    file mention. *)
Inductive SILNodeKind :=
  (* arguments and undef *)
  | SILPHIArgument | SILFunctionArgument | SILUndef
  (* reference-identity casts *)
  | UpcastInst | UncheckedRefCastInst | UnconditionalCheckedCastInst
  | UnconditionalCheckedCastValueInst | RefToBridgeObjectInst
  | BridgeObjectToRefInst | UncheckedTrivialBitCastInst | MarkDependenceInst
  (* address projections and indexing *)
  | StructElementAddrInst | TupleElementAddrInst
  | UncheckedTakeEnumDataAddrInst | RefElementAddrInst | RefTailAddrInst
  | ProjectBoxInst | IndexAddrInst | TailAddrInst | IndexRawPointerInst
  (* object projections *)
  | StructExtractInst | TupleExtractInst | UncheckedEnumDataInst
  (* allocation and access *)
  | AllocStackInst | AllocBoxInst | GlobalAddrInst | BeginAccessInst
  | PointerToAddressInst | MarkUninitializedInst | OpenExistentialAddrInst
  | UncheckedAddrCastInst | CopyValueInst | ProjectBlockStorageInst
  | BeginBorrowInst | OpenExistentialBoxInst | ProjectExistentialBoxInst
  | ProjectValueBufferInst | InitEnumDataAddrInst | InitExistentialAddrInst
  | AllocExistentialBoxInst | AllocValueBufferInst
  (* closures and blocks *)
  | PartialApplyInst | FunctionRefInst | ConvertFunctionInst | CopyBlockInst
  | InitBlockStorageHeaderInst | EnumInst | BuiltinInst
  (* instructions that are not values, and ownership instructions *)
  | StoreInst | LoadInst | EndBorrowInst | LoadBorrowInst
  | CopyUnownedValueInst | DestroyValueInst
  | DebugValueInst | EndAccessInst | EndLifetimeInst | FixLifetimeInst
  | AutoreleaseValueInst | ReleaseValueInst | RetainValueInst
  | StrongReleaseInst | StrongRetainInst | UnmanagedAutoreleaseValueInst
  | UnmanagedReleaseValueInst | UnmanagedRetainValueInst
  | UnownedReleaseInst | UnownedRetainInst
  (* kinds outside every switch of the file *)
  | ApplyInst | StructInst | TupleInst | IntegerLiteralInst.

(** ** Types, as far as the file queries them *)

Inductive SILFunctionTypeRepresentation :=
  | Thick | Block | Thin | CFunctionPointer | Method | ObjCMethod
  | WitnessMethod | Closure.

Inductive ASTType :=
  | SILFunctionType (rep : SILFunctionTypeRepresentation)
  | OptionalType (object : ASTType)
  | BuiltinUnsafeValueBufferType
  | ClassType
  | MetatypeType (instance : ASTType)
  | OtherType.

Record SILType := mkSILType {
  isAddress : bool;
  getSwiftRValueType : ASTType
}.

Definition isClassOrClassMetatype (T : SILType) : bool :=
  match getSwiftRValueType T with
  | ClassType | MetatypeType ClassType => true
  | _ => false
  end.

Definition getOptionalObjectType (T : SILType) : option ASTType :=
  match getSwiftRValueType T with
  | OptionalType o => Some o
  | _ => None
  end.

(** [T.getAs<SILFunctionType>()]: the representation, or null. *)
Definition getAs_SILFunctionType (T : ASTType)
  : option SILFunctionTypeRepresentation :=
  match T with
  | SILFunctionType rep => Some rep
  | _ => None
  end.

Definition isBlockRepresentation (rep : SILFunctionTypeRepresentation) : bool :=
  match rep with Block => true | _ => false end.

(** ** Per-node attributes *)

Inductive IsThunk_t := IsNotThunk | IsThunk | IsReabstractionThunk.

Inductive IntrinsicID := not_intrinsic | expect | other_intrinsic.

Inductive LoadOwnershipQualifier :=
  | LoadUnqualified | LoadTake | LoadCopy | LoadTrivial.

Inductive StoreOwnershipQualifier :=
  | StoreUnqualified | StoreInit | StoreAssign | StoreTrivial.

(** One node of the IR.  A field is read only for the kinds that have it in
    the source: [getParent]/[getIndex] for arguments, [declIsLet] for the
    declaration of an [alloc_stack], [alloc_box] or the global of a
    [global_addr] ([None] is the null pointer, [Some b] a declaration with
    [isLet() = b]), [intrinsicID] for a builtin, [referencedThunk] for the
    function a [function_ref] names, [users] for the use list. *)
Record SILNode := mkSILNode {
  getKind : SILNodeKind;
  getOperands : list SILValue;
  getType : SILType;
  getFunction : SILFunctionRef;
  getParent : SILBasicBlockRef;
  getIndex : nat;
  declIsLet : option bool;
  intrinsicID : IntrinsicID;
  referencedThunk : IsThunk_t;
  loadQualifier : LoadOwnershipQualifier;
  storeQualifier : StoreOwnershipQualifier;
  getUsers : list SILValue
}.

(** ** Blocks and terminators *)

Inductive TermInst :=
  | BranchInst (dest : SILBasicBlockRef) (args : list SILValue)
  | CondBranchInst (cond : SILValue)
      (trueBB : SILBasicBlockRef) (trueArgs : list SILValue)
      (falseBB : SILBasicBlockRef) (falseArgs : list SILValue)
  | SwitchEnumInst (operand : SILValue) (dests : list SILBasicBlockRef)
  | CheckedCastBranchInst (operand : SILValue)
      (successBB failureBB : SILBasicBlockRef)
  | ReturnInst (operand : SILValue)
  | UnreachableInst.

Record SILBasicBlock := mkSILBasicBlock {
  getPredecessors : list SILBasicBlockRef;
  getTerminator : TermInst
}.

(** ** The graph *)

Record SILGraph := mkSILGraph {
  nodes : list SILNode;
  blocks : list SILBasicBlock
}.

Definition objectType : SILType := mkSILType false OtherType.

Definition undefNode : SILNode :=
  mkSILNode SILUndef [] objectType 0 0 0 None not_intrinsic IsNotThunk
    LoadUnqualified StoreUnqualified [].

Definition emptyBlock : SILBasicBlock := mkSILBasicBlock [] UnreachableInst.

(** A handle outside the store reads as an [undef] without operands, a block
    reference outside it as a block without predecessors. *)
Definition node (G : SILGraph) (V : SILValue) : SILNode :=
  default undefNode (nodes G !! V).

Definition block (G : SILGraph) (BB : SILBasicBlockRef) : SILBasicBlock :=
  default emptyBlock (blocks G !! BB).

(** ** Outcomes

    [Done r]: the function returned [r].  [Fatal]: an assertion or
    [llvm_unreachable] was hit, or an operand that does not exist or a null
    pointer was read.  [OutOfFuel]: the loop was cut off by the fuel
    counter. *)
Inductive Outcome (A : Type) :=
  | Done (a : A)
  | Fatal
  | OutOfFuel.
Arguments Done {A} a.
Arguments Fatal {A}.
Arguments OutOfFuel {A}.

Definition bindO {A B} (m : Outcome A) (k : A -> Outcome B) : Outcome B :=
  match m with
  | Done a => k a
  | Fatal => Fatal
  | OutOfFuel => OutOfFuel
  end.

Notation "'letO' x := m 'in' k" := (bindO m (fun x => k))
  (at level 10, x name, m at level 100, k at level 200).

(** One pass through the body of a [while (true)] loop either [continue]s
    with a new value or [return]s. *)
Inductive LoopCtl (R : Type) :=
  | Continue (V : SILValue)
  | Return (r : R).
Arguments Continue {R} V.
Arguments Return {R} r.

Fixpoint while_true {R} (body : SILValue -> Outcome (LoopCtl R))
    (fuel : nat) (V : SILValue) : Outcome R :=
  match fuel with
  | 0 => OutOfFuel
  | S fuel' =>
      match body V with
      | Done (Continue V') => while_true body fuel' V'
      | Done (Return r) => Done r
      | Fatal => Fatal
      | OutOfFuel => OutOfFuel
      end
  end.

(** [cast<SingleValueInstruction>(V)->getOperand(0)] *)
Definition getOperand (N : SILNode) (i : nat) : Outcome SILValue :=
  match getOperands N !! i with
  | Some op => Done op
  | None => Fatal
  end.

(** ** Class tests ([isa<>], [dyn_cast<>]) *)

Definition isa_SILArgument (k : SILNodeKind) : bool :=
  match k with
  | SILPHIArgument | SILFunctionArgument => true
  | _ => false
  end.

(** Modelled from the spec: the subclasses of [IndexingInst] (SILNodes.def is
    not among the sources); "indexing adds an integer offset to a base
    address": [index_addr], [tail_addr], [index_raw_pointer]. *)
Definition isa_IndexingInst (k : SILNodeKind) : bool :=
  match k with
  | IndexAddrInst | TailAddrInst | IndexRawPointerInst => true
  | _ => false
  end.

(** [SILBasicBlock::getSinglePredecessorBlock]: the predecessor when the
    predecessor list has exactly one entry, else null. *)
Definition getSinglePredecessorBlock (B : SILBasicBlock)
  : option SILBasicBlockRef :=
  match getPredecessors B with
  | [Pred] => Some Pred
  | _ => None
  end.

(** Modelled from the spec: [CondBranchInst::getArgForDestBB] (SILInstruction
    is not among the sources).  A conditional branch "supplies possibly
    different operand lists to each of its two targets -- the correct one is
    selected by destination block identity"; when both targets are the same
    block no operand can be selected and the result is the null value. *)
Definition getArgForDestBB (trueBB : SILBasicBlockRef) (trueArgs : list SILValue)
    (falseBB : SILBasicBlockRef) (falseArgs : list SILValue)
    (DestBB : SILBasicBlockRef) (ArgIndex : nat) : Outcome (option SILValue) :=
  if Nat.eqb trueBB falseBB then
    if Nat.eqb DestBB trueBB then Done None else Fatal
  else if Nat.eqb DestBB trueBB then
    match trueArgs !! ArgIndex with Some a => Done (Some a) | None => Fatal end
  else if Nat.eqb DestBB falseBB then
    match falseArgs !! ArgIndex with Some a => Done (Some a) | None => Fatal end
  else Fatal.

(** ** Classifiers of uses *)

Definition isIncidentalUse (user : SILNodeKind) : bool :=
  match user with
  | DebugValueInst
  | EndAccessInst
  | EndBorrowInst
  | EndLifetimeInst
  | FixLifetimeInst => true
  | _ => false
  end.

Definition onlyAffectsRefCount (user : SILNodeKind) : bool :=
  match user with
  | AutoreleaseValueInst
  | DestroyValueInst
  | ReleaseValueInst
  | RetainValueInst
  | StrongReleaseInst
  | StrongRetainInst
  | UnmanagedAutoreleaseValueInst
  | UnmanagedReleaseValueInst
  | UnmanagedRetainValueInst
  | UnownedReleaseInst
  | UnownedRetainInst => true
  | _ => false
  end.

(** * The value canonicalizer *)

Section Canonicalizer.

Variable G : SILGraph.

(** [Projection::isAddressProjection] and [Projection::isObjectProjection]
    live in Projection.h, which is not among the sources: they are taken as
    parameters, and every theorem of this section holds for any choice. *)
Variable isAddressProjection : SILValue -> bool.
Variable isObjectProjection : SILValue -> bool.

Definition kindOf (V : SILValue) : SILNodeKind := getKind (node G V).

(** [cast<SingleValueInstruction>(V)->getOperand(0)] *)
Definition operand0 (V : SILValue) : Outcome SILValue := getOperand (node G V) 0.

Definition isRCIdentityPreservingCast (Kind : SILNodeKind) : bool :=
  match Kind with
  | UpcastInst
  | UncheckedRefCastInst
  | UnconditionalCheckedCastInst
  | UnconditionalCheckedCastValueInst
  | RefToBridgeObjectInst
  | BridgeObjectToRefInst => true
  | _ => false
  end.

(** *** stripSinglePredecessorArgs *)

Definition stripSinglePredecessorArgs_body (V : SILValue)
  : Outcome (LoopCtl SILValue) :=
  let A := node G V in
  if negb (isa_SILArgument (getKind A)) then Done (Return V) else
  let BB := getParent A in
  match getSinglePredecessorBlock (block G BB) with
  | None => Done (Return V)
  | Some Pred =>
      match getTerminator (block G Pred) with
      | BranchInst _ args =>
          match args !! getIndex A with
          | Some Arg => Done (Continue Arg)
          | None => Fatal
          end
      | CondBranchInst _ trueBB trueArgs falseBB falseArgs =>
          letO Arg := getArgForDestBB trueBB trueArgs falseBB falseArgs
                        BB (getIndex A) in
          match Arg with
          | Some Arg => Done (Continue Arg)
          | None => Done (Return V)
          end
      | _ => Done (Return V)
      end
  end.

Definition stripSinglePredecessorArgs (fuel : nat) (V : SILValue)
  : Outcome SILValue :=
  while_true stripSinglePredecessorArgs_body fuel V.

(** *** stripCastsWithoutMarkDependence, stripCasts *)

Definition stripCastsWithoutMarkDependence_body (fuel : nat) (V : SILValue)
  : Outcome (LoopCtl SILValue) :=
  letO V := stripSinglePredecessorArgs fuel V in
  let K := kindOf V in
  if isRCIdentityPreservingCast K ||
     match K with UncheckedTrivialBitCastInst => true | _ => false end
  then letO V := operand0 V in Done (Continue V)
  else Done (Return V).

Definition stripCastsWithoutMarkDependence (fuel : nat) (V : SILValue)
  : Outcome SILValue :=
  while_true (stripCastsWithoutMarkDependence_body fuel) fuel V.

Definition stripCasts_body (fuel : nat) (V : SILValue)
  : Outcome (LoopCtl SILValue) :=
  letO V := stripSinglePredecessorArgs fuel V in
  let K := kindOf V in
  if isRCIdentityPreservingCast K
     || match K with UncheckedTrivialBitCastInst => true | _ => false end
     || match K with MarkDependenceInst => true | _ => false end
  then letO V := operand0 V in Done (Continue V)
  else Done (Return V).

Definition stripCasts (fuel : nat) (V : SILValue) : Outcome SILValue :=
  while_true (stripCasts_body fuel) fuel V.

(** *** stripUpCasts *)

Definition stripUpCasts_body (fuel : nat) (V : SILValue)
  : Outcome (LoopCtl SILValue) :=
  match kindOf V with
  | UpcastInst =>
      letO op := operand0 V in
      letO V := stripSinglePredecessorArgs fuel op in
      Done (Continue V)
  | _ => Done (Return V)
  end.

Definition stripUpCasts (fuel : nat) (V : SILValue) : Outcome SILValue :=
  if negb (isClassOrClassMetatype (getType (node G V))) then Fatal else
  letO V := stripSinglePredecessorArgs fuel V in
  while_true (stripUpCasts_body fuel) fuel V.

(** *** stripClassCasts *)

Definition stripClassCasts_body (V : SILValue) : Outcome (LoopCtl SILValue) :=
  match kindOf V with
  | UpcastInst => letO V := operand0 V in Done (Continue V)
  | UnconditionalCheckedCastInst => letO V := operand0 V in Done (Continue V)
  | _ => Done (Return V)
  end.

Definition stripClassCasts (fuel : nat) (V : SILValue) : Outcome SILValue :=
  while_true stripClassCasts_body fuel V.

(** *** stripAddressProjections and its variants *)

Definition stripAddressProjections_body (fuel : nat) (V : SILValue)
  : Outcome (LoopCtl SILValue) :=
  letO V := stripSinglePredecessorArgs fuel V in
  if negb (isAddressProjection V) then Done (Return V) else
  letO V := operand0 V in Done (Continue V).

Definition stripAddressProjections (fuel : nat) (V : SILValue)
  : Outcome SILValue :=
  while_true (stripAddressProjections_body fuel) fuel V.

Definition stripUnaryAddressProjections_body (fuel : nat) (V : SILValue)
  : Outcome (LoopCtl SILValue) :=
  letO V := stripSinglePredecessorArgs fuel V in
  if negb (isAddressProjection V) then Done (Return V) else
  let Inst := node G V in
  if Nat.ltb 1 (length (getOperands Inst)) then Done (Return V) else
  letO V := getOperand Inst 0 in Done (Continue V).

Definition stripUnaryAddressProjections (fuel : nat) (V : SILValue)
  : Outcome SILValue :=
  while_true (stripUnaryAddressProjections_body fuel) fuel V.

Definition stripValueProjections_body (fuel : nat) (V : SILValue)
  : Outcome (LoopCtl SILValue) :=
  letO V := stripSinglePredecessorArgs fuel V in
  if negb (isObjectProjection V) then Done (Return V) else
  letO V := operand0 V in Done (Continue V).

Definition stripValueProjections (fuel : nat) (V : SILValue)
  : Outcome SILValue :=
  while_true (stripValueProjections_body fuel) fuel V.

(** *** stripIndexingInsts: [getBase()] is operand 0 of an indexing
    instruction. *)

Definition stripIndexingInsts_body (V : SILValue) : Outcome (LoopCtl SILValue) :=
  if negb (isa_IndexingInst (kindOf V)) then Done (Return V) else
  letO V := operand0 V in Done (Continue V).

Definition stripIndexingInsts (fuel : nat) (V : SILValue) : Outcome SILValue :=
  while_true stripIndexingInsts_body fuel V.

(** *** The one-shot strippers *)

Definition stripExpectIntrinsic (V : SILValue) : Outcome SILValue :=
  let BI := node G V in
  match getKind BI with
  | BuiltinInst =>
      match intrinsicID BI with
      | expect => getOperand BI 0
      | _ => Done V
      end
  | _ => Done V
  end.

Definition stripBorrow (V : SILValue) : Outcome SILValue :=
  match kindOf V with
  | BeginBorrowInst => operand0 V
  | _ => Done V
  end.

(** *** stripConvertFunctions *)

Definition stripConvertFunctions_body (V : SILValue)
  : Outcome (LoopCtl SILValue) :=
  match kindOf V with
  | ConvertFunctionInst => letO V := operand0 V in Done (Continue V)
  | _ => Done (Return V)
  end.

Definition stripConvertFunctions (fuel : nat) (V : SILValue)
  : Outcome SILValue :=
  while_true stripConvertFunctions_body fuel V.

(** *** getUnderlyingObject and its variants *)

Definition getUnderlyingObject_body (fuel : nat) (V : SILValue)
  : Outcome (LoopCtl SILValue) :=
  letO V0 := stripCasts fuel V in
  letO V1 := stripAddressProjections fuel V0 in
  letO V2 := stripIndexingInsts fuel V1 in
  if Nat.eqb V2 V then Done (Return V2) else Done (Continue V2).

Definition getUnderlyingObject (fuel : nat) (V : SILValue) : Outcome SILValue :=
  while_true (getUnderlyingObject_body fuel) fuel V.

Definition getUnderlyingAddressRoot_body (fuel : nat) (V : SILValue)
  : Outcome (LoopCtl SILValue) :=
  letO V0 := stripCasts fuel V in
  letO V2 := stripIndexingInsts fuel V0 in
  letO V2 :=
    match kindOf V2 with
    | StructElementAddrInst
    | TupleElementAddrInst
    | UncheckedTakeEnumDataAddrInst => operand0 V2
    | _ => Done V2
    end in
  if Nat.eqb V2 V then Done (Return V2) else Done (Continue V2).

Definition getUnderlyingAddressRoot (fuel : nat) (V : SILValue)
  : Outcome SILValue :=
  while_true (getUnderlyingAddressRoot_body fuel) fuel V.

Definition getUnderlyingObjectStopAtMarkDependence_body (fuel : nat)
    (V : SILValue) : Outcome (LoopCtl SILValue) :=
  letO V0 := stripCastsWithoutMarkDependence fuel V in
  letO V1 := stripAddressProjections fuel V0 in
  letO V2 := stripIndexingInsts fuel V1 in
  if Nat.eqb V2 V then Done (Return V2) else Done (Continue V2).

Definition getUnderlyingObjectStopAtMarkDependence (fuel : nat) (V : SILValue)
  : Outcome SILValue :=
  while_true (getUnderlyingObjectStopAtMarkDependence_body fuel) fuel V.

End Canonicalizer.

(** * The formal access root resolver *)

Section AccessRoot.

Variable G : SILGraph.

(** [isLetAccess]: true if the given address is a [let] lvalue. *)
Definition isLetAccess (address : SILValue) : bool :=
  let N := node G address in
  match getKind N with
  | AllocStackInst =>
      match declIsLet N with Some isLet => isLet | None => false end
  | AllocBoxInst =>
      match declIsLet N with Some isLet => isLet | None => false end
  | GlobalAddrInst =>
      match declIsLet N with Some isLet => isLet | None => false end
  | _ => false
  end.

Definition findAccessedAddressBase_body (address : SILValue)
  : Outcome (LoopCtl (option SILValue)) :=
  let N := node G address in
  match getKind N with
  (* Base cases: these are always the base of a formal access. *)
  | GlobalAddrInst
  | RefElementAddrInst
  | AllocBoxInst
  | AllocStackInst
  | BeginAccessInst
  | SILFunctionArgument
  | PointerToAddressInst => Done (Return (Some address))
  (* A block argument may be a box value projected out of switch_enum. *)
  | SILPHIArgument =>
      if isAddress (getType N) then Fatal else
      match getSinglePredecessorBlock (block G (getParent N)) with
      | None => Fatal
      | Some Pred =>
          match getTerminator (block G Pred) with
          | SwitchEnumInst _ _ => Done (Return (Some address))
          | _ => Fatal
          end
      end
  (* Inductive cases. *)
  | MarkUninitializedInst
  | OpenExistentialAddrInst
  | UncheckedAddrCastInst
  | CopyValueInst
  | MarkDependenceInst
  | ProjectBoxInst
  | ProjectBlockStorageInst
  | BeginBorrowInst =>
      letO address := getOperand N 0 in Done (Continue address)
  (* Subobject projections. *)
  | StructElementAddrInst
  | TupleElementAddrInst
  | UncheckedTakeEnumDataAddrInst
  | RefTailAddrInst
  | TailAddrInst
  | IndexAddrInst =>
      letO address := getOperand N 0 in Done (Continue address)
  (* Value to address conversions. *)
  | OpenExistentialBoxInst
  | ProjectExistentialBoxInst
  | ProjectValueBufferInst => Done (Return None)
  (* Local initialization: these cases are skipped. *)
  | InitEnumDataAddrInst
  | InitExistentialAddrInst
  | AllocExistentialBoxInst
  | AllocValueBufferInst
  | SILUndef => Done (Return None)
  (* default: llvm_unreachable("unexpected address source.") *)
  | _ => Fatal
  end.

Definition findAccessedAddressBase (fuel : nat) (sourceAddr : SILValue)
  : Outcome (option SILValue) :=
  while_true findAccessedAddressBase_body fuel sourceAddr.

Definition isPossibleFormalAccessBase (baseAddress : SILValue) : bool :=
  let N := node G baseAddress in
  (* Function arguments are accessed by the caller. *)
  if match getKind N with SILFunctionArgument => true | _ => false end
  then false
  (* Pointer-to-address exclusivity cannot be enforced. *)
  else if match getKind N with PointerToAddressInst => true | _ => false end
  then false
  (* Immutable values are only accessed for initialization. *)
  else if isLetAccess baseAddress then false
  (* Special case unsafe value buffer access. *)
  else if match getSwiftRValueType (getType N) with
          | BuiltinUnsafeValueBufferType => true
          | _ => false
          end
  then false
  else true.

End AccessRoot.

(** * The closure origin resolver *)

(** The result pair of [findClosureForAppliedArg]: the partial application
    (or null) and the flag "captured through a reabstraction thunk". *)
Record FindClosureResult := mkFindClosureResult {
  PAI : option SILValue;
  isReabstructionThunk : bool
}.

Section ClosureResolver.

Variable G : SILGraph.

(** [SILType::isReferenceCounted] belongs to type lowering, which is not
    among the sources: a parameter. *)
Variable isReferenceCounted : SILType -> bool.

(** Modelled from the spec: [ValueBase::getSingleUserOfType<T>] (SILValue.h is
    not among the sources): the one user of the given class in the use
    list, null when there is none or more than one. *)
Fixpoint getSingleUserOfType_from (isT : SILNodeKind -> bool)
    (uses : list SILValue) (Result : option SILValue) : option SILValue :=
  match uses with
  | [] => Result
  | User :: rest =>
      if isT (getKind (node G User)) then
        match Result with
        | Some _ => None
        | None => getSingleUserOfType_from isT rest (Some User)
        end
      else getSingleUserOfType_from isT rest Result
  end.

Definition getSingleUserOfType (isT : SILNodeKind -> bool) (V : SILValue)
  : option SILValue :=
  getSingleUserOfType_from isT (getUsers (node G V)) None.

(** Modelled from the spec: [ApplyInstBase::getReferencedFunction]: the
    function named by the callee (operand 0) when the callee is a
    [function_ref], else null.  The result is the thunk flag of that
    function, the only thing the caller reads. *)
Definition getReferencedFunction (PAI : SILNode) : option IsThunk_t :=
  match getOperands PAI !! 0 with
  | Some callee =>
      match getKind (node G callee) with
      | FunctionRefInst => Some (referencedThunk (node G callee))
      | _ => None
      end
  | None => None
  end.

(** The arguments of a partial application are its operands after the
    callee. *)
Definition getNumArguments (PAI : SILNode) : nat :=
  length (getOperands PAI) - 1.

Definition getArgument (PAI : SILNode) (i : nat) : Outcome SILValue :=
  getOperand PAI (S i).

Definition isPartialApplyOfReabstractionThunk (PAI : SILValue)
  : Outcome (option SILValue) :=
  let N := node G PAI in
  if negb (Nat.eqb (getNumArguments N) 1) then Done None else
  match getReferencedFunction N with
  | None => Done None
  | Some thunk =>
      (* Make sure we have a reabstraction thunk. *)
      match thunk with
      | IsReabstractionThunk =>
          (* The argument should be a closure. *)
          letO Arg := getArgument N 0 in
          let T := getType (node G Arg) in
          if negb (match getSwiftRValueType T with
                   | SILFunctionType _ => true
                   | _ => false
                   end)
             || negb (isReferenceCounted T)
          then Done None
          else Done (Some Arg)
      | _ => Done None
      end
  end.

(** The loop of [findClosureStoredIntoBlock] that looks through block
    copies; it returns [IBSHI], null when the value behind the copies is no
    [init_block_storage_header]. *)
Definition lookThroughBlockCopies_body (V : SILValue)
  : Outcome (LoopCtl (option SILValue)) :=
  match getKind (node G V) with
  | CopyBlockInst =>
      letO V := getOperand (node G V) 0 in Done (Continue V)
  | InitBlockStorageHeaderInst => Done (Return (Some V))
  | _ => Done (Return None)
  end.

Definition findClosureStoredIntoBlock (fuel : nat) (V : SILValue)
  : Outcome (option SILValue) :=
  match getAs_SILFunctionType (getSwiftRValueType (getType (node G V))) with
  | None => Fatal
  | Some rep =>
      if negb (isBlockRepresentation rep) then Fatal else
      letO IBSHI := while_true lookThroughBlockCopies_body fuel V in
      match IBSHI with
      | None => Done None
      | Some IBSHI =>
          letO BlockStorage := getOperand (node G IBSHI) 0 in
          match getSingleUserOfType
                  (fun k => match k with
                            | ProjectBlockStorageInst => true
                            | _ => false
                            end) BlockStorage with
          | None => Fatal (* assert(PBSI && ...) *)
          | Some PBSI =>
              match getSingleUserOfType
                      (fun k => match k with StoreInst => true | _ => false end)
                      PBSI with
              | None => Fatal (* assert(SI && ...) *)
              | Some SI =>
                  letO Src := getOperand (node G SI) 0 in Done (Some Src)
              end
          end
      end
  end.

Fixpoint findClosureForAppliedArg (fuel : nat) (V : SILValue)
  : Outcome FindClosureResult :=
  match fuel with
  | 0 => OutOfFuel
  | S fuel' =>
      (* Look through borrows. *)
      letO V := match getKind (node G V) with
                | BeginBorrowInst => getOperand (node G V) 0
                | _ => Done V
                end in
      letO V := match getOptionalObjectType (getType (node G V)) with
                | Some _ =>
                    match getKind (node G V) with
                    | EnumInst => getOperand (node G V) 0
                    | _ => Fatal
                    end
                | None => Done V
                end in
      match getAs_SILFunctionType (getSwiftRValueType (getType (node G V))) with
      | None => Fatal
      | Some rep =>
          letO V := if isBlockRepresentation rep
                    then findClosureStoredIntoBlock fuel V
                    else Done (Some V) in
          match V with
          | None => Done (mkFindClosureResult None false)
          | Some V =>
              letO pai := stripConvertFunctions G fuel V in
              match getKind (node G pai) with
              | PartialApplyInst =>
                  letO thunkArg := isPartialApplyOfReabstractionThunk pai in
                  match thunkArg with
                  | Some thunkArg =>
                      (* Handle reabstraction thunks recursively. *)
                      letO result := findClosureForAppliedArg fuel' thunkArg in
                      Done (mkFindClosureResult (PAI result) true)
                  | None => Done (mkFindClosureResult (Some pai) false)
                  end
              | _ => Done (mkFindClosureResult None false)
              end
          end
      end
  end.

End ClosureResolver.

(** * The ownership-dialect evaluator *)

Inductive OwnershipQualifiedKind :=
  | NotApplicable
  | Qualified
  | Unqualified.

(** [OwnershipQualifiedKindVisitor().visit(I)] *)
Definition OwnershipQualifiedKindVisitor_visit (I : SILNode)
  : OwnershipQualifiedKind :=
  match getKind I with
  | EndBorrowInst
  | LoadBorrowInst
  | CopyValueInst
  | CopyUnownedValueInst
  | DestroyValueInst => Qualified
  | LoadInst =>
      match loadQualifier I with
      | LoadUnqualified => Unqualified
      | _ => Qualified
      end
  | StoreInst =>
      match storeQualifier I with
      | StoreUnqualified => Unqualified
      | _ => Qualified
      end
  | _ => NotApplicable
  end.

(** The evaluator together with the one flag of its function that it reads
    and writes: [F] names the function, [hasQualifiedOwnership] is the
    function's flag ([setUnqualifiedOwnership] clears it), and
    [HasOwnershipQualifiedInstruction] is the evaluator's own field. *)
Record FunctionOwnershipEvaluator := mkEvaluator {
  F : SILFunctionRef;
  hasQualifiedOwnership : bool;
  HasOwnershipQualifiedInstruction : bool
}.

Definition setUnqualifiedOwnership (E : FunctionOwnershipEvaluator)
  : FunctionOwnershipEvaluator :=
  mkEvaluator (F E) false (HasOwnershipQualifiedInstruction E).

Definition evaluate (E : FunctionOwnershipEvaluator) (I : SILNode)
  : Outcome (bool * FunctionOwnershipEvaluator) :=
  if negb (Nat.eqb (getFunction I) (F E)) then Fatal else
  match OwnershipQualifiedKindVisitor_visit I with
  | Unqualified =>
      (* If we already know that the function has unqualified ownership,
         just return early. *)
      if negb (hasQualifiedOwnership E) then Done (true, E)
      (* Qualified ownership and a qualified instruction seen: an error. *)
      else if HasOwnershipQualifiedInstruction E then Done (false, E)
      (* Otherwise, set the function to have unqualified ownership. *)
      else Done (true, setUnqualifiedOwnership E)
  | Qualified =>
      if negb (hasQualifiedOwnership E) then Done (false, E)
      else Done (true, mkEvaluator (F E) (hasQualifiedOwnership E) true)
  | NotApplicable => Done (true, E)
  end.

(** Modelled from the spec: the constructor of the evaluator and the flag of
    a fresh function (InstructionUtils.h and SILFunction.h are not among the
    sources): "functions start as qualified", and no qualified instruction
    has been seen. *)
Definition newEvaluator (Fn : SILFunctionRef) : FunctionOwnershipEvaluator :=
  mkEvaluator Fn true false.

(** Evaluate the instructions of a list in order, collecting the answers. *)
Fixpoint evaluateAll (E : FunctionOwnershipEvaluator) (Is : list SILNode)
  : Outcome (list bool * FunctionOwnershipEvaluator) :=
  match Is with
  | [] => Done ([], E)
  | Inst :: rest =>
      letO r := evaluate E Inst in
      letO rs := evaluateAll (snd r) rest in
      Done (fst r :: fst rs, snd rs)
  end.

(** * Graph shape: edges, ranks, well-formed operands *)

(** The values a block argument may resolve to: the operands at its index on
    the terminator of the single predecessor of its block. *)
Definition incomingValues (G : SILGraph) (V : SILValue) : list SILValue :=
  let A := node G V in
  if isa_SILArgument (getKind A) then
    match getSinglePredecessorBlock (block G (getParent A)) with
    | Some Pred =>
        match getTerminator (block G Pred) with
        | BranchInst _ args => option_list (args !! getIndex A)
        | CondBranchInst _ _ trueArgs _ falseArgs =>
            option_list (trueArgs !! getIndex A)
            ++ option_list (falseArgs !! getIndex A)
        | _ => []
        end
    | None => []
    end
  else [].

(** The edges of the value graph that the traversals follow. *)
Definition edges (G : SILGraph) (V : SILValue) : list SILValue :=
  getOperands (node G V) ++ incomingValues G V.

(** The operand edges alone. *)
Definition operandsOf (G : SILGraph) (V : SILValue) : list SILValue :=
  getOperands (node G V).

(** A rank that every edge of a successor function decreases (the depth of
    the node) witnesses that the graph of that function is acyclic. *)
Definition descendsAlong (succ : SILValue -> list SILValue)
    (rank : SILValue -> nat) : Prop :=
  forall V W, W ∈ succ V -> rank W < rank V.

Definition descends (G : SILGraph) (rank : SILValue -> nat) : Prop :=
  descendsAlong (edges G) rank.

Definition check_descends (G : SILGraph) (rank : SILValue -> nat) : bool :=
  forallb (fun V => forallb (fun W => Nat.ltb (rank W) (rank V)) (edges G V))
    (seq 0 (length (nodes G))).

(** [below rank r V]: [r] is [V] or lies strictly deeper. *)
Definition below (rank : SILValue -> nat) (r V : SILValue) : Prop :=
  r = V \/ rank r < rank V.

(** The node kinds whose instruction always carries an operand 0. *)
Definition isUnaryKind (k : SILNodeKind) : bool :=
  match k with
  | UpcastInst | UncheckedRefCastInst | UnconditionalCheckedCastInst
  | UnconditionalCheckedCastValueInst | RefToBridgeObjectInst
  | BridgeObjectToRefInst | UncheckedTrivialBitCastInst | MarkDependenceInst
  | StructElementAddrInst | TupleElementAddrInst
  | UncheckedTakeEnumDataAddrInst
  | IndexAddrInst | TailAddrInst | IndexRawPointerInst
  | ConvertFunctionInst | BeginBorrowInst => true
  | _ => false
  end.

(** The incoming values of a block argument exist: a branch passes one
    operand per argument of its target, and a conditional branch with two
    distinct targets does so on the edge to the block of the argument. *)
Definition argumentOk (G : SILGraph) (V : SILValue) : bool :=
  let A := node G V in
  if isa_SILArgument (getKind A) then
    match getSinglePredecessorBlock (block G (getParent A)) with
    | Some Pred =>
        match getTerminator (block G Pred) with
        | BranchInst _ args => Nat.ltb (getIndex A) (length args)
        | CondBranchInst _ trueBB trueArgs falseBB falseArgs =>
            if Nat.eqb trueBB falseBB then Nat.eqb (getParent A) trueBB
            else if Nat.eqb (getParent A) trueBB
            then Nat.ltb (getIndex A) (length trueArgs)
            else Nat.eqb (getParent A) falseBB
                 && Nat.ltb (getIndex A) (length falseArgs)
        | _ => true
        end
    | None => true
    end
  else true.

(** Well-formed IR, as far as the canonicalizer reads it: unary instructions
    and projections have their operand, block arguments their incoming
    values. *)
Definition wellFormed (G : SILGraph) (isProjection : SILValue -> bool) : Prop :=
  forall V,
    argumentOk G V = true /\
    (isUnaryKind (getKind (node G V)) || isProjection V = true ->
     getOperands (node G V) <> []).

(** ** Two loop shapes

    Most strippers have the body "canonicalize with [pre]; return unless the
    value is of the stripped kind; continue from operand 0"; the
    [getUnderlyingObject] family iterates a function to a fixed point.  The
    source bodies above are shown equal to these shapes, and the shapes are
    reasoned about once. *)
Definition peel_body (G : SILGraph) (pre : SILValue -> Outcome SILValue)
    (strips : SILValue -> bool) (V : SILValue) : Outcome (LoopCtl SILValue) :=
  letO V := pre V in
  if strips V then letO V := operand0 G V in Done (Continue V)
  else Done (Return V).

Definition fixpoint_body (g : SILValue -> Outcome SILValue) (V : SILValue)
  : Outcome (LoopCtl SILValue) :=
  letO V2 := g V in
  if Nat.eqb V2 V then Done (Return V2) else Done (Continue V2).

Section Shapes.

Variable G : SILGraph.
Variable isAddressProjection : SILValue -> bool.

Definition strips_CastsWithoutMarkDependence (V : SILValue) : bool :=
  isRCIdentityPreservingCast (kindOf G V) ||
  match kindOf G V with UncheckedTrivialBitCastInst => true | _ => false end.

Definition strips_Casts (V : SILValue) : bool :=
  isRCIdentityPreservingCast (kindOf G V)
  || match kindOf G V with UncheckedTrivialBitCastInst => true | _ => false end
  || match kindOf G V with MarkDependenceInst => true | _ => false end.

Definition strips_ClassCasts (V : SILValue) : bool :=
  match kindOf G V with
  | UpcastInst | UnconditionalCheckedCastInst => true
  | _ => false
  end.

Definition strips_UnaryAddressProjections (V : SILValue) : bool :=
  isAddressProjection V && negb (Nat.ltb 1 (length (getOperands (node G V)))).

Definition strips_IndexingInsts (V : SILValue) : bool :=
  isa_IndexingInst (kindOf G V).

Definition strips_ConvertFunctions (V : SILValue) : bool :=
  match kindOf G V with ConvertFunctionInst => true | _ => false end.

End Shapes.

(** The function that each loop of the [getUnderlyingObject] family iterates
    to a fixed point. *)
Section Steps.

Variable G : SILGraph.
Variable isAddressProjection : SILValue -> bool.

Definition getUnderlyingObject_step (fuel : nat) (V : SILValue)
  : Outcome SILValue :=
  letO V0 := stripCasts G fuel V in
  letO V1 := stripAddressProjections G isAddressProjection fuel V0 in
  stripIndexingInsts G fuel V1.

Definition getUnderlyingAddressRoot_step (fuel : nat) (V : SILValue)
  : Outcome SILValue :=
  letO V0 := stripCasts G fuel V in
  letO V2 := stripIndexingInsts G fuel V0 in
  match kindOf G V2 with
  | StructElementAddrInst
  | TupleElementAddrInst
  | UncheckedTakeEnumDataAddrInst => operand0 G V2
  | _ => Done V2
  end.

Definition getUnderlyingObjectStopAtMarkDependence_step (fuel : nat)
    (V : SILValue) : Outcome SILValue :=
  letO V0 := stripCastsWithoutMarkDependence G fuel V in
  letO V1 := stripAddressProjections G isAddressProjection fuel V0 in
  stripIndexingInsts G fuel V1.

End Steps.

(** * The projection predicates of Projection.h *)

(** Modelled from the spec: [Projection::isAddressProjection] (Projection.h is
    not among the sources): the address projections -- struct and tuple
    field, enum payload, class field and tail, box projection -- and an
    [index_addr] whose index is an integer literal. *)
Definition Projection_isAddressProjection (G : SILGraph) (V : SILValue) : bool :=
  match kindOf G V with
  | IndexAddrInst =>
      match getOperands (node G V) !! 1 with
      | Some Index =>
          match kindOf G Index with
          | IntegerLiteralInst => true
          | _ => false
          end
      | None => false
      end
  | StructElementAddrInst
  | RefElementAddrInst
  | RefTailAddrInst
  | ProjectBoxInst
  | TupleElementAddrInst
  | UncheckedTakeEnumDataAddrInst => true
  | _ => false
  end.

(** Modelled from the spec: [Projection::isObjectProjection]: the value
    projections, "analogous to address projections but over register-form
    aggregates". *)
Definition Projection_isObjectProjection (G : SILGraph) (V : SILValue) : bool :=
  match kindOf G V with
  | StructExtractInst
  | TupleExtractInst
  | UncheckedEnumDataInst => true
  | _ => false
  end.

(** * Specification-side notions *)

(** The subobject projections and indexing instructions named by the access
    root property. *)
Definition isSubobjectProjection (k : SILNodeKind) : bool :=
  match k with
  | StructElementAddrInst
  | TupleElementAddrInst
  | UncheckedTakeEnumDataAddrInst
  | IndexAddrInst => true
  | _ => false
  end.

(** The kinds at which [findAccessedAddressBase] returns at once. *)
Definition isFormalAccessBaseKind (k : SILNodeKind) : bool :=
  match k with
  | GlobalAddrInst
  | RefElementAddrInst
  | AllocBoxInst
  | AllocStackInst
  | BeginAccessInst
  | SILFunctionArgument
  | PointerToAddressInst => true
  | _ => false
  end.

(** [ProjectionChain G N V base]: [V] is reached from [base] by [N]
    projections, each taking the previous address as operand 0. *)
Inductive ProjectionChain (G : SILGraph)
  : nat -> SILValue -> SILValue -> Prop :=
  | chain_base (base : SILValue) :
      isFormalAccessBaseKind (getKind (node G base)) = true ->
      ProjectionChain G 0 base base
  | chain_step (N : nat) (V W base : SILValue) :
      isSubobjectProjection (getKind (node G V)) = true ->
      getOperands (node G V) !! 0 = Some W ->
      ProjectionChain G N W base ->
      ProjectionChain G (S N) V base.

(** The three states of the ownership-dialect machine, as the specification
    names them, and its transition function, written from the
    specification's words. *)
Inductive DialectState :=
  | StateUnqualified
  | QualifiedNoEvidence
  | QualifiedWithEvidence.

Definition dialect_step (s : DialectState) (k : OwnershipQualifiedKind)
  : bool * DialectState :=
  match k, s with
  | NotApplicable, _ => (true, s)
  | Unqualified, StateUnqualified => (true, StateUnqualified)
  | Unqualified, QualifiedWithEvidence => (false, QualifiedWithEvidence)
  | Unqualified, QualifiedNoEvidence => (true, StateUnqualified)
  | Qualified, StateUnqualified => (false, StateUnqualified)
  | Qualified, _ => (true, QualifiedWithEvidence)
  end.

(** The state of the machine that an evaluator is in. *)
Definition dialectState (E : FunctionOwnershipEvaluator) : DialectState :=
  if negb (hasQualifiedOwnership E) then StateUnqualified
  else if HasOwnershipQualifiedInstruction E then QualifiedWithEvidence
  else QualifiedNoEvidence.

(** * Example graphs *)

Definition inst (k : SILNodeKind) (ops : list SILValue) : SILNode :=
  mkSILNode k ops objectType 0 0 0 None not_intrinsic IsNotThunk
    LoadUnqualified StoreUnqualified [].

Definition typedInst (k : SILNodeKind) (ops : list SILValue) (T : ASTType)
    (users : list SILValue) : SILNode :=
  mkSILNode k ops (mkSILType false T) 0 0 0 None not_intrinsic IsNotThunk
    LoadUnqualified StoreUnqualified users.

Definition addressInst (k : SILNodeKind) (ops : list SILValue) (T : ASTType)
    (decl : option bool) : SILNode :=
  mkSILNode k ops (mkSILType true T) 0 0 0 decl not_intrinsic IsNotThunk
    LoadUnqualified StoreUnqualified [].

Definition blockArgument (BB : SILBasicBlockRef) (Index : nat) : SILNode :=
  mkSILNode SILPHIArgument [] objectType 0 BB Index None not_intrinsic
    IsNotThunk LoadUnqualified StoreUnqualified [].

Definition functionRef (thunk : IsThunk_t) : SILNode :=
  mkSILNode FunctionRefInst [] (mkSILType false (SILFunctionType Thin)) 0 0 0
    None not_intrinsic thunk LoadUnqualified StoreUnqualified [].

Definition builtin (ID : IntrinsicID) (args : list SILValue) : SILNode :=
  mkSILNode BuiltinInst args objectType 0 0 0 None ID IsNotThunk
    LoadUnqualified StoreUnqualified [].

Definition loadInst (Fn : SILFunctionRef) (q : LoadOwnershipQualifier)
  : SILNode :=
  mkSILNode LoadInst [0] objectType Fn 0 0 None not_intrinsic IsNotThunk
    q StoreUnqualified [].

Definition storeInst (Fn : SILFunctionRef) (q : StoreOwnershipQualifier)
  : SILNode :=
  mkSILNode StoreInst [0; 1] objectType Fn 0 0 None not_intrinsic IsNotThunk
    LoadUnqualified q [].

(** [%0 = alloc_stack; %1 = struct_element_addr %0; %2 = tuple_element_addr
    %1; %3 = integer_literal; %4 = index_addr %2, %3;
    %5 = unchecked_take_enum_data_addr %4]. *)
Definition projectionGraph : SILGraph :=
  mkSILGraph
    [ addressInst AllocStackInst [] OtherType (Some false);
      addressInst StructElementAddrInst [0] OtherType None;
      addressInst TupleElementAddrInst [1] OtherType None;
      inst IntegerLiteralInst [];
      addressInst IndexAddrInst [2; 3] OtherType None;
      addressInst UncheckedTakeEnumDataAddrInst [4] OtherType None ]
    [].

(** A mutable [alloc_stack $Builtin.UnsafeValueBuffer] (%0), a mutable
    [alloc_stack] of an ordinary type (%1), a [let] stack slot (%2), a
    function argument (%3), a [pointer_to_address] (%5 of %4), a [let] box
    (%6), a [let] global (%7), a mutable box (%8) and a global without a
    declaration (%9). *)
Definition accessBaseGraph : SILGraph :=
  mkSILGraph
    [ addressInst AllocStackInst [] BuiltinUnsafeValueBufferType (Some false);
      addressInst AllocStackInst [] OtherType (Some false);
      addressInst AllocStackInst [] OtherType (Some true);
      addressInst SILFunctionArgument [] OtherType None;
      inst ApplyInst [];
      addressInst PointerToAddressInst [4] OtherType None;
      addressInst AllocBoxInst [] OtherType (Some true);
      addressInst GlobalAddrInst [] OtherType (Some true);
      addressInst AllocBoxInst [] OtherType (Some false);
      addressInst GlobalAddrInst [] OtherType None ]
    [].

(** [%0 = apply; %1 = struct_extract %0; %2 = upcast %1]. *)
Definition valueProjectionGraph : SILGraph :=
  mkSILGraph
    [ inst ApplyInst [];
      inst StructExtractInst [0];
      inst UpcastInst [1] ]
    [].

(** [%0 = apply; %1 = integer_literal; %2 = begin_borrow %0;
    %3 = begin_borrow %2; %4 = builtin "int_expect" (%0, %1);
    %5 = builtin "int_expect" (%4, %1)]. *)
Definition oneShotGraph : SILGraph :=
  mkSILGraph
    [ inst ApplyInst [];
      inst IntegerLiteralInst [];
      inst BeginBorrowInst [0];
      inst BeginBorrowInst [2];
      builtin expect [0; 1];
      builtin expect [4; 1] ]
    [].

(** Block 0 ends in [br bb1(%0)]; block 1 has the single predecessor 0 and
    the argument %1; block 2 has the two predecessors 0 and 1 and the
    argument %2; block 3 ends in [cond_br %0, bb4(%0), bb5(%1)]; blocks 4
    and 5 have the single predecessor 3 and the arguments %3 and %4; block
    6 ends in a [checked_cast_br] to block 7, whose argument is %5. *)
Definition branchGraph : SILGraph :=
  mkSILGraph
    [ inst ApplyInst [];
      blockArgument 1 0;
      blockArgument 2 0;
      blockArgument 4 0;
      blockArgument 5 0;
      blockArgument 7 0 ]
    [ mkSILBasicBlock [] (BranchInst 1 [0]);
      mkSILBasicBlock [0] (BranchInst 2 [1]);
      mkSILBasicBlock [0; 1] UnreachableInst;
      mkSILBasicBlock [] (CondBranchInst 0 4 [0] 5 [1]);
      mkSILBasicBlock [3] UnreachableInst;
      mkSILBasicBlock [3] UnreachableInst;
      mkSILBasicBlock [] (CheckedCastBranchInst 0 7 7);
      mkSILBasicBlock [6] UnreachableInst ].

(** [%0 = function_ref @f; %1 = apply; %2 = partial_apply %0(%1);
    %3 = function_ref @thunk (a reabstraction thunk);
    %4 = partial_apply %3(%2); %5 = partial_apply %3(%4)]. *)
Definition closureGraph : SILGraph :=
  mkSILGraph
    [ functionRef IsNotThunk;
      inst ApplyInst [];
      typedInst PartialApplyInst [0; 1] (SILFunctionType Thick) [4];
      functionRef IsReabstractionThunk;
      typedInst PartialApplyInst [3; 2] (SILFunctionType Thick) [5];
      typedInst PartialApplyInst [3; 4] (SILFunctionType Thick) [] ]
    [].

(** Partial applications that are no thunk applications, although they
    take a closure or have a thunk as callee:
    [%0 = function_ref @f; %1 = apply; %2 = partial_apply %0(%1);
    %3 = partial_apply %0(%2)], whose callee is no thunk;
    [%4 = function_ref @thunk (a reabstraction thunk);
    %5 = partial_apply %4(%2, %1)], with two arguments; and a thunk
    application, [%6 = partial_apply %4(%3)]. *)
Definition plainClosureGraph : SILGraph :=
  mkSILGraph
    [ functionRef IsNotThunk;
      inst ApplyInst [];
      typedInst PartialApplyInst [0; 1] (SILFunctionType Thick) [3; 5];
      typedInst PartialApplyInst [0; 2] (SILFunctionType Thick) [6];
      functionRef IsReabstractionThunk;
      typedInst PartialApplyInst [4; 2; 1] (SILFunctionType Thick) [];
      typedInst PartialApplyInst [4; 3] (SILFunctionType Thick) [] ]
    [].

(** A block whose storage has no projection:
    [%0 = alloc_stack; %1 = init_block_storage_header %0;
    %2 = copy_block %1]; and a block value that is no header at all:
    [%3 = apply; %4 = copy_block %3]. *)
Definition blockGraph : SILGraph :=
  mkSILGraph
    [ typedInst AllocStackInst [] OtherType [1];
      typedInst InitBlockStorageHeaderInst [0] (SILFunctionType Block) [2];
      typedInst CopyBlockInst [1] (SILFunctionType Block) [];
      typedInst ApplyInst [] (SILFunctionType Block) [4];
      typedInst CopyBlockInst [3] (SILFunctionType Block) [] ]
    [].

(** Reference counting of function values, for the examples: thick
    functions and blocks are reference counted. *)
Definition functionsAreReferenceCounted (T : SILType) : bool :=
  match getSwiftRValueType T with
  | SILFunctionType Thick | SILFunctionType Block => true
  | _ => false
  end.

(** The depth of a node in the example graphs: its handle. *)
Definition handleRank (V : SILValue) : nat := V.

(** A decision procedure for [wellFormed] on the nodes of the store. *)
Definition check_wellFormed (G : SILGraph) (isProjection : SILValue -> bool)
  : bool :=
  forallb (fun V =>
             argumentOk G V &&
             (negb (isUnaryKind (getKind (node G V)) || isProjection V)
              || match getOperands (node G V) with [] => false | _ => true end))
    (seq 0 (length (nodes G))).

(** [BehindBlockCopies G N V W]: [W] is what stands behind [N] [copy_block]
    wrappers of [V], and is itself no [copy_block]. *)
Inductive BehindBlockCopies (G : SILGraph)
  : nat -> SILValue -> SILValue -> Prop :=
  | copies_end (W : SILValue) :
      getKind (node G W) <> CopyBlockInst ->
      BehindBlockCopies G 0 W W
  | copies_step (N : nat) (V V' W : SILValue) :
      getKind (node G V) = CopyBlockInst ->
      getOperands (node G V) !! 0 = Some V' ->
      BehindBlockCopies G N V' W ->
      BehindBlockCopies G (S N) V W.

Definition isa_ProjectBlockStorageInst (k : SILNodeKind) : bool :=
  match k with ProjectBlockStorageInst => true | _ => false end.

Definition isa_StoreInst (k : SILNodeKind) : bool :=
  match k with StoreInst => true | _ => false end.

Definition isa_InitBlockStorageHeaderInst (k : SILNodeKind) : bool :=
  match k with InitBlockStorageHeaderInst => true | _ => false end.

(** ** Finite acyclic graphs

    A graph, given by its successor function, is acyclic when no value
    reaches itself along one or more edges.  The depth of a value is the
    length of the longest walk that starts at it; in a store of [n] nodes no
    walk of an acyclic graph is longer than [n], so walks of up to [n] edges
    are all there is to measure.  [acyclic] counts the operand edges and the
    edges from a block argument to its incoming values; [operandAcyclic]
    counts the operand edges only. *)
Definition edgeAlong (succ : SILValue -> list SILValue) (V W : SILValue)
  : Prop := W ∈ succ V.

Definition acyclicAlong (succ : SILValue -> list SILValue) : Prop :=
  forall V, ~ tc (edgeAlong succ) V V.

Definition acyclic (G : SILGraph) : Prop := acyclicAlong (edges G).

Definition operandAcyclic (G : SILGraph) : Prop :=
  acyclicAlong (operandsOf G).

Fixpoint maxOver (f : SILValue -> nat) (l : list SILValue) : nat :=
  match l with
  | [] => 0
  | W :: l' => Nat.max (f W) (maxOver f l')
  end.

Fixpoint depthUpTo (succ : SILValue -> list SILValue) (n : nat)
    (V : SILValue) : nat :=
  match n with
  | 0 => 0
  | S n' => maxOver (fun W => S (depthUpTo succ n' W)) (succ V)
  end.

Definition graphDepth (G : SILGraph) (V : SILValue) : nat :=
  depthUpTo (edges G) (length (nodes G)) V.

Definition operandDepth (G : SILGraph) (V : SILValue) : nat :=
  depthUpTo (operandsOf G) (length (nodes G)) V.

(** [isWalk succ V p]: [p] lists the values visited after [V] on a walk
    along the edges; [walkSources V p] lists the values the edges of the
    walk leave from. *)
Fixpoint isWalk (succ : SILValue -> list SILValue) (V : SILValue)
    (p : list SILValue) : Prop :=
  match p with
  | [] => True
  | W :: p' => edgeAlong succ V W /\ isWalk succ W p'
  end.

Fixpoint walkSources (V : SILValue) (p : list SILValue) : list SILValue :=
  match p with
  | [] => []
  | W :: p' => V :: walkSources W p'
  end.

(** A block that is its own single predecessor: [bb0(%0): br bb0(%0)]. *)
Definition selfLoopGraph : SILGraph :=
  mkSILGraph [ blockArgument 0 0 ] [ mkSILBasicBlock [0] (BranchInst 0 [0]) ].

(** ** Chains of operand-0 steps

    [OperandChain G through N V W]: [W] is reached from [V] by [N] steps,
    each from a value that satisfies [through] to its operand 0. *)
Inductive OperandChain (G : SILGraph) (through : SILValue -> bool)
  : nat -> SILValue -> SILValue -> Prop :=
  | operand_chain_end (W : SILValue) : OperandChain G through 0 W W
  | operand_chain_step (N : nat) (V V' W : SILValue) :
      through V = true ->
      getOperands (node G V) !! 0 = Some V' ->
      OperandChain G through N V' W ->
      OperandChain G through (S N) V W.

(** The kinds that [findAccessedAddressBase] looks through, and the kinds
    at which it answers "no root". *)
Definition isAccessInductiveKind (k : SILNodeKind) : bool :=
  match k with
  | MarkUninitializedInst
  | OpenExistentialAddrInst
  | UncheckedAddrCastInst
  | CopyValueInst
  | MarkDependenceInst
  | ProjectBoxInst
  | ProjectBlockStorageInst
  | BeginBorrowInst
  | StructElementAddrInst
  | TupleElementAddrInst
  | UncheckedTakeEnumDataAddrInst
  | RefTailAddrInst
  | TailAddrInst
  | IndexAddrInst => true
  | _ => false
  end.

Definition isAccessNoRootKind (k : SILNodeKind) : bool :=
  match k with
  | OpenExistentialBoxInst
  | ProjectExistentialBoxInst
  | ProjectValueBufferInst
  | InitEnumDataAddrInst
  | InitExistentialAddrInst
  | AllocExistentialBoxInst
  | AllocValueBufferInst
  | SILUndef => true
  | _ => false
  end.

(** A block argument that [findAccessedAddressBase] accepts as a base: not
    of address type, in a block whose single predecessor ends in a
    [switch_enum]. *)
Definition isSwitchEnumPayload (G : SILGraph) (V : SILValue) : bool :=
  match getKind (node G V) with
  | SILPHIArgument =>
      negb (isAddress (getType (node G V))) &&
      match getSinglePredecessorBlock (block G (getParent (node G V))) with
      | Some Pred =>
          match getTerminator (block G Pred) with
          | SwitchEnumInst _ _ => true
          | _ => false
          end
      | None => false
      end
  | _ => false
  end.

Definition isa_UpcastInst (k : SILNodeKind) : bool :=
  match k with UpcastInst => true | _ => false end.

(** The casts a cast stripper looks through, by kind: the six casts that
    keep the identity of a reference ([upcast], [unchecked_ref_cast],
    [unconditional_checked_cast], [unconditional_checked_cast_value],
    [ref_to_bridge_object], [bridge_object_to_ref]) and the trivial
    bitcast. *)
Definition isIdentityOrTrivialCastKind (k : SILNodeKind) : bool :=
  match k with
  | UpcastInst
  | UncheckedRefCastInst
  | UnconditionalCheckedCastInst
  | UnconditionalCheckedCastValueInst
  | RefToBridgeObjectInst
  | BridgeObjectToRefInst
  | UncheckedTrivialBitCastInst => true
  | _ => false
  end.

(** The same kinds, and [mark_dependence]. *)
Definition isCastOrMarkDependenceKind (k : SILNodeKind) : bool :=
  match k with
  | UpcastInst
  | UncheckedRefCastInst
  | UnconditionalCheckedCastInst
  | UnconditionalCheckedCastValueInst
  | RefToBridgeObjectInst
  | BridgeObjectToRefInst
  | UncheckedTrivialBitCastInst
  | MarkDependenceInst => true
  | _ => false
  end.

Definition isa_PartialApplyInst (k : SILNodeKind) : bool :=
  match k with PartialApplyInst => true | _ => false end.

Definition isFunctionType (T : ASTType) : bool :=
  match T with SILFunctionType _ => true | _ => false end.

(** A value whose type is a function type that is not of the block
    representation. *)
Definition hasNonBlockFunctionType (G : SILGraph) (V : SILValue) : bool :=
  match getSwiftRValueType (getType (node G V)) with
  | SILFunctionType rep => negb (isBlockRepresentation rep)
  | _ => false
  end.

(** [t] is the application of a reabstraction thunk to the one argument
    [a], as [isPartialApplyOfReabstractionThunk] recognizes it. *)
Definition isThunkApplication (G : SILGraph)
    (isReferenceCounted : SILType -> bool) (t a : SILValue) : Prop :=
  exists callee,
    getOperands (node G t) = [callee; a] /\
    getKind (node G callee) = FunctionRefInst /\
    referencedThunk (node G callee) = IsReabstractionThunk /\
    isFunctionType (getSwiftRValueType (getType (node G a))) = true /\
    isReferenceCounted (getType (node G a)) = true.

(** [ThunkChain G rc N t c]: [t] wraps [c] in [N] reabstraction thunks, each
    a partial application whose value is a function not of the block
    representation. *)
Inductive ThunkChain (G : SILGraph) (isReferenceCounted : SILType -> bool)
  : nat -> SILValue -> SILValue -> Prop :=
  | thunk_chain_end (c : SILValue) : ThunkChain G isReferenceCounted 0 c c
  | thunk_chain_step (N : nat) (t a c : SILValue) :
      getKind (node G t) = PartialApplyInst ->
      hasNonBlockFunctionType G t = true ->
      isThunkApplication G isReferenceCounted t a ->
      ThunkChain G isReferenceCounted N a c ->
      ThunkChain G isReferenceCounted (S N) t c.

(** The classes of an instruction for the ownership evaluator, as tests. *)
Definition isQualifiedInst (I : SILNode) : bool :=
  match OwnershipQualifiedKindVisitor_visit I with
  | Qualified => true
  | _ => false
  end.

Definition isUnqualifiedInst (I : SILNode) : bool :=
  match OwnershipQualifiedKindVisitor_visit I with
  | Unqualified => true
  | _ => false
  end.

(** ** More example graphs *)

Definition classInst (k : SILNodeKind) (ops : list SILValue) : SILNode :=
  typedInst k ops ClassType [].

(** [%0 = apply; %1 = upcast %0; %2 = unchecked_ref_cast %1;
    %3 = mark_dependence %2 on %0; %4 = unconditional_checked_cast %3;
    %5 = upcast %4; %6 = upcast %5], all of class type. *)
Definition castGraph : SILGraph :=
  mkSILGraph
    [ classInst ApplyInst [];
      classInst UpcastInst [0];
      classInst UncheckedRefCastInst [1];
      classInst MarkDependenceInst [2; 0];
      classInst UnconditionalCheckedCastInst [3];
      classInst UpcastInst [4];
      classInst UpcastInst [5] ]
    [].

(** One cast of every kind that [stripCasts] looks through:
    [%0 = apply; %1 = upcast %0; %2 = unchecked_ref_cast %1;
    %3 = unconditional_checked_cast %2;
    %4 = unconditional_checked_cast_value %3; %5 = ref_to_bridge_object %4;
    %6 = bridge_object_to_ref %5; %7 = unchecked_trivial_bit_cast %6;
    %8 = mark_dependence %7 on %0; %9 = upcast %8]. *)
Definition identityCastGraph : SILGraph :=
  mkSILGraph
    [ classInst ApplyInst [];
      classInst UpcastInst [0];
      classInst UncheckedRefCastInst [1];
      classInst UnconditionalCheckedCastInst [2];
      classInst UnconditionalCheckedCastValueInst [3];
      classInst RefToBridgeObjectInst [4];
      classInst BridgeObjectToRefInst [5];
      classInst UncheckedTrivialBitCastInst [6];
      classInst MarkDependenceInst [7; 0];
      classInst UpcastInst [8] ]
    [].

(** [%0 = alloc_box; %1 = copy_value %0; %2 = begin_borrow %1;
    %3 = project_box %2; %4 = struct_element_addr %3; %5 = apply;
    %6 = open_existential_box %5; %7 = tuple_element_addr %6;
    %8 = ref_element_addr %5; %9 = integer_literal;
    %10 = index_addr %8, %9; %11 = unchecked_addr_cast %10]. *)
Definition accessGraph : SILGraph :=
  mkSILGraph
    [ inst AllocBoxInst [];
      inst CopyValueInst [0];
      inst BeginBorrowInst [1];
      addressInst ProjectBoxInst [2] OtherType None;
      addressInst StructElementAddrInst [3] OtherType None;
      inst ApplyInst [];
      addressInst OpenExistentialBoxInst [5] OtherType None;
      addressInst TupleElementAddrInst [6] OtherType None;
      addressInst RefElementAddrInst [5] OtherType None;
      inst IntegerLiteralInst [];
      addressInst IndexAddrInst [8; 9] OtherType None;
      addressInst UncheckedAddrCastInst [10] OtherType None ]
    [].

(** The block pattern of [findClosureStoredIntoBlock], complete:
    [%0 = function_ref @f; %1 = apply; %2 = partial_apply %0(%1);
    %3 = convert_function %2; %4 = alloc_stack;
    %5 = project_block_storage %4; %6 = store %3 to %5;
    %7 = init_block_storage_header %4; %8 = copy_block %7;
    %9 = copy_block %8]; and around the closure
    [%10 = convert_function %3; %11 = begin_borrow %10;
    %12 = enum #Optional.some, %2; %13 = begin_borrow %11;
    %14 = partial_apply %0(%1, %1)]. *)
Definition blockClosureGraph : SILGraph :=
  mkSILGraph
    [ functionRef IsNotThunk;
      inst ApplyInst [];
      typedInst PartialApplyInst [0; 1] (SILFunctionType Thick) [3; 12];
      typedInst ConvertFunctionInst [2] (SILFunctionType Thick) [6; 10];
      typedInst AllocStackInst [] OtherType [5; 7];
      typedInst ProjectBlockStorageInst [4] OtherType [6];
      typedInst StoreInst [3; 5] OtherType [];
      typedInst InitBlockStorageHeaderInst [4] (SILFunctionType Block) [8];
      typedInst CopyBlockInst [7] (SILFunctionType Block) [9];
      typedInst CopyBlockInst [8] (SILFunctionType Block) [];
      typedInst ConvertFunctionInst [3] (SILFunctionType Thick) [11];
      typedInst BeginBorrowInst [10] (SILFunctionType Thick) [13];
      typedInst EnumInst [2] (OptionalType (SILFunctionType Thick)) [];
      typedInst BeginBorrowInst [11] (SILFunctionType Thick) [];
      typedInst PartialApplyInst [0; 1; 1] (SILFunctionType Thick) [] ]
    [].

(** Block 0 ends in a [switch_enum] to block 1, whose argument %1 is the
    payload; %2 projects the box. *)
Definition switchEnumGraph : SILGraph :=
  mkSILGraph
    [ inst ApplyInst [];
      blockArgument 1 0;
      addressInst ProjectBoxInst [1] OtherType None ]
    [ mkSILBasicBlock [] (SwitchEnumInst 0 [1]);
      mkSILBasicBlock [0] UnreachableInst ].

(** * Loops *)

Section Loops.

Context {R : Type}.
Variable body : SILValue -> Outcome (LoopCtl R).

Lemma while_true_S (fuel : nat) (V : SILValue) :
  while_true body (S fuel) V =
  match body V with
  | Done (Continue V') => while_true body fuel V'
  | Done (Return r) => Done r
  | Fatal => Fatal
  | OutOfFuel => OutOfFuel
  end.
Proof. reflexivity. Qed.

Lemma while_true_return (fuel : nat) (V : SILValue) (r : R) :
  body V = Done (Return r) -> while_true body (S fuel) V = Done r.
Proof. intros H. rewrite while_true_S, H. reflexivity. Qed.

Lemma while_true_continue (fuel : nat) (V V' : SILValue) :
  body V = Done (Continue V') ->
  while_true body (S fuel) V = while_true body fuel V'.
Proof. intros H. rewrite while_true_S, H. reflexivity. Qed.

(** A loop that returns did so from a last pass; an invariant of the
    [continue] steps holds there. *)
Lemma while_true_inv (P : SILValue -> Prop) :
  (forall V V', P V -> body V = Done (Continue V') -> P V') ->
  forall fuel V r, P V -> while_true body fuel V = Done r ->
  exists V', P V' /\ body V' = Done (Return r).
Proof.
  intros Hstep fuel. induction fuel as [|fuel IH]; intros V r HP Hrun.
  - discriminate.
  - rewrite while_true_S in Hrun.
    destruct (body V) as [[V'|r']| |] eqn:Hb; try discriminate.
    + eapply IH; [|exact Hrun]. eapply Hstep; eauto.
    + injection Hrun as ->. eauto.
Qed.

Lemma while_true_last (fuel : nat) (V : SILValue) (r : R) :
  while_true body fuel V = Done r -> exists V', body V' = Done (Return r).
Proof.
  intros H.
  destruct (while_true_inv (fun _ => True) (fun _ _ _ _ => Logic.I) fuel V r Logic.I H)
    as (V' & _ & HV').
  eauto.
Qed.

(** Fuel above the rank is never exhausted when every [continue] descends. *)
Lemma while_true_terminates (rank : SILValue -> nat) (N : nat) :
  (forall V, rank V < N -> body V <> OutOfFuel) ->
  (forall V V', body V = Done (Continue V') -> rank V' < rank V) ->
  forall fuel V, rank V < fuel -> rank V < N ->
  while_true body fuel V <> OutOfFuel.
Proof.
  intros Hbody Hdesc fuel.
  induction fuel as [|fuel IH]; intros V Hfuel HN; [lia|].
  rewrite while_true_S.
  destruct (body V) as [[V'|r']| |] eqn:Hb; try discriminate.
  - apply Hdesc in Hb as Hlt. apply IH; lia.
  - exfalso. eapply Hbody; eauto.
Qed.

(** No pass fails: the loop does not fail either. *)
Lemma while_true_not_fatal (fuel : nat) (V : SILValue) :
  (forall V, body V <> Fatal) -> while_true body fuel V <> Fatal.
Proof.
  intros Hbody. revert V.
  induction fuel as [|fuel IH]; intros V; [discriminate|].
  rewrite while_true_S.
  destruct (body V) as [[V'|r']| |] eqn:Hb; try discriminate.
  - apply IH.
  - exfalso. eapply Hbody; eauto.
Qed.

End Loops.

Lemma while_true_ext {R} (body1 body2 : SILValue -> Outcome (LoopCtl R)) :
  (forall V, body1 V = body2 V) ->
  forall fuel V, while_true body1 fuel V = while_true body2 fuel V.
Proof.
  intros Hext fuel. induction fuel as [|fuel IH]; intros V; [reflexivity|].
  rewrite !while_true_S, Hext.
  destruct (body2 V) as [[V'|r]| |]; auto.
Qed.

Lemma while_true_done_fuel {R} (body : SILValue -> Outcome (LoopCtl R))
    (fuel : nat) (V : SILValue) (r : R) :
  while_true body fuel V = Done r -> exists fuel', fuel = S fuel'.
Proof. destruct fuel; [discriminate|eauto]. Qed.

Lemma outcome_cases {A} (m : Outcome A) :
  m <> OutOfFuel -> m <> Fatal -> exists a, m = Done a.
Proof. destruct m; intros H1 H2; [eauto|congruence|congruence]. Qed.

Lemma below_refl (rank : SILValue -> nat) (V : SILValue) : below rank V V.
Proof. left; reflexivity. Qed.

Lemma below_trans (rank : SILValue -> nat) (a b c : SILValue) :
  below rank a b -> below rank b c -> below rank a c.
Proof. unfold below. intros [->|H1] [->|H2]; auto. right; lia. Qed.

Lemma below_le (rank : SILValue -> nat) (a b : SILValue) :
  below rank a b -> rank a <= rank b.
Proof. intros [->|H]; lia. Qed.

Lemma below_antisym (rank : SILValue -> nat) (a b : SILValue) :
  below rank a b -> below rank b a -> a = b.
Proof. unfold below. intros [->|H1] [H2|H2]; auto. lia. Qed.

(** * Properties of the canonicalizer *)

Section CanonicalizerFacts.

Variable G : SILGraph.
Variable isAddressProjection : SILValue -> bool.
Variable isObjectProjection : SILValue -> bool.

Lemma operand0_edge (V W : SILValue) :
  operand0 G V = Done W -> W ∈ operandsOf G V.
Proof.
  unfold operand0, getOperand, operandsOf. intros H.
  destruct (getOperands (node G V) !! 0) as [op|] eqn:Hop; [|discriminate].
  injection H as ->.
  eapply list_elem_of_lookup_2; eauto.
Qed.

Lemma operand0_terminates (V : SILValue) : operand0 G V <> OutOfFuel.
Proof.
  unfold operand0, getOperand.
  destruct (getOperands (node G V) !! 0); discriminate.
Qed.

Lemma getArgForDestBB_some tBB tArgs fBB fArgs BB i W :
  getArgForDestBB tBB tArgs fBB fArgs BB i = Done (Some W) ->
  W ∈ option_list (tArgs !! i) ++ option_list (fArgs !! i).
Proof.
  unfold getArgForDestBB. intros H.
  destruct (Nat.eqb tBB fBB).
  - destruct (Nat.eqb BB tBB); discriminate.
  - destruct (Nat.eqb BB tBB).
    + destruct (tArgs !! i); [|discriminate]. injection H as ->.
      apply elem_of_app. left. simpl. apply list_elem_of_here.
    + destruct (Nat.eqb BB fBB); [|discriminate].
      destruct (fArgs !! i); [|discriminate]. injection H as ->.
      apply elem_of_app. right. simpl. apply list_elem_of_here.
Qed.

Lemma stripSinglePredecessorArgs_body_continue (V V' : SILValue) :
  stripSinglePredecessorArgs_body G V = Done (Continue V') ->
  V' ∈ incomingValues G V.
Proof.
  unfold stripSinglePredecessorArgs_body, incomingValues. intros H.
  destruct (isa_SILArgument (getKind (node G V))); simpl in H; [|discriminate].
  destruct (getSinglePredecessorBlock (block G (getParent (node G V))))
    as [Pred|]; [|discriminate].
  destruct (getTerminator (block G Pred)) as [d a|c t ta f fa| | | |];
    try discriminate.
  - destruct (a !! getIndex (node G V)); [|discriminate].
    injection H as ->. simpl. apply list_elem_of_here.
  - destruct (getArgForDestBB t ta f fa (getParent (node G V))
                (getIndex (node G V))) as [[W|]| |] eqn:HA;
      simpl in H; try discriminate.
    injection H as ->. eapply getArgForDestBB_some; eauto.
Qed.

Lemma stripSinglePredecessorArgs_body_return (V r : SILValue) :
  stripSinglePredecessorArgs_body G V = Done (Return r) -> r = V.
Proof.
  unfold stripSinglePredecessorArgs_body. intros H.
  destruct (isa_SILArgument (getKind (node G V))); simpl in H;
    [|congruence].
  destruct (getSinglePredecessorBlock (block G (getParent (node G V))))
    as [Pred|]; [|congruence].
  destruct (getTerminator (block G Pred)) as [d a|c t ta f fa| | | |];
    try congruence.
  - destruct (a !! getIndex (node G V)); discriminate.
  - destruct (getArgForDestBB t ta f fa (getParent (node G V))
                (getIndex (node G V))) as [[W|]| |];
      simpl in H; congruence.
Qed.

(** The result of [stripSinglePredecessorArgs] is a value that one more pass
    returns unchanged. *)
Lemma stripSinglePredecessorArgs_result (fuel : nat) (V r : SILValue) :
  stripSinglePredecessorArgs G fuel V = Done r ->
  stripSinglePredecessorArgs_body G r = Done (Return r).
Proof.
  intros H. apply while_true_last in H as [V' H].
  pose proof (stripSinglePredecessorArgs_body_return _ _ H) as ->. exact H.
Qed.

Lemma stripSinglePredecessorArgs_fixed (fuel fuel' : nat) (V r : SILValue) :
  stripSinglePredecessorArgs G fuel V = Done r ->
  stripSinglePredecessorArgs G (S fuel') r = Done r.
Proof.
  intros H. apply while_true_return.
  eapply stripSinglePredecessorArgs_result; eauto.
Qed.

Section Ranked.

Variable rank : SILValue -> nat.
Hypothesis rank_operands : descendsAlong (operandsOf G) rank.
Hypothesis rank_incoming : descendsAlong (incomingValues G) rank.

Lemma stripSinglePredecessorArgs_below (fuel : nat) (V r : SILValue) :
  stripSinglePredecessorArgs G fuel V = Done r -> below rank r V.
Proof.
  intros H.
  destruct (while_true_inv (stripSinglePredecessorArgs_body G)
              (fun W => below rank W V)) with (fuel := fuel) (V := V) (r := r)
    as (V' & HV' & Hret); auto using below_refl.
  - intros W W' HW Hc. eapply below_trans; [|exact HW].
    right. apply rank_incoming. eapply stripSinglePredecessorArgs_body_continue; eauto.
  - apply stripSinglePredecessorArgs_body_return in Hret as ->. exact HV'.
Qed.

Lemma stripSinglePredecessorArgs_terminates (fuel : nat) (V : SILValue) :
  rank V < fuel -> stripSinglePredecessorArgs G fuel V <> OutOfFuel.
Proof.
  intros H.
  apply (while_true_terminates _ rank (S (rank V))); auto; try lia.
  - intros W _. unfold stripSinglePredecessorArgs_body.
    destruct (isa_SILArgument (getKind (node G W))); simpl; [|discriminate].
    destruct (getSinglePredecessorBlock (block G (getParent (node G W))))
      as [Pred|]; [|discriminate].
    destruct (getTerminator (block G Pred)) as [d a|c t ta f fa| | | |];
      try discriminate.
    + destruct (a !! getIndex (node G W)); discriminate.
    + unfold getArgForDestBB.
      repeat match goal with
             | |- context [if ?b then _ else _] => destruct b
             | |- context [match ?l !! ?i with _ => _ end] => destruct (l !! i)
             end; simpl; discriminate.
  - intros W W' Hc. apply rank_incoming.
    eapply stripSinglePredecessorArgs_body_continue; eauto.
Qed.

(** *** The peeling loops *)

Section Peel.

Variable pre : SILValue -> Outcome SILValue.
Variable strips : SILValue -> bool.

Hypothesis pre_below : forall V r, pre V = Done r -> below rank r V.
Hypothesis pre_fixed : forall V r, pre V = Done r -> pre r = Done r.

Lemma peel_body_continue (V V' : SILValue) :
  peel_body G pre strips V = Done (Continue V') -> rank V' < rank V.
Proof.
  unfold peel_body. intros H.
  destruct (pre V) as [W| |] eqn:HW; simpl in H; try discriminate.
  destruct (strips W); [|discriminate].
  destruct (operand0 G W) as [X| |] eqn:HX; simpl in H; try discriminate.
  injection H as ->.
  apply pre_below, below_le in HW.
  apply operand0_edge, rank_operands in HX. lia.
Qed.

Lemma peel_body_return (V r : SILValue) :
  peel_body G pre strips V = Done (Return r) ->
  pre V = Done r /\ strips r = false.
Proof.
  unfold peel_body. intros H.
  destruct (pre V) as [W| |] eqn:HW; simpl in H; try discriminate.
  destruct (strips W) eqn:HS.
  - destruct (operand0 G W); discriminate.
  - injection H as ->. auto.
Qed.

Lemma peel_result (fuel : nat) (V r : SILValue) :
  while_true (peel_body G pre strips) fuel V = Done r ->
  pre r = Done r /\ strips r = false.
Proof.
  intros H. apply while_true_last in H as [V' H].
  apply peel_body_return in H as [H1 H2]. split; [|exact H2].
  eapply pre_fixed; eauto.
Qed.

Lemma peel_fixed (fuel fuel' : nat) (V r : SILValue) :
  while_true (peel_body G pre strips) fuel V = Done r ->
  while_true (peel_body G pre strips) (S fuel') r = Done r.
Proof.
  intros H. apply peel_result in H as [H1 H2].
  apply while_true_return. unfold peel_body. rewrite H1. simpl.
  rewrite H2. reflexivity.
Qed.

Lemma peel_below (fuel : nat) (V r : SILValue) :
  while_true (peel_body G pre strips) fuel V = Done r -> below rank r V.
Proof.
  intros H.
  destruct (while_true_inv (peel_body G pre strips)
              (fun W => below rank W V)) with (fuel := fuel) (V := V) (r := r)
    as (V' & HV' & Hret); auto using below_refl.
  - intros W W' HW Hc. eapply below_trans; [|exact HW].
    right. eapply peel_body_continue; eauto.
  - apply peel_body_return in Hret as [Hret _].
    eapply below_trans; [|exact HV']. eapply pre_below; eauto.
Qed.

Lemma peel_terminates (N fuel : nat) (V : SILValue) :
  (forall W, rank W < N -> pre W <> OutOfFuel) ->
  rank V < fuel -> rank V < N ->
  while_true (peel_body G pre strips) fuel V <> OutOfFuel.
Proof.
  intros Hpre Hf HN.
  apply (while_true_terminates _ rank N); auto.
  - intros W HW. unfold peel_body.
    destruct (pre W) as [X| |] eqn:HX; simpl; try discriminate.
    + destruct (strips X); [|discriminate].
      unfold operand0, getOperand.
      destruct (getOperands (node G X) !! 0); discriminate.
    + exfalso. eapply Hpre; eauto.
  - apply peel_body_continue.
Qed.

Lemma peel_not_fatal (fuel : nat) (V : SILValue) :
  (forall W, pre W <> Fatal) ->
  (forall W, strips W = true -> getOperands (node G W) <> []) ->
  while_true (peel_body G pre strips) fuel V <> Fatal.
Proof.
  intros Hpre Hops. apply while_true_not_fatal.
  intros W. unfold peel_body.
  destruct (pre W) as [X| |] eqn:HX; simpl; try discriminate.
  - destruct (strips X) eqn:HS; [|discriminate].
    unfold operand0, getOperand. apply Hops in HS.
    destruct (getOperands (node G X)) as [|o os]; [congruence|].
    simpl. discriminate.
  - exfalso. eapply Hpre; eauto.
Qed.

End Peel.

(** *** The fixed-point loops *)

Section Fixpoint_.

Variable g : SILValue -> Outcome SILValue.
Hypothesis g_below : forall V r, g V = Done r -> below rank r V.

Lemma fixpoint_body_continue (V V' : SILValue) :
  fixpoint_body g V = Done (Continue V') -> rank V' < rank V.
Proof.
  unfold fixpoint_body. intros H.
  destruct (g V) as [W| |] eqn:HW; simpl in H; try discriminate.
  destruct (Nat.eqb W V) eqn:E; [discriminate|].
  injection H as ->. apply Nat.eqb_neq in E.
  apply g_below in HW as [->|HW]; [congruence|exact HW].
Qed.

Lemma fixpoint_body_return (V r : SILValue) :
  fixpoint_body g V = Done (Return r) -> r = V /\ g r = Done r.
Proof.
  unfold fixpoint_body. intros H.
  destruct (g V) as [W| |] eqn:HW; simpl in H; try discriminate.
  destruct (Nat.eqb W V) eqn:E; [|discriminate].
  injection H as ->. apply Nat.eqb_eq in E. subst. auto.
Qed.

Lemma fixpoint_result (fuel : nat) (V r : SILValue) :
  while_true (fixpoint_body g) fuel V = Done r -> g r = Done r.
Proof.
  intros H. apply while_true_last in H as [V' H].
  apply fixpoint_body_return in H as [_ H]. exact H.
Qed.

Lemma fixpoint_fixed (fuel fuel' : nat) (V r : SILValue) :
  while_true (fixpoint_body g) fuel V = Done r ->
  while_true (fixpoint_body g) (S fuel') r = Done r.
Proof.
  intros H. apply fixpoint_result in H.
  apply while_true_return. unfold fixpoint_body. rewrite H. simpl.
  rewrite Nat.eqb_refl. reflexivity.
Qed.

Lemma fixpoint_below (fuel : nat) (V r : SILValue) :
  while_true (fixpoint_body g) fuel V = Done r -> below rank r V.
Proof.
  intros H.
  destruct (while_true_inv (fixpoint_body g)
              (fun W => below rank W V)) with (fuel := fuel) (V := V) (r := r)
    as (V' & HV' & Hret); auto using below_refl.
  - intros W W' HW Hc. eapply below_trans; [|exact HW].
    right. eapply fixpoint_body_continue; eauto.
  - apply fixpoint_body_return in Hret as [-> _]. exact HV'.
Qed.

Lemma fixpoint_terminates (N fuel : nat) (V : SILValue) :
  (forall W, rank W < N -> g W <> OutOfFuel) ->
  rank V < fuel -> rank V < N ->
  while_true (fixpoint_body g) fuel V <> OutOfFuel.
Proof.
  intros Hg Hf HN.
  apply (while_true_terminates _ rank N); auto.
  - intros W HW. unfold fixpoint_body.
    destruct (g W) as [X| |] eqn:HX; simpl; try discriminate.
    + destruct (Nat.eqb X W); discriminate.
    + exfalso. eapply Hg; eauto.
  - apply fixpoint_body_continue.
Qed.

Lemma fixpoint_not_fatal (fuel : nat) (V : SILValue) :
  (forall W, g W <> Fatal) ->
  while_true (fixpoint_body g) fuel V <> Fatal.
Proof.
  intros Hg. apply while_true_not_fatal.
  intros W. unfold fixpoint_body.
  destruct (g W) as [X| |] eqn:HX; simpl; try discriminate.
  - destruct (Nat.eqb X W); discriminate.
  - exfalso. eapply Hg; eauto.
Qed.

End Fixpoint_.

(** *** The source loops have these shapes *)

Lemma stripCastsWithoutMarkDependence_peel (fuel : nat) (V : SILValue) :
  stripCastsWithoutMarkDependence G fuel V =
  while_true (peel_body G (stripSinglePredecessorArgs G fuel)
                (strips_CastsWithoutMarkDependence G)) fuel V.
Proof. reflexivity. Qed.

Lemma stripCasts_peel (fuel : nat) (V : SILValue) :
  stripCasts G fuel V =
  while_true (peel_body G (stripSinglePredecessorArgs G fuel) (strips_Casts G))
    fuel V.
Proof. reflexivity. Qed.

Lemma stripClassCasts_peel (fuel : nat) (V : SILValue) :
  stripClassCasts G fuel V =
  while_true (peel_body G Done (strips_ClassCasts G)) fuel V.
Proof.
  apply while_true_ext. intros W.
  unfold stripClassCasts_body, peel_body, strips_ClassCasts. simpl.
  destruct (kindOf G W); reflexivity.
Qed.

Lemma stripAddressProjections_peel (fuel : nat) (V : SILValue) :
  stripAddressProjections G isAddressProjection fuel V =
  while_true (peel_body G (stripSinglePredecessorArgs G fuel)
                isAddressProjection) fuel V.
Proof.
  apply while_true_ext. intros W.
  unfold stripAddressProjections_body, peel_body.
  destruct (stripSinglePredecessorArgs G fuel W) as [X| |]; simpl; auto.
  destruct (isAddressProjection X); reflexivity.
Qed.

Lemma stripUnaryAddressProjections_peel (fuel : nat) (V : SILValue) :
  stripUnaryAddressProjections G isAddressProjection fuel V =
  while_true (peel_body G (stripSinglePredecessorArgs G fuel)
                (strips_UnaryAddressProjections G isAddressProjection)) fuel V.
Proof.
  apply while_true_ext. intros W.
  unfold stripUnaryAddressProjections_body, peel_body,
    strips_UnaryAddressProjections.
  destruct (stripSinglePredecessorArgs G fuel W) as [X| |]; simpl; auto.
  destruct (isAddressProjection X); simpl; [|reflexivity].
  destruct (Nat.ltb 1 (length (getOperands (node G X)))); reflexivity.
Qed.

Lemma stripValueProjections_peel (fuel : nat) (V : SILValue) :
  stripValueProjections G isObjectProjection fuel V =
  while_true (peel_body G (stripSinglePredecessorArgs G fuel)
                isObjectProjection) fuel V.
Proof.
  apply while_true_ext. intros W.
  unfold stripValueProjections_body, peel_body.
  destruct (stripSinglePredecessorArgs G fuel W) as [X| |]; simpl; auto.
  destruct (isObjectProjection X); reflexivity.
Qed.

Lemma stripIndexingInsts_peel (fuel : nat) (V : SILValue) :
  stripIndexingInsts G fuel V =
  while_true (peel_body G Done (strips_IndexingInsts G)) fuel V.
Proof.
  apply while_true_ext. intros W.
  unfold stripIndexingInsts_body, peel_body, strips_IndexingInsts. simpl.
  destruct (isa_IndexingInst (kindOf G W)); reflexivity.
Qed.

Lemma stripConvertFunctions_peel (fuel : nat) (V : SILValue) :
  stripConvertFunctions G fuel V =
  while_true (peel_body G Done (strips_ConvertFunctions G)) fuel V.
Proof.
  apply while_true_ext. intros W.
  unfold stripConvertFunctions_body, peel_body, strips_ConvertFunctions. simpl.
  destruct (kindOf G W); reflexivity.
Qed.

(** *** Idempotence of the peeling strippers *)

Lemma stripSinglePredecessorArgs_idem (fuel : nat) (V r : SILValue) :
  stripSinglePredecessorArgs G fuel V = Done r ->
  stripSinglePredecessorArgs G fuel r = Done r.
Proof.
  intros H. destruct (while_true_done_fuel _ _ _ _ H) as [k ->].
  eapply stripSinglePredecessorArgs_fixed; eauto.
Qed.

Lemma Done_fixed (V r : SILValue) : Done V = Done r -> Done r = Done r.
Proof. reflexivity. Qed.

Ltac peel_idem eqn pre_fix :=
  let H := fresh "H" in
  let k := fresh "k" in
  rewrite !eqn; intros H;
  destruct (while_true_done_fuel _ _ _ _ H) as [k ->];
  eapply peel_fixed; [apply pre_fix | exact H].

Lemma stripCastsWithoutMarkDependence_idem (fuel : nat) (V r : SILValue) :
  stripCastsWithoutMarkDependence G fuel V = Done r ->
  stripCastsWithoutMarkDependence G fuel r = Done r.
Proof.
  peel_idem stripCastsWithoutMarkDependence_peel
    stripSinglePredecessorArgs_idem.
Qed.

Lemma stripCasts_idem (fuel : nat) (V r : SILValue) :
  stripCasts G fuel V = Done r -> stripCasts G fuel r = Done r.
Proof. peel_idem stripCasts_peel stripSinglePredecessorArgs_idem. Qed.

Lemma stripClassCasts_idem (fuel : nat) (V r : SILValue) :
  stripClassCasts G fuel V = Done r -> stripClassCasts G fuel r = Done r.
Proof. peel_idem stripClassCasts_peel Done_fixed. Qed.

Lemma stripAddressProjections_idem (fuel : nat) (V r : SILValue) :
  stripAddressProjections G isAddressProjection fuel V = Done r ->
  stripAddressProjections G isAddressProjection fuel r = Done r.
Proof.
  peel_idem stripAddressProjections_peel stripSinglePredecessorArgs_idem.
Qed.

Lemma stripUnaryAddressProjections_idem (fuel : nat) (V r : SILValue) :
  stripUnaryAddressProjections G isAddressProjection fuel V = Done r ->
  stripUnaryAddressProjections G isAddressProjection fuel r = Done r.
Proof.
  peel_idem stripUnaryAddressProjections_peel stripSinglePredecessorArgs_idem.
Qed.

Lemma stripValueProjections_idem (fuel : nat) (V r : SILValue) :
  stripValueProjections G isObjectProjection fuel V = Done r ->
  stripValueProjections G isObjectProjection fuel r = Done r.
Proof.
  peel_idem stripValueProjections_peel stripSinglePredecessorArgs_idem.
Qed.

Lemma stripIndexingInsts_idem (fuel : nat) (V r : SILValue) :
  stripIndexingInsts G fuel V = Done r -> stripIndexingInsts G fuel r = Done r.
Proof. peel_idem stripIndexingInsts_peel Done_fixed. Qed.

Lemma stripConvertFunctions_idem (fuel : nat) (V r : SILValue) :
  stripConvertFunctions G fuel V = Done r ->
  stripConvertFunctions G fuel r = Done r.
Proof. peel_idem stripConvertFunctions_peel Done_fixed. Qed.

(** What the results of the strippers are not. *)
Lemma stripAddressProjections_result (fuel : nat) (V r : SILValue) :
  stripAddressProjections G isAddressProjection fuel V = Done r ->
  isAddressProjection r = false.
Proof.
  rewrite stripAddressProjections_peel. intros H.
  eapply peel_result in H; [apply H|apply stripSinglePredecessorArgs_idem].
Qed.

Lemma stripIndexingInsts_result (fuel : nat) (V r : SILValue) :
  stripIndexingInsts G fuel V = Done r ->
  isa_IndexingInst (kindOf G r) = false.
Proof.
  rewrite stripIndexingInsts_peel. intros H.
  eapply peel_result in H; [apply H|apply Done_fixed].
Qed.

(** *** Descent and termination of the peeling strippers *)

Lemma Done_below (V r : SILValue) : Done V = Done r -> below rank r V.
Proof. intros [= ->]. apply below_refl. Qed.

Lemma Done_not_OutOfFuel (N : nat) (W : SILValue) :
  rank W < N -> Done W <> @OutOfFuel SILValue.
Proof. discriminate. Qed.

Lemma stripSinglePredecessorArgs_terminates' (fuel : nat) (W : SILValue) :
  rank W < fuel -> stripSinglePredecessorArgs G fuel W <> OutOfFuel.
Proof. apply stripSinglePredecessorArgs_terminates. Qed.

Ltac peel_below eqn pre_bel :=
  rewrite eqn; apply peel_below; intros ? ?; apply pre_bel.

Ltac peel_term eqn pre_bel pre_term n :=
  let H := fresh "H" in
  rewrite eqn; intros H;
  apply (peel_terminates _ _ pre_bel n); [apply pre_term | exact H | exact H].

Lemma stripCastsWithoutMarkDependence_below (fuel : nat) (V r : SILValue) :
  stripCastsWithoutMarkDependence G fuel V = Done r -> below rank r V.
Proof.
  peel_below stripCastsWithoutMarkDependence_peel
    stripSinglePredecessorArgs_below.
Qed.

Lemma stripCasts_below (fuel : nat) (V r : SILValue) :
  stripCasts G fuel V = Done r -> below rank r V.
Proof. peel_below stripCasts_peel stripSinglePredecessorArgs_below. Qed.

Lemma stripAddressProjections_below (fuel : nat) (V r : SILValue) :
  stripAddressProjections G isAddressProjection fuel V = Done r ->
  below rank r V.
Proof.
  peel_below stripAddressProjections_peel stripSinglePredecessorArgs_below.
Qed.

Lemma stripIndexingInsts_below (fuel : nat) (V r : SILValue) :
  stripIndexingInsts G fuel V = Done r -> below rank r V.
Proof. peel_below stripIndexingInsts_peel Done_below. Qed.

Lemma stripCastsWithoutMarkDependence_terminates (fuel : nat) (V : SILValue) :
  rank V < fuel -> stripCastsWithoutMarkDependence G fuel V <> OutOfFuel.
Proof.
  peel_term stripCastsWithoutMarkDependence_peel
    (stripSinglePredecessorArgs_below fuel)
    stripSinglePredecessorArgs_terminates' fuel.
Qed.

Lemma stripCasts_terminates (fuel : nat) (V : SILValue) :
  rank V < fuel -> stripCasts G fuel V <> OutOfFuel.
Proof.
  peel_term stripCasts_peel (stripSinglePredecessorArgs_below fuel)
    stripSinglePredecessorArgs_terminates' fuel.
Qed.

Lemma stripClassCasts_terminates (fuel : nat) (V : SILValue) :
  rank V < fuel -> stripClassCasts G fuel V <> OutOfFuel.
Proof.
  peel_term stripClassCasts_peel Done_below (Done_not_OutOfFuel fuel) fuel.
Qed.

Lemma stripAddressProjections_terminates (fuel : nat) (V : SILValue) :
  rank V < fuel ->
  stripAddressProjections G isAddressProjection fuel V <> OutOfFuel.
Proof.
  peel_term stripAddressProjections_peel
    (stripSinglePredecessorArgs_below fuel)
    stripSinglePredecessorArgs_terminates' fuel.
Qed.

Lemma stripUnaryAddressProjections_terminates (fuel : nat) (V : SILValue) :
  rank V < fuel ->
  stripUnaryAddressProjections G isAddressProjection fuel V <> OutOfFuel.
Proof.
  peel_term stripUnaryAddressProjections_peel
    (stripSinglePredecessorArgs_below fuel)
    stripSinglePredecessorArgs_terminates' fuel.
Qed.

Lemma stripValueProjections_terminates (fuel : nat) (V : SILValue) :
  rank V < fuel ->
  stripValueProjections G isObjectProjection fuel V <> OutOfFuel.
Proof.
  peel_term stripValueProjections_peel
    (stripSinglePredecessorArgs_below fuel)
    stripSinglePredecessorArgs_terminates' fuel.
Qed.

Lemma stripIndexingInsts_terminates (fuel : nat) (V : SILValue) :
  rank V < fuel -> stripIndexingInsts G fuel V <> OutOfFuel.
Proof.
  peel_term stripIndexingInsts_peel Done_below (Done_not_OutOfFuel fuel) fuel.
Qed.

Lemma stripConvertFunctions_terminates (fuel : nat) (V : SILValue) :
  rank V < fuel -> stripConvertFunctions G fuel V <> OutOfFuel.
Proof.
  peel_term stripConvertFunctions_peel Done_below (Done_not_OutOfFuel fuel) fuel.
Qed.

(** *** stripUpCasts *)

Lemma stripUpCasts_body_return (fuel : nat) (V r : SILValue) :
  stripUpCasts_body G fuel V = Done (Return r) ->
  r = V /\ stripUpCasts_body G fuel r = Done (Return r).
Proof.
  unfold stripUpCasts_body. intros H.
  destruct (kindOf G V) eqn:K;
    try (injection H as <-; rewrite K; auto).
  destruct (operand0 G V) as [op| |]; simpl in H; try discriminate.
  destruct (stripSinglePredecessorArgs G fuel op); discriminate.
Qed.

Lemma stripUpCasts_body_continue (fuel : nat) (V V' : SILValue) :
  stripUpCasts_body G fuel V = Done (Continue V') ->
  exists op, operand0 G V = Done op /\
             stripSinglePredecessorArgs G fuel op = Done V'.
Proof.
  unfold stripUpCasts_body. intros H.
  destruct (kindOf G V); try discriminate.
  destruct (operand0 G V) as [op| |]; simpl in H; try discriminate.
  destruct (stripSinglePredecessorArgs G fuel op) as [W| |] eqn:HW;
    simpl in H; try discriminate.
  injection H as ->. eauto.
Qed.

Lemma stripUpCasts_idem (fuel : nat) (V r : SILValue) :
  stripUpCasts G fuel V = Done r ->
  isClassOrClassMetatype (getType (node G r)) = true ->
  stripUpCasts G fuel r = Done r.
Proof.
  unfold stripUpCasts. intros H Hclass. rewrite Hclass. simpl.
  destruct (negb (isClassOrClassMetatype (getType (node G V))));
    [discriminate|].
  destruct (stripSinglePredecessorArgs G fuel V) as [W| |] eqn:HW;
    simpl in H; try discriminate.
  destruct (while_true_inv (stripUpCasts_body G fuel)
              (fun X => stripSinglePredecessorArgs G fuel X = Done X))
    with (fuel := fuel) (V := W) (r := r) as (V' & HV' & Hret); auto.
  - intros X X' _ Hc. apply stripUpCasts_body_continue in Hc as (op & _ & Hc).
    eapply stripSinglePredecessorArgs_idem; eauto.
  - eapply stripSinglePredecessorArgs_idem; eauto.
  - apply stripUpCasts_body_return in Hret as [-> Hret].
    rewrite HV'. simpl.
    destruct (while_true_done_fuel _ _ _ _ H) as [k ->].
    apply while_true_return. exact Hret.
Qed.

Lemma stripUpCasts_terminates (fuel : nat) (V : SILValue) :
  rank V < fuel -> stripUpCasts G fuel V <> OutOfFuel.
Proof.
  unfold stripUpCasts. intros Hf.
  destruct (negb (isClassOrClassMetatype (getType (node G V))));
    [discriminate|].
  destruct (stripSinglePredecessorArgs G fuel V) as [W| |] eqn:HW; simpl;
    try discriminate.
  - apply stripSinglePredecessorArgs_below, below_le in HW.
    apply (while_true_terminates _ rank fuel); try lia.
    + intros X HX. unfold stripUpCasts_body.
      destruct (kindOf G X); try discriminate.
      destruct (operand0 G X) as [op| |] eqn:Hop; simpl; try discriminate;
        [|exfalso; revert Hop; apply operand0_terminates].
      apply operand0_edge, rank_operands in Hop.
      destruct (stripSinglePredecessorArgs G fuel op) as [Y| |] eqn:HY;
        simpl; try discriminate.
      exfalso. eapply stripSinglePredecessorArgs_terminates; [|exact HY]. lia.
    + intros X X' Hc.
      apply stripUpCasts_body_continue in Hc as (op & Hop & Hc).
      apply operand0_edge, rank_operands in Hop.
      apply stripSinglePredecessorArgs_below, below_le in Hc. lia.
  - exfalso. eapply stripSinglePredecessorArgs_terminates; eauto.
Qed.

(** *** The getUnderlyingObject family *)

Lemma getUnderlyingObject_fixpoint (fuel : nat) (V : SILValue) :
  getUnderlyingObject G isAddressProjection fuel V =
  while_true (fixpoint_body (getUnderlyingObject_step G isAddressProjection fuel))
    fuel V.
Proof.
  apply while_true_ext. intros W.
  unfold getUnderlyingObject_body, fixpoint_body, getUnderlyingObject_step.
  destruct (stripCasts G fuel W) as [V0| |]; simpl; auto.
  destruct (stripAddressProjections G isAddressProjection fuel V0) as [V1| |];
    simpl; auto.
Qed.

Lemma getUnderlyingAddressRoot_fixpoint (fuel : nat) (V : SILValue) :
  getUnderlyingAddressRoot G fuel V =
  while_true (fixpoint_body (getUnderlyingAddressRoot_step G fuel)) fuel V.
Proof.
  apply while_true_ext. intros W.
  unfold getUnderlyingAddressRoot_body, fixpoint_body,
    getUnderlyingAddressRoot_step.
  destruct (stripCasts G fuel W) as [V0| |]; simpl; auto.
  destruct (stripIndexingInsts G fuel V0) as [V1| |]; simpl; auto.
Qed.

Lemma getUnderlyingObjectStopAtMarkDependence_fixpoint (fuel : nat)
    (V : SILValue) :
  getUnderlyingObjectStopAtMarkDependence G isAddressProjection fuel V =
  while_true (fixpoint_body
                (getUnderlyingObjectStopAtMarkDependence_step G
                   isAddressProjection fuel)) fuel V.
Proof.
  apply while_true_ext. intros W.
  unfold getUnderlyingObjectStopAtMarkDependence_body, fixpoint_body,
    getUnderlyingObjectStopAtMarkDependence_step.
  destruct (stripCastsWithoutMarkDependence G fuel W) as [V0| |]; simpl; auto.
  destruct (stripAddressProjections G isAddressProjection fuel V0) as [V1| |];
    simpl; auto.
Qed.

Ltac fixpoint_idem eqn :=
  let H := fresh "H" in
  let k := fresh "k" in
  rewrite !eqn; intros H;
  destruct (while_true_done_fuel _ _ _ _ H) as [k ->];
  eapply fixpoint_fixed; exact H.

Lemma getUnderlyingObject_idem (fuel : nat) (V r : SILValue) :
  getUnderlyingObject G isAddressProjection fuel V = Done r ->
  getUnderlyingObject G isAddressProjection fuel r = Done r.
Proof. fixpoint_idem getUnderlyingObject_fixpoint. Qed.

Lemma getUnderlyingAddressRoot_idem (fuel : nat) (V r : SILValue) :
  getUnderlyingAddressRoot G fuel V = Done r ->
  getUnderlyingAddressRoot G fuel r = Done r.
Proof. fixpoint_idem getUnderlyingAddressRoot_fixpoint. Qed.

Lemma getUnderlyingObjectStopAtMarkDependence_idem (fuel : nat)
    (V r : SILValue) :
  getUnderlyingObjectStopAtMarkDependence G isAddressProjection fuel V = Done r ->
  getUnderlyingObjectStopAtMarkDependence G isAddressProjection fuel r = Done r.
Proof. fixpoint_idem getUnderlyingObjectStopAtMarkDependence_fixpoint. Qed.

Lemma getUnderlyingObject_step_parts (fuel : nat) (V r : SILValue) :
  getUnderlyingObject_step G isAddressProjection fuel V = Done r ->
  exists V0 V1,
    stripCasts G fuel V = Done V0 /\
    stripAddressProjections G isAddressProjection fuel V0 = Done V1 /\
    stripIndexingInsts G fuel V1 = Done r.
Proof.
  unfold getUnderlyingObject_step. intros H.
  destruct (stripCasts G fuel V) as [V0| |]; simpl in H; try discriminate.
  destruct (stripAddressProjections G isAddressProjection fuel V0)
    as [V1| |] eqn:H1; simpl in H; try discriminate.
  eauto.
Qed.

Lemma getUnderlyingObject_step_below (fuel : nat) (V r : SILValue) :
  getUnderlyingObject_step G isAddressProjection fuel V = Done r ->
  below rank r V.
Proof.
  intros H. apply getUnderlyingObject_step_parts in H as (V0 & V1 & H0 & H1 & H2).
  apply stripCasts_below in H0. apply stripAddressProjections_below in H1.
  apply stripIndexingInsts_below in H2.
  eauto using below_trans.
Qed.

Lemma getUnderlyingObject_step_terminates (fuel : nat) (V : SILValue) :
  rank V < fuel ->
  getUnderlyingObject_step G isAddressProjection fuel V <> OutOfFuel.
Proof.
  intros Hf. unfold getUnderlyingObject_step.
  destruct (stripCasts G fuel V) as [V0| |] eqn:H0; simpl; try discriminate.
  - apply stripCasts_below, below_le in H0.
    destruct (stripAddressProjections G isAddressProjection fuel V0)
      as [V1| |] eqn:H1; simpl; try discriminate.
    + apply stripAddressProjections_below, below_le in H1.
      apply stripIndexingInsts_terminates. lia.
    + exfalso. eapply stripAddressProjections_terminates; [|exact H1]. lia.
  - exfalso. eapply stripCasts_terminates; eauto.
Qed.

Lemma getUnderlyingObjectStopAtMarkDependence_step_below (fuel : nat)
    (V r : SILValue) :
  getUnderlyingObjectStopAtMarkDependence_step G isAddressProjection fuel V
    = Done r ->
  below rank r V.
Proof.
  unfold getUnderlyingObjectStopAtMarkDependence_step. intros H.
  destruct (stripCastsWithoutMarkDependence G fuel V) as [V0| |] eqn:H0;
    simpl in H; try discriminate.
  destruct (stripAddressProjections G isAddressProjection fuel V0)
    as [V1| |] eqn:H1; simpl in H; try discriminate.
  apply stripCastsWithoutMarkDependence_below in H0.
  apply stripAddressProjections_below in H1.
  apply stripIndexingInsts_below in H.
  eauto using below_trans.
Qed.

Lemma getUnderlyingObjectStopAtMarkDependence_step_terminates (fuel : nat)
    (V : SILValue) :
  rank V < fuel ->
  getUnderlyingObjectStopAtMarkDependence_step G isAddressProjection fuel V
    <> OutOfFuel.
Proof.
  intros Hf. unfold getUnderlyingObjectStopAtMarkDependence_step.
  destruct (stripCastsWithoutMarkDependence G fuel V) as [V0| |] eqn:H0;
    simpl; try discriminate.
  - apply stripCastsWithoutMarkDependence_below, below_le in H0.
    destruct (stripAddressProjections G isAddressProjection fuel V0)
      as [V1| |] eqn:H1; simpl; try discriminate.
    + apply stripAddressProjections_below, below_le in H1.
      apply stripIndexingInsts_terminates. lia.
    + exfalso. eapply stripAddressProjections_terminates; [|exact H1]. lia.
  - exfalso. eapply stripCastsWithoutMarkDependence_terminates; eauto.
Qed.

Lemma getUnderlyingAddressRoot_step_below (fuel : nat) (V r : SILValue) :
  getUnderlyingAddressRoot_step G fuel V = Done r -> below rank r V.
Proof.
  unfold getUnderlyingAddressRoot_step. intros H.
  destruct (stripCasts G fuel V) as [V0| |] eqn:H0; simpl in H;
    try discriminate.
  destruct (stripIndexingInsts G fuel V0) as [V1| |] eqn:H1; simpl in H;
    try discriminate.
  apply stripCasts_below in H0. apply stripIndexingInsts_below in H1.
  assert (below rank r V1) as H2.
  { destruct (kindOf G V1);
      try (injection H as <-; apply below_refl);
      right; apply rank_operands, operand0_edge, H. }
  eauto using below_trans.
Qed.

Lemma getUnderlyingAddressRoot_step_terminates (fuel : nat) (V : SILValue) :
  rank V < fuel -> getUnderlyingAddressRoot_step G fuel V <> OutOfFuel.
Proof.
  intros Hf. unfold getUnderlyingAddressRoot_step.
  destruct (stripCasts G fuel V) as [V0| |] eqn:H0; simpl; try discriminate.
  - apply stripCasts_below, below_le in H0.
    destruct (stripIndexingInsts G fuel V0) as [V1| |] eqn:H1; simpl;
      try discriminate.
    + unfold operand0, getOperand.
      destruct (kindOf G V1); try discriminate;
        destruct (getOperands (node G V1) !! 0); discriminate.
    + exfalso. eapply stripIndexingInsts_terminates; [|exact H1]. lia.
  - exfalso. eapply stripCasts_terminates; eauto.
Qed.

Lemma getUnderlyingObject_terminates (fuel : nat) (V : SILValue) :
  rank V < fuel ->
  getUnderlyingObject G isAddressProjection fuel V <> OutOfFuel.
Proof.
  intros Hf. rewrite getUnderlyingObject_fixpoint.
  apply (fixpoint_terminates _ (getUnderlyingObject_step_below fuel) fuel);
    auto using getUnderlyingObject_step_terminates.
Qed.

Lemma getUnderlyingAddressRoot_terminates (fuel : nat) (V : SILValue) :
  rank V < fuel -> getUnderlyingAddressRoot G fuel V <> OutOfFuel.
Proof.
  intros Hf. rewrite getUnderlyingAddressRoot_fixpoint.
  apply (fixpoint_terminates _ (getUnderlyingAddressRoot_step_below fuel) fuel);
    auto using getUnderlyingAddressRoot_step_terminates.
Qed.

Lemma getUnderlyingObjectStopAtMarkDependence_terminates (fuel : nat)
    (V : SILValue) :
  rank V < fuel ->
  getUnderlyingObjectStopAtMarkDependence G isAddressProjection fuel V
    <> OutOfFuel.
Proof.
  intros Hf. rewrite getUnderlyingObjectStopAtMarkDependence_fixpoint.
  apply (fixpoint_terminates _
           (getUnderlyingObjectStopAtMarkDependence_step_below fuel) fuel);
    auto using getUnderlyingObjectStopAtMarkDependence_step_terminates.
Qed.

End Ranked.

(** *** No fatal outcome on well-formed IR *)

Section WellFormed.

Hypothesis Hwf :
  wellFormed G (fun V => isAddressProjection V || isObjectProjection V).

Lemma wf_operands (W : SILValue) :
  isUnaryKind (kindOf G W) || (isAddressProjection W || isObjectProjection W)
    = true ->
  getOperands (node G W) <> [].
Proof. intros H. apply (Hwf W). exact H. Qed.

Lemma getOperand_lt (N : SILNode) (i : nat) :
  i < length (getOperands N) -> getOperand N i <> Fatal.
Proof.
  intros H. unfold getOperand.
  destruct (lookup_lt_is_Some_2 _ _ H) as [x ->]. discriminate.
Qed.

Lemma stripSinglePredecessorArgs_not_fatal (fuel : nat) (V : SILValue) :
  stripSinglePredecessorArgs G fuel V <> Fatal.
Proof.
  apply while_true_not_fatal. intros W.
  pose proof (proj1 (Hwf W)) as Hok.
  unfold argumentOk in Hok. unfold stripSinglePredecessorArgs_body.
  destruct (isa_SILArgument (getKind (node G W))); simpl; [|discriminate].
  destruct (getSinglePredecessorBlock (block G (getParent (node G W))))
    as [Pred|]; [|discriminate].
  destruct (getTerminator (block G Pred)) as [d a|c t ta f fa| | | |];
    try discriminate.
  - apply Nat.ltb_lt in Hok.
    destruct (lookup_lt_is_Some_2 _ _ Hok) as [x ->]. discriminate.
  - unfold getArgForDestBB.
    destruct (Nat.eqb t f).
    + rewrite Hok. simpl. discriminate.
    + destruct (Nat.eqb (getParent (node G W)) t).
      * apply Nat.ltb_lt in Hok.
        destruct (lookup_lt_is_Some_2 _ _ Hok) as [x ->]. discriminate.
      * apply andb_true_iff in Hok as [Hf Hok]. rewrite Hf.
        apply Nat.ltb_lt in Hok.
        destruct (lookup_lt_is_Some_2 _ _ Hok) as [x ->]. discriminate.
Qed.

Lemma Done_not_fatal (W : SILValue) : Done W <> @Fatal SILValue.
Proof. discriminate. Qed.

Ltac peel_nf eqn pre_nf :=
  let W := fresh "W" in
  let H := fresh "H" in
  rewrite eqn; apply peel_not_fatal; [intros W; apply pre_nf|];
  intros W H; apply wf_operands;
  unfold strips_CastsWithoutMarkDependence, strips_Casts, strips_ClassCasts,
    strips_IndexingInsts, strips_ConvertFunctions in H;
  try (rewrite H; rewrite ?orb_true_r; reflexivity);
  try (destruct (kindOf G W); try discriminate H; reflexivity).

Lemma stripCastsWithoutMarkDependence_not_fatal (fuel : nat) (V : SILValue) :
  stripCastsWithoutMarkDependence G fuel V <> Fatal.
Proof.
  peel_nf stripCastsWithoutMarkDependence_peel
    stripSinglePredecessorArgs_not_fatal.
Qed.

Lemma stripCasts_not_fatal (fuel : nat) (V : SILValue) :
  stripCasts G fuel V <> Fatal.
Proof.
  peel_nf stripCasts_peel stripSinglePredecessorArgs_not_fatal.
Qed.

Lemma stripClassCasts_not_fatal (fuel : nat) (V : SILValue) :
  stripClassCasts G fuel V <> Fatal.
Proof. peel_nf stripClassCasts_peel Done_not_fatal. Qed.

Lemma stripAddressProjections_not_fatal (fuel : nat) (V : SILValue) :
  stripAddressProjections G isAddressProjection fuel V <> Fatal.
Proof.
  peel_nf stripAddressProjections_peel stripSinglePredecessorArgs_not_fatal.
Qed.

Lemma stripUnaryAddressProjections_not_fatal (fuel : nat) (V : SILValue) :
  stripUnaryAddressProjections G isAddressProjection fuel V <> Fatal.
Proof.
  rewrite stripUnaryAddressProjections_peel. apply peel_not_fatal.
  - intros W. apply stripSinglePredecessorArgs_not_fatal.
  - intros W H. apply wf_operands.
    unfold strips_UnaryAddressProjections in H.
    apply andb_true_iff in H as [-> _]. rewrite orb_true_r. reflexivity.
Qed.

Lemma stripValueProjections_not_fatal (fuel : nat) (V : SILValue) :
  stripValueProjections G isObjectProjection fuel V <> Fatal.
Proof.
  peel_nf stripValueProjections_peel stripSinglePredecessorArgs_not_fatal.
Qed.

Lemma stripIndexingInsts_not_fatal (fuel : nat) (V : SILValue) :
  stripIndexingInsts G fuel V <> Fatal.
Proof. peel_nf stripIndexingInsts_peel Done_not_fatal. Qed.

Lemma stripConvertFunctions_not_fatal (fuel : nat) (V : SILValue) :
  stripConvertFunctions G fuel V <> Fatal.
Proof.
  peel_nf stripConvertFunctions_peel Done_not_fatal.
Qed.

Lemma getUnderlyingObject_not_fatal (fuel : nat) (V : SILValue) :
  getUnderlyingObject G isAddressProjection fuel V <> Fatal.
Proof.
  rewrite getUnderlyingObject_fixpoint. apply fixpoint_not_fatal.
  intros W. unfold getUnderlyingObject_step.
  destruct (stripCasts G fuel W) as [V0| |] eqn:H0; simpl; try discriminate.
  - destruct (stripAddressProjections G isAddressProjection fuel V0)
      as [V1| |] eqn:H1; simpl; try discriminate.
    + apply stripIndexingInsts_not_fatal.
    + exfalso. eapply stripAddressProjections_not_fatal; eauto.
  - exfalso. eapply stripCasts_not_fatal; eauto.
Qed.

Lemma getUnderlyingObjectStopAtMarkDependence_not_fatal (fuel : nat)
    (V : SILValue) :
  getUnderlyingObjectStopAtMarkDependence G isAddressProjection fuel V
    <> Fatal.
Proof.
  rewrite getUnderlyingObjectStopAtMarkDependence_fixpoint.
  apply fixpoint_not_fatal.
  intros W. unfold getUnderlyingObjectStopAtMarkDependence_step.
  destruct (stripCastsWithoutMarkDependence G fuel W) as [V0| |] eqn:H0;
    simpl; try discriminate.
  - destruct (stripAddressProjections G isAddressProjection fuel V0)
      as [V1| |] eqn:H1; simpl; try discriminate.
    + apply stripIndexingInsts_not_fatal.
    + exfalso. eapply stripAddressProjections_not_fatal; eauto.
  - exfalso. eapply stripCastsWithoutMarkDependence_not_fatal; eauto.
Qed.

Lemma getUnderlyingAddressRoot_not_fatal (fuel : nat) (V : SILValue) :
  getUnderlyingAddressRoot G fuel V <> Fatal.
Proof.
  rewrite getUnderlyingAddressRoot_fixpoint. apply fixpoint_not_fatal.
  intros W. unfold getUnderlyingAddressRoot_step.
  destruct (stripCasts G fuel W) as [V0| |] eqn:H0; simpl; try discriminate.
  - destruct (stripIndexingInsts G fuel V0) as [V1| |] eqn:H1; simpl;
      try discriminate.
    + destruct (kindOf G V1) eqn:K; try discriminate;
        apply getOperand_lt;
        (assert (getOperands (node G V1) <> []) as Hne
          by (apply wf_operands; rewrite K; reflexivity));
        (destruct (getOperands (node G V1)); [congruence|simpl; lia]).
    + exfalso. eapply stripIndexingInsts_not_fatal; eauto.
  - exfalso. eapply stripCasts_not_fatal; eauto.
Qed.

End WellFormed.

End CanonicalizerFacts.

(** * Properties of the formal access root resolver *)

Section AccessRootFacts.

Variable G : SILGraph.

Lemma findAccessedAddressBase_at_base (fuel : nat) (base : SILValue) :
  isFormalAccessBaseKind (getKind (node G base)) = true ->
  findAccessedAddressBase G (S fuel) base = Done (Some base).
Proof.
  intros H. apply while_true_return. unfold findAccessedAddressBase_body.
  destruct (getKind (node G base)); try discriminate H; reflexivity.
Qed.

Lemma findAccessedAddressBase_at_projection (fuel : nat) (V W : SILValue) :
  isSubobjectProjection (getKind (node G V)) = true ->
  getOperands (node G V) !! 0 = Some W ->
  findAccessedAddressBase G (S fuel) V = findAccessedAddressBase G fuel W.
Proof.
  intros H Hop. apply while_true_continue. unfold findAccessedAddressBase_body.
  unfold getOperand. rewrite Hop.
  destruct (getKind (node G V)); try discriminate H; reflexivity.
Qed.

Lemma findAccessedAddressBase_body_continue (V V' : SILValue) :
  findAccessedAddressBase_body G V = Done (Continue V') ->
  V' ∈ operandsOf G V.
Proof.
  unfold findAccessedAddressBase_body, getOperand, operandsOf. intros H.
  destruct (getOperands (node G V) !! 0) as [op|] eqn:Hop.
  - assert (V' = op) as ->.
    { destruct (getKind (node G V)); simpl in H; try discriminate H;
        try (injection H as <-; reflexivity).
      destruct (isAddress (getType (node G V))); [discriminate|].
      destruct (getSinglePredecessorBlock _); [|discriminate].
      destruct (getTerminator _); discriminate. }
    eapply list_elem_of_lookup_2; eauto.
  - exfalso.
    destruct (getKind (node G V)); simpl in H; try discriminate H.
    destruct (isAddress (getType (node G V))); [discriminate|].
    destruct (getSinglePredecessorBlock _); [|discriminate].
    destruct (getTerminator _); discriminate.
Qed.

Lemma findAccessedAddressBase_terminates (rank : SILValue -> nat)
    (fuel : nat) (V : SILValue) :
  descendsAlong (operandsOf G) rank -> rank V < fuel ->
  findAccessedAddressBase G fuel V <> OutOfFuel.
Proof.
  intros Hdesc Hf.
  apply (while_true_terminates _ rank (S (rank V))); auto.
  - intros W _. unfold findAccessedAddressBase_body, getOperand.
    destruct (getKind (node G W)); try discriminate;
      try (destruct (getOperands (node G W) !! 0); discriminate).
    destruct (isAddress (getType (node G W))); [discriminate|].
    destruct (getSinglePredecessorBlock _); [|discriminate].
    destruct (getTerminator _); discriminate.
  - intros W W' Hc. apply Hdesc.
    apply findAccessedAddressBase_body_continue. exact Hc.
Qed.

(** C1.  An address formed by a chain of [N] subobject projections and
    indexing instructions (struct field address, tuple element address,
    enum payload address, index) over a base of a formal access, such as a
    stack allocation, has that base as the result of
    [findAccessedAddressBase], whatever the length of the chain: every
    projection is replaced by its operand 0 and the loop returns at the
    base. *)
Theorem findAccessedAddressBase_projection_chain
    (N : nat) (V base : SILValue) (fuel : nat) :
  ProjectionChain G N V base ->
  N < fuel ->
  findAccessedAddressBase G fuel V = Done (Some base).
Proof.
  intros Hchain. revert fuel.
  induction Hchain as [base Hbase|N V W base Hproj Hop Hchain IH];
    intros fuel Hfuel.
  - destruct fuel as [|fuel]; [lia|].
    apply findAccessedAddressBase_at_base. exact Hbase.
  - destruct fuel as [|fuel]; [lia|].
    rewrite (findAccessedAddressBase_at_projection fuel V W Hproj Hop).
    apply IH. lia.
Qed.

(** [isLetAccess] holds exactly of a stack slot, box or global whose
    declaration exists and is a [let]. *)
Lemma isLetAccess_spec (V : SILValue) :
  isLetAccess G V = true <->
  (getKind (node G V) = AllocStackInst \/
   getKind (node G V) = AllocBoxInst \/
   getKind (node G V) = GlobalAddrInst) /\
  declIsLet (node G V) = Some true.
Proof.
  unfold isLetAccess. split.
  - intros H.
    destruct (getKind (node G V)); try discriminate H;
      (destruct (declIsLet (node G V)) as [[|]|];
         try discriminate H; auto).
  - intros [[K|[K|K]] D]; rewrite K, D; reflexivity.
Qed.

(** C2, as amended.  [isPossibleFormalAccessBase] is false for exactly four
    classes of base: an incoming function argument, a pointer-to-address
    value, a base marked immutable (a stack allocation, box or global whose
    declaration is a [let]), and a base whose type is the unsafe value
    buffer; for every other base it is true, in particular for a mutable
    stack allocation of any other type. *)
Theorem isPossibleFormalAccessBase_spec (V : SILValue) :
  (isPossibleFormalAccessBase G V = false <->
     getKind (node G V) = SILFunctionArgument \/
     getKind (node G V) = PointerToAddressInst \/
     ((getKind (node G V) = AllocStackInst \/
       getKind (node G V) = AllocBoxInst \/
       getKind (node G V) = GlobalAddrInst) /\
      declIsLet (node G V) = Some true) \/
     getSwiftRValueType (getType (node G V)) = BuiltinUnsafeValueBufferType)
  /\ (getKind (node G V) = AllocStackInst ->
      declIsLet (node G V) <> Some true ->
      getSwiftRValueType (getType (node G V)) <> BuiltinUnsafeValueBufferType ->
      isPossibleFormalAccessBase G V = true).
Proof.
  split.
  - unfold isPossibleFormalAccessBase. split.
    + intros H.
      destruct (getKind (node G V)) eqn:K; auto;
        destruct (isLetAccess G V) eqn:L;
        try (apply isLetAccess_spec in L; rewrite K in L; auto);
        destruct (getSwiftRValueType (getType (node G V))); auto;
        discriminate H.
    + intros [K|[K|[L|T]]].
      * rewrite K. reflexivity.
      * rewrite K. reflexivity.
      * apply isLetAccess_spec in L. rewrite L.
        destruct (getKind (node G V)); reflexivity.
      * rewrite T.
        destruct (getKind (node G V)); destruct (isLetAccess G V); reflexivity.
  - intros K D T. unfold isPossibleFormalAccessBase, isLetAccess.
    rewrite K.
    destruct (declIsLet (node G V)) as [[|]|]; try congruence;
      destruct (getSwiftRValueType (getType (node G V))); congruence.
Qed.

End AccessRootFacts.

(** The chain of the specification's example, two projections deep, and a
    longer one through an [index_addr] and an enum payload projection. *)
Lemma findAccessedAddressBase_projection_chain_witness :
  ProjectionChain projectionGraph 4 5 0 /\
  findAccessedAddressBase projectionGraph 5 5 = Done (Some 0) /\
  findAccessedAddressBase projectionGraph 3 2 = Done (Some 0).
Proof.
  assert (ProjectionChain projectionGraph 2 2 0) as H2.
  { apply (chain_step projectionGraph 1 2 1 0); [reflexivity|reflexivity|].
    apply (chain_step projectionGraph 0 1 0 0); [reflexivity|reflexivity|].
    apply chain_base. reflexivity. }
  assert (ProjectionChain projectionGraph 4 5 0) as H4.
  { apply (chain_step projectionGraph 3 5 4 0); [reflexivity|reflexivity|].
    apply (chain_step projectionGraph 2 4 2 0); [reflexivity|reflexivity|].
    exact H2. }
  split; [exact H4|]. split.
  - apply (findAccessedAddressBase_projection_chain projectionGraph 4 5 0 5 H4).
    lia.
  - apply (findAccessedAddressBase_projection_chain projectionGraph 2 2 0 3 H2).
    lia.
Defined.

(** A mutable stack allocation of the unsafe value buffer type is none of
    the three classes first named -- no function argument, no
    pointer-to-address value, and its declaration is no [let] -- and yet no
    possible formal access base. *)
Lemma isPossibleFormalAccessBase_three_classes_counterexample :
  getKind (node accessBaseGraph 0) = AllocStackInst /\
  getKind (node accessBaseGraph 0) <> SILFunctionArgument /\
  getKind (node accessBaseGraph 0) <> PointerToAddressInst /\
  declIsLet (node accessBaseGraph 0) = Some false /\
  isPossibleFormalAccessBase accessBaseGraph 0 = false.
Proof. repeat split; discriminate. Qed.

(** A mutable stack slot and a mutable box are possible bases, a global
    without a declaration as well; a [let] stack slot, box or global, a
    function argument and a [pointer_to_address] are not. *)
Lemma isPossibleFormalAccessBase_spec_witness :
  isPossibleFormalAccessBase accessBaseGraph 1 = true /\
  isPossibleFormalAccessBase accessBaseGraph 2 = false /\
  isPossibleFormalAccessBase accessBaseGraph 3 = false /\
  isPossibleFormalAccessBase accessBaseGraph 5 = false /\
  isPossibleFormalAccessBase accessBaseGraph 6 = false /\
  isPossibleFormalAccessBase accessBaseGraph 7 = false /\
  isPossibleFormalAccessBase accessBaseGraph 8 = true /\
  isPossibleFormalAccessBase accessBaseGraph 9 = true.
Proof.
  split.
  - apply (proj2 (isPossibleFormalAccessBase_spec accessBaseGraph 1));
      [reflexivity|discriminate|discriminate].
  - split; [|split; [|split; [|split; [|split; [|split]]]]].
    + apply (proj1 (isPossibleFormalAccessBase_spec accessBaseGraph 2)).
      right. right. left. split; [left; reflexivity|reflexivity].
    + apply (proj1 (isPossibleFormalAccessBase_spec accessBaseGraph 3)).
      left. reflexivity.
    + apply (proj1 (isPossibleFormalAccessBase_spec accessBaseGraph 5)).
      right. left. reflexivity.
    + apply (proj1 (isPossibleFormalAccessBase_spec accessBaseGraph 6)).
      right. right. left.
      split; [right; left; reflexivity|reflexivity].
    + apply (proj1 (isPossibleFormalAccessBase_spec accessBaseGraph 7)).
      right. right. left.
      split; [right; right; reflexivity|reflexivity].
    + destruct (isPossibleFormalAccessBase accessBaseGraph 8) eqn:E;
        [reflexivity|].
      apply (proj1 (isPossibleFormalAccessBase_spec accessBaseGraph 8)) in E.
      destruct E as [K|[K|[[_ D]|T]]]; discriminate.
    + destruct (isPossibleFormalAccessBase accessBaseGraph 9) eqn:E;
        [reflexivity|].
      apply (proj1 (isPossibleFormalAccessBase_spec accessBaseGraph 9)) in E.
      destruct E as [K|[K|[[_ D]|T]]]; discriminate.
Defined.

(** * Checking the shape of a concrete graph *)

Lemma node_out_of_range (G : SILGraph) (V : SILValue) :
  length (nodes G) <= V -> node G V = undefNode.
Proof.
  intros H. unfold node. rewrite (lookup_ge_None_2 _ _ H). reflexivity.
Qed.

Lemma check_descends_sound (G : SILGraph) (rank : SILValue -> nat) :
  check_descends G rank = true -> descends G rank.
Proof.
  unfold check_descends. intros H V W HW.
  destruct (Nat.lt_ge_cases V (length (nodes G))) as [Hlt|Hge].
  - rewrite forallb_forall in H.
    assert (In V (seq 0 (length (nodes G)))) as HV
      by (apply in_seq; lia).
    apply H in HV. rewrite forallb_forall in HV.
    apply Nat.ltb_lt. apply HV. apply list_elem_of_In. exact HW.
  - exfalso. unfold edges, incomingValues in HW.
    rewrite (node_out_of_range G V Hge) in HW. simpl in HW.
    inversion HW.
Qed.

Lemma check_wellFormed_sound (G : SILGraph) (isProjection : SILValue -> bool) :
  check_wellFormed G isProjection = true ->
  (forall V, length (nodes G) <= V -> isProjection V = false) ->
  wellFormed G isProjection.
Proof.
  unfold check_wellFormed. intros H Hout V.
  destruct (Nat.lt_ge_cases V (length (nodes G))) as [Hlt|Hge].
  - rewrite forallb_forall in H.
    assert (In V (seq 0 (length (nodes G)))) as HV
      by (apply in_seq; lia).
    apply H in HV. apply andb_true_iff in HV as [Hok Hops].
    split; [exact Hok|]. intros Hk. rewrite Hk in Hops. simpl in Hops.
    destruct (getOperands (node G V)); [discriminate|discriminate].
  - unfold argumentOk. rewrite (node_out_of_range G V Hge). simpl.
    split; [reflexivity|]. rewrite (Hout V Hge). discriminate.
Qed.

Lemma Projection_isAddressProjection_out_of_range (G : SILGraph) (V : SILValue) :
  length (nodes G) <= V -> Projection_isAddressProjection G V = false.
Proof.
  intros H. unfold Projection_isAddressProjection, kindOf.
  rewrite (node_out_of_range G V H). reflexivity.
Qed.

Lemma Projection_isObjectProjection_out_of_range (G : SILGraph) (V : SILValue) :
  length (nodes G) <= V -> Projection_isObjectProjection G V = false.
Proof.
  intros H. unfold Projection_isObjectProjection, kindOf.
  rewrite (node_out_of_range G V H). reflexivity.
Qed.

Lemma wellFormed_weaken (G : SILGraph) (P Q : SILValue -> bool) :
  (forall V, Q V = true -> P V = true) ->
  wellFormed G P -> wellFormed G Q.
Proof.
  intros HPQ Hwf V. destruct (Hwf V) as [Hok Hops].
  split; [exact Hok|]. intros H. apply Hops.
  apply orb_true_iff in H as [H|H]; apply orb_true_iff; auto.
Qed.

(** * Acyclic graphs have a depth *)

Lemma maxOver_ge (f : SILValue -> nat) (l : list SILValue) (W : SILValue) :
  W ∈ l -> f W <= maxOver f l.
Proof.
  induction l as [|X l IH]; intros H; [inversion H|].
  apply elem_of_cons in H as [->|H]; simpl; [lia|].
  apply IH in H. lia.
Qed.

Lemma maxOver_witness (f : SILValue -> nat) (l : list SILValue) :
  0 < maxOver f l -> exists W, W ∈ l /\ f W = maxOver f l.
Proof.
  induction l as [|X l IH]; simpl; intros H; [lia|].
  destruct (Nat.max_spec (f X) (maxOver f l)) as [[Hlt ->]|[Hle ->]].
  - destruct IH as (W & HW & Hf); [lia|].
    exists W. split; [apply list_elem_of_further; exact HW|exact Hf].
  - exists X. split; [apply list_elem_of_here|reflexivity].
Qed.

Lemma maxOver_ext (f g : SILValue -> nat) (l : list SILValue) :
  (forall W, W ∈ l -> f W = g W) -> maxOver f l = maxOver g l.
Proof.
  induction l as [|X l IH]; intros H; [reflexivity|]. simpl.
  rewrite (H X) by apply list_elem_of_here.
  rewrite IH; [reflexivity|].
  intros W HW. apply H. apply list_elem_of_further. exact HW.
Qed.

Section Acyclic.

(** A successor function on a store of [N] nodes: handles outside the store
    have no successors. *)
Variable succ : SILValue -> list SILValue.
Variable N : nat.
Hypothesis succ_out_of_range : forall V, N <= V -> succ V = [].

Lemma walkSources_length (V : SILValue) (p : list SILValue) :
  length (walkSources V p) = length p.
Proof.
  revert V. induction p as [|W p IH]; intros V; [reflexivity|].
  simpl. rewrite IH. reflexivity.
Qed.

Lemma walkSources_reach (V x : SILValue) (p : list SILValue) :
  isWalk succ V p -> x ∈ walkSources V p -> rtc (edgeAlong succ) V x.
Proof.
  revert V. induction p as [|W p IH]; intros V Hw Hx; [inversion Hx|].
  destruct Hw as [HE Hw]. simpl in Hx.
  apply elem_of_cons in Hx as [->|Hx]; [apply rtc_refl|].
  eapply rtc_l; [exact HE|]. apply IH; assumption.
Qed.

Lemma walkSources_in_range (V x : SILValue) (p : list SILValue) :
  isWalk succ V p -> x ∈ walkSources V p -> x < N.
Proof.
  revert V. induction p as [|W p IH]; intros V Hw Hx; [inversion Hx|].
  destruct Hw as [HE Hw]. simpl in Hx.
  apply elem_of_cons in Hx as [->|Hx]; [|eapply IH; eauto].
  destruct (Nat.lt_ge_cases V N) as [Hlt|Hge]; [exact Hlt|].
  unfold edgeAlong in HE. rewrite (succ_out_of_range V Hge) in HE.
  inversion HE.
Qed.

Lemma walkSources_NoDup (V : SILValue) (p : list SILValue) :
  acyclicAlong succ -> isWalk succ V p -> NoDup (walkSources V p).
Proof.
  intros Hacyc. revert V.
  induction p as [|W p IH]; intros V Hw; [apply NoDup_nil_2|].
  destruct Hw as [HE Hw]. simpl. apply NoDup_cons. split; [|apply IH; exact Hw].
  intros Hx. apply (Hacyc V).
  eapply tc_rtc_r; [apply tc_once; exact HE|].
  eapply walkSources_reach; eauto.
Qed.

(** No walk of an acyclic graph has more edges than the store has nodes. *)
Lemma walk_length_bound (V : SILValue) (p : list SILValue) :
  acyclicAlong succ -> isWalk succ V p -> length p <= N.
Proof.
  intros Hacyc Hw.
  rewrite <- (walkSources_length V p).
  assert (length (walkSources V p) <= length (seq 0 N))
    as Hle; [|rewrite length_seq in Hle; exact Hle].
  apply submseteq_length, NoDup_submseteq.
  - apply walkSources_NoDup; assumption.
  - intros x Hx. apply elem_of_seq.
    pose proof (walkSources_in_range V x p Hw Hx). lia.
Qed.

Lemma depthUpTo_walk (n : nat) (V : SILValue) :
  exists p, length p = depthUpTo succ n V /\ isWalk succ V p.
Proof.
  revert V. induction n as [|n IH]; intros V.
  - exists []. split; [reflexivity|exact Logic.I].
  - simpl.
    destruct (Nat.eq_0_gt_0_cases
                (maxOver (fun W => S (depthUpTo succ n W)) (succ V)))
      as [E|Hpos].
    + rewrite E. exists []. split; [reflexivity|exact Logic.I].
    + destruct (maxOver_witness _ _ Hpos) as (W & HW & Hf).
      destruct (IH W) as (p & Hlen & Hp).
      exists (W :: p). split.
      * simpl. rewrite Hlen. exact Hf.
      * split; assumption.
Qed.

Lemma depthUpTo_stable (n : nat) (V : SILValue) :
  depthUpTo succ (S n) V <= n -> depthUpTo succ (S n) V = depthUpTo succ n V.
Proof.
  revert V. induction n as [|n IH]; intros V H.
  - simpl in *. lia.
  - change (depthUpTo succ (S (S n)) V)
      with (maxOver (fun W => S (depthUpTo succ (S n) W)) (succ V)) in *.
    change (depthUpTo succ (S n) V)
      with (maxOver (fun W => S (depthUpTo succ n W)) (succ V)).
    apply maxOver_ext. intros W HW. f_equal. apply IH.
    pose proof (maxOver_ge (fun W => S (depthUpTo succ (S n) W)) _ W HW)
      as Hge.
    cbv beta in Hge. lia.
Qed.

(** The depth ranks an acyclic graph: every edge goes strictly deeper. *)
Lemma acyclicAlong_descends :
  acyclicAlong succ -> descendsAlong succ (depthUpTo succ N).
Proof.
  intros Hacyc V W HW.
  assert (depthUpTo succ (S N) V <= N) as Hb.
  { destruct (depthUpTo_walk (S N) V) as (p & <- & Hp).
    eapply walk_length_bound; eauto. }
  rewrite <- (depthUpTo_stable _ V Hb).
  pose proof (maxOver_ge (fun W => S (depthUpTo succ N W)) (succ V) W HW)
    as Hge.
  cbv beta in Hge.
  change (depthUpTo succ (S N) V)
    with (maxOver (fun W => S (depthUpTo succ N W)) (succ V)).
  lia.
Qed.

Lemma depthUpTo_bound (V : SILValue) :
  acyclicAlong succ -> depthUpTo succ N V <= N.
Proof.
  intros Hacyc.
  destruct (depthUpTo_walk N V) as (p & <- & Hp).
  eapply walk_length_bound; eauto.
Qed.

(** Conversely, a graph that some rank descends is acyclic. *)
Lemma descendsAlong_acyclic (rank : SILValue -> nat) :
  descendsAlong succ rank -> acyclicAlong succ.
Proof.
  intros Hdesc V Hcyc.
  assert (forall X Y, tc (edgeAlong succ) X Y -> rank Y < rank X) as Hlt.
  { intros X Y H. induction H as [X Y H|X Y Z H _ IH].
    - apply Hdesc. exact H.
    - apply Hdesc in H. lia. }
  apply Hlt in Hcyc. lia.
Qed.

End Acyclic.

Lemma edges_out_of_range (G : SILGraph) (V : SILValue) :
  length (nodes G) <= V -> edges G V = [].
Proof.
  intros H. unfold edges, incomingValues.
  rewrite (node_out_of_range G V H). reflexivity.
Qed.

Lemma operandsOf_out_of_range (G : SILGraph) (V : SILValue) :
  length (nodes G) <= V -> operandsOf G V = [].
Proof.
  intros H. unfold operandsOf.
  rewrite (node_out_of_range G V H). reflexivity.
Qed.

Lemma acyclic_descends (G : SILGraph) :
  acyclic G -> descends G (graphDepth G).
Proof.
  apply acyclicAlong_descends. apply edges_out_of_range.
Qed.

Lemma operandAcyclic_descends (G : SILGraph) :
  operandAcyclic G -> descendsAlong (operandsOf G) (operandDepth G).
Proof.
  apply acyclicAlong_descends. apply operandsOf_out_of_range.
Qed.

Lemma graphDepth_bound (G : SILGraph) (V : SILValue) :
  acyclic G -> graphDepth G V <= length (nodes G).
Proof. apply depthUpTo_bound. apply edges_out_of_range. Qed.

Lemma operandDepth_bound (G : SILGraph) (V : SILValue) :
  operandAcyclic G -> operandDepth G V <= length (nodes G).
Proof. apply depthUpTo_bound. apply operandsOf_out_of_range. Qed.

Lemma descends_acyclic (G : SILGraph) (rank : SILValue -> nat) :
  descends G rank -> acyclic G.
Proof. apply descendsAlong_acyclic. Qed.

Lemma descends_operands (G : SILGraph) (rank : SILValue -> nat) :
  descends G rank -> descendsAlong (operandsOf G) rank.
Proof.
  intros H V W HW. apply H. unfold edges. apply elem_of_app. left. exact HW.
Qed.

Lemma descends_incoming (G : SILGraph) (rank : SILValue -> nat) :
  descends G rank -> descendsAlong (incomingValues G) rank.
Proof.
  intros H V W HW. apply H. unfold edges. apply elem_of_app. right. exact HW.
Qed.

(** * The canonicalizer: the stated properties *)

(** C3, as amended.  On a finite acyclic, well-formed graph
    [getUnderlyingObject] returns, and its result is never an address
    projection and never an indexing instruction.  (Value projections are
    not stripped by [getUnderlyingObject] and may be its result.) *)
Theorem getUnderlyingObject_not_projection_nor_index
    (G : SILGraph) (isAddressProjection : SILValue -> bool)
    (V : SILValue) (fuel : nat) :
  acyclic G ->
  wellFormed G isAddressProjection ->
  graphDepth G V < fuel ->
  exists r,
    getUnderlyingObject G isAddressProjection fuel V = Done r /\
    isAddressProjection r = false /\
    isa_IndexingInst (kindOf G r) = false.
Proof.
  intros Hacyc Hwf Hfuel.
  pose proof (acyclic_descends G Hacyc) as Hdesc.
  pose proof (descends_operands G _ Hdesc) as Hop.
  pose proof (descends_incoming G _ Hdesc) as Hin.
  assert (wellFormed G (fun W => isAddressProjection W || false)) as Hwf'.
  { eapply wellFormed_weaken; [|exact Hwf].
    intros W. rewrite orb_false_r. auto. }
  destruct (outcome_cases (getUnderlyingObject G isAddressProjection fuel V))
    as [r Hr].
  { eapply getUnderlyingObject_terminates; eauto. }
  { apply (getUnderlyingObject_not_fatal G isAddressProjection
             (fun _ => false) Hwf'). }
  exists r. split; [exact Hr|].
  rewrite getUnderlyingObject_fixpoint in Hr.
  apply fixpoint_result in Hr.
  apply getUnderlyingObject_step_parts in Hr as (V0 & V1 & H0 & H1 & H2).
  pose proof (stripCasts_below G _ Hop Hin _ _ _ H0) as B0.
  pose proof (stripAddressProjections_below G _ _ Hop Hin _ _ _ H1) as B1.
  pose proof (stripIndexingInsts_below G _ Hop _ _ _ H2) as B2.
  assert (V1 = r) as ->.
  { apply (below_antisym (graphDepth G)); [|exact B2].
    eapply below_trans; eauto. }
  assert (V0 = r) as ->.
  { apply (below_antisym (graphDepth G)); [exact B0|]. exact B1. }
  split.
  - eapply stripAddressProjections_result; eauto.
  - eapply stripIndexingInsts_result; eauto.
Qed.

(** C7, as amended.  Every looping stripper and every function of the
    [getUnderlyingObject] family is idempotent: applied to its own result
    it returns that result ([stripUpCasts] under its precondition that the
    value is of class type).  The one-shot [stripExpectIntrinsic] and
    [stripBorrow] strip a single layer and are left out. *)
Theorem strip_functions_idempotent
    (G : SILGraph) (isAddressProjection isObjectProjection : SILValue -> bool)
    (fuel : nat) (V r : SILValue) :
  (stripSinglePredecessorArgs G fuel V = Done r ->
   stripSinglePredecessorArgs G fuel r = Done r) /\
  (stripCastsWithoutMarkDependence G fuel V = Done r ->
   stripCastsWithoutMarkDependence G fuel r = Done r) /\
  (stripCasts G fuel V = Done r -> stripCasts G fuel r = Done r) /\
  (stripUpCasts G fuel V = Done r ->
   isClassOrClassMetatype (getType (node G r)) = true ->
   stripUpCasts G fuel r = Done r) /\
  (stripClassCasts G fuel V = Done r -> stripClassCasts G fuel r = Done r) /\
  (stripAddressProjections G isAddressProjection fuel V = Done r ->
   stripAddressProjections G isAddressProjection fuel r = Done r) /\
  (stripUnaryAddressProjections G isAddressProjection fuel V = Done r ->
   stripUnaryAddressProjections G isAddressProjection fuel r = Done r) /\
  (stripValueProjections G isObjectProjection fuel V = Done r ->
   stripValueProjections G isObjectProjection fuel r = Done r) /\
  (stripIndexingInsts G fuel V = Done r ->
   stripIndexingInsts G fuel r = Done r) /\
  (stripConvertFunctions G fuel V = Done r ->
   stripConvertFunctions G fuel r = Done r) /\
  (getUnderlyingObject G isAddressProjection fuel V = Done r ->
   getUnderlyingObject G isAddressProjection fuel r = Done r) /\
  (getUnderlyingAddressRoot G fuel V = Done r ->
   getUnderlyingAddressRoot G fuel r = Done r) /\
  (getUnderlyingObjectStopAtMarkDependence G isAddressProjection fuel V
     = Done r ->
   getUnderlyingObjectStopAtMarkDependence G isAddressProjection fuel r
     = Done r).
Proof.
  repeat apply conj.
  - apply stripSinglePredecessorArgs_idem.
  - apply stripCastsWithoutMarkDependence_idem.
  - apply stripCasts_idem.
  - apply stripUpCasts_idem.
  - apply stripClassCasts_idem.
  - apply stripAddressProjections_idem.
  - apply stripUnaryAddressProjections_idem.
  - apply stripValueProjections_idem.
  - apply stripIndexingInsts_idem.
  - apply stripConvertFunctions_idem.
  - apply getUnderlyingObject_idem.
  - apply getUnderlyingAddressRoot_idem.
  - apply getUnderlyingObjectStopAtMarkDependence_idem.
Qed.

(** C8.  A value that is the argument at index [N] of a block with exactly
    one predecessor resolves to the operand of the predecessor's
    terminator: operand [N] of an unconditional branch, or the operand at
    index [N] on the edge to the block of a conditional branch; the loop
    goes on from that operand, and ends at a value that is no such
    argument.  When the block has no or several predecessors, or the
    terminator is of another kind, the value is returned unchanged (as is
    any value that is no block argument). *)
Theorem stripSinglePredecessorArgs_resolution
    (G : SILGraph) (V : SILValue) (fuel : nat) :
  let A := node G V in
  let BB := getParent A in
  (forall Pred dest args x,
     isa_SILArgument (getKind A) = true ->
     getPredecessors (block G BB) = [Pred] ->
     getTerminator (block G Pred) = BranchInst dest args ->
     args !! getIndex A = Some x ->
     stripSinglePredecessorArgs G (S fuel) V
       = stripSinglePredecessorArgs G fuel x) /\
  (forall Pred cond trueBB trueArgs falseBB falseArgs x,
     isa_SILArgument (getKind A) = true ->
     getPredecessors (block G BB) = [Pred] ->
     getTerminator (block G Pred)
       = CondBranchInst cond trueBB trueArgs falseBB falseArgs ->
     trueBB <> falseBB ->
     (BB = trueBB /\ trueArgs !! getIndex A = Some x) \/
     (BB = falseBB /\ falseArgs !! getIndex A = Some x) ->
     stripSinglePredecessorArgs G (S fuel) V
       = stripSinglePredecessorArgs G fuel x) /\
  (length (getPredecessors (block G BB)) <> 1 ->
   stripSinglePredecessorArgs G (S fuel) V = Done V) /\
  (forall Pred,
     getPredecessors (block G BB) = [Pred] ->
     match getTerminator (block G Pred) with
     | BranchInst _ _ | CondBranchInst _ _ _ _ _ => False
     | _ => True
     end ->
     stripSinglePredecessorArgs G (S fuel) V = Done V) /\
  (isa_SILArgument (getKind A) = false ->
   stripSinglePredecessorArgs G (S fuel) V = Done V) /\
  (forall r,
     stripSinglePredecessorArgs G fuel V = Done r ->
     stripSinglePredecessorArgs_body G r = Done (Return r)).
Proof.
  intros A BB. subst A BB. repeat apply conj.
  - intros Pred dest args x HA HP HT Hx.
    apply while_true_continue.
    unfold stripSinglePredecessorArgs_body, getSinglePredecessorBlock.
    rewrite HA, HP, HT, Hx. reflexivity.
  - intros Pred cond tBB tArgs fBB fArgs x HA HP HT Hne Hx.
    apply while_true_continue.
    unfold stripSinglePredecessorArgs_body, getSinglePredecessorBlock,
      getArgForDestBB.
    rewrite HA, HP, HT. simpl.
    destruct (Nat.eqb_spec tBB fBB) as [|_]; [contradiction|].
    destruct Hx as [[HB Hx]|[HB Hx]]; rewrite HB.
    + rewrite Nat.eqb_refl, Hx. reflexivity.
    + destruct (Nat.eqb_spec fBB tBB) as [E|_]; [congruence|].
      rewrite Nat.eqb_refl, Hx. reflexivity.
  - intros HP. apply while_true_return.
    unfold stripSinglePredecessorArgs_body, getSinglePredecessorBlock.
    destruct (isa_SILArgument (getKind (node G V))); simpl; [|reflexivity].
    destruct (getPredecessors (block G (getParent (node G V))))
      as [|P [|Q Ps]]; simpl in HP; try reflexivity. lia.
  - intros Pred HP HT. apply while_true_return.
    unfold stripSinglePredecessorArgs_body, getSinglePredecessorBlock.
    destruct (isa_SILArgument (getKind (node G V))); simpl; [|reflexivity].
    rewrite HP.
    destruct (getTerminator (block G Pred)); try contradiction; reflexivity.
  - intros HA. apply while_true_return.
    unfold stripSinglePredecessorArgs_body. rewrite HA. reflexivity.
  - intros r. apply stripSinglePredecessorArgs_result.
Qed.

(** C9, as amended.  On a finite graph that is acyclic along the operand
    edges together with the edges from a block argument to the values that
    the terminator of the single predecessor of its block passes to it, no
    stripper, none of the [getUnderlyingObject] family and not
    [findAccessedAddressBase] runs forever: with fuel above the depth of the
    value in the graph -- which is at most the number of nodes -- no loop is
    cut off, and on well-formed IR each stripper returns a value.  For the
    functions that do not resolve block arguments ([stripClassCasts],
    [stripIndexingInsts], [stripConvertFunctions], [findAccessedAddressBase])
    acyclic operand edges are enough. *)
Theorem strip_and_root_functions_terminate
    (G : SILGraph) (isAddressProjection isObjectProjection : SILValue -> bool)
    (V : SILValue) (fuel : nat) :
  (acyclic G ->
   graphDepth G V < fuel ->
   (stripSinglePredecessorArgs G fuel V <> OutOfFuel /\
    stripCastsWithoutMarkDependence G fuel V <> OutOfFuel /\
    stripCasts G fuel V <> OutOfFuel /\
    stripUpCasts G fuel V <> OutOfFuel /\
    stripClassCasts G fuel V <> OutOfFuel /\
    stripAddressProjections G isAddressProjection fuel V <> OutOfFuel /\
    stripUnaryAddressProjections G isAddressProjection fuel V <> OutOfFuel /\
    stripValueProjections G isObjectProjection fuel V <> OutOfFuel /\
    stripIndexingInsts G fuel V <> OutOfFuel /\
    stripConvertFunctions G fuel V <> OutOfFuel /\
    getUnderlyingObject G isAddressProjection fuel V <> OutOfFuel /\
    getUnderlyingAddressRoot G fuel V <> OutOfFuel /\
    getUnderlyingObjectStopAtMarkDependence G isAddressProjection fuel V
      <> OutOfFuel /\
    findAccessedAddressBase G fuel V <> OutOfFuel) /\
   graphDepth G V <= length (nodes G) /\
   (wellFormed G (fun W => isAddressProjection W || isObjectProjection W) ->
    (exists r, stripSinglePredecessorArgs G fuel V = Done r) /\
    (exists r, stripCastsWithoutMarkDependence G fuel V = Done r) /\
    (exists r, stripCasts G fuel V = Done r) /\
    (exists r, stripClassCasts G fuel V = Done r) /\
    (exists r, stripAddressProjections G isAddressProjection fuel V = Done r) /\
    (exists r, stripUnaryAddressProjections G isAddressProjection fuel V
                 = Done r) /\
    (exists r, stripValueProjections G isObjectProjection fuel V = Done r) /\
    (exists r, stripIndexingInsts G fuel V = Done r) /\
    (exists r, stripConvertFunctions G fuel V = Done r) /\
    (exists r, getUnderlyingObject G isAddressProjection fuel V = Done r) /\
    (exists r, getUnderlyingAddressRoot G fuel V = Done r) /\
    (exists r, getUnderlyingObjectStopAtMarkDependence G isAddressProjection
                 fuel V = Done r))) /\
  (operandAcyclic G ->
   operandDepth G V < fuel ->
   stripClassCasts G fuel V <> OutOfFuel /\
   stripIndexingInsts G fuel V <> OutOfFuel /\
   stripConvertFunctions G fuel V <> OutOfFuel /\
   findAccessedAddressBase G fuel V <> OutOfFuel /\
   operandDepth G V <= length (nodes G)).
Proof.
  split.
  - intros Hacyc Hfuel.
    pose proof (acyclic_descends G Hacyc) as Hdesc.
    pose proof (descends_operands G _ Hdesc) as Hop.
    pose proof (descends_incoming G _ Hdesc) as Hin.
    assert (stripSinglePredecessorArgs G fuel V <> OutOfFuel) as T1
      by (eapply stripSinglePredecessorArgs_terminates; eauto).
    assert (stripCastsWithoutMarkDependence G fuel V <> OutOfFuel) as T2
      by (eapply stripCastsWithoutMarkDependence_terminates; eauto).
    assert (stripCasts G fuel V <> OutOfFuel) as T3
      by (eapply stripCasts_terminates; eauto).
    assert (stripClassCasts G fuel V <> OutOfFuel) as T5
      by (eapply stripClassCasts_terminates; eauto).
    assert (stripAddressProjections G isAddressProjection fuel V <> OutOfFuel)
      as T6 by (eapply stripAddressProjections_terminates; eauto).
    assert (stripUnaryAddressProjections G isAddressProjection fuel V
              <> OutOfFuel)
      as T7 by (eapply stripUnaryAddressProjections_terminates; eauto).
    assert (stripValueProjections G isObjectProjection fuel V <> OutOfFuel)
      as T8 by (eapply stripValueProjections_terminates; eauto).
    assert (stripIndexingInsts G fuel V <> OutOfFuel) as T9
      by (eapply stripIndexingInsts_terminates; eauto).
    assert (stripConvertFunctions G fuel V <> OutOfFuel) as T10
      by (eapply stripConvertFunctions_terminates; eauto).
    assert (getUnderlyingObject G isAddressProjection fuel V <> OutOfFuel)
      as T11 by (eapply getUnderlyingObject_terminates; eauto).
    assert (getUnderlyingAddressRoot G fuel V <> OutOfFuel) as T12
      by (eapply getUnderlyingAddressRoot_terminates; eauto).
    assert (getUnderlyingObjectStopAtMarkDependence G isAddressProjection
              fuel V <> OutOfFuel)
      as T13
      by (eapply getUnderlyingObjectStopAtMarkDependence_terminates; eauto).
    split; [|split].
    + repeat apply conj; try assumption.
      * eapply stripUpCasts_terminates; eauto.
      * eapply findAccessedAddressBase_terminates; eauto.
    + apply graphDepth_bound. exact Hacyc.
    + intros Hwf. repeat apply conj; apply outcome_cases; try assumption.
      * eapply stripSinglePredecessorArgs_not_fatal; eauto.
      * eapply stripCastsWithoutMarkDependence_not_fatal; eauto.
      * eapply stripCasts_not_fatal; eauto.
      * eapply stripClassCasts_not_fatal; eauto.
      * eapply stripAddressProjections_not_fatal; eauto.
      * eapply stripUnaryAddressProjections_not_fatal; eauto.
      * eapply stripValueProjections_not_fatal; eauto.
      * eapply stripIndexingInsts_not_fatal; eauto.
      * eapply stripConvertFunctions_not_fatal; eauto.
      * eapply getUnderlyingObject_not_fatal; eauto.
      * eapply getUnderlyingAddressRoot_not_fatal; eauto.
      * eapply getUnderlyingObjectStopAtMarkDependence_not_fatal; eauto.
  - intros Hacyc Hfuel.
    pose proof (operandAcyclic_descends G Hacyc) as Hop.
    repeat apply conj.
    + eapply stripClassCasts_terminates; eauto.
    + eapply stripIndexingInsts_terminates; eauto.
    + eapply stripConvertFunctions_terminates; eauto.
    + eapply findAccessedAddressBase_terminates; eauto.
    + apply operandDepth_bound. exact Hacyc.
Qed.

(** [getUnderlyingObject] of [upcast (struct_extract %0)] is the
    [struct_extract], a value projection. *)
Lemma getUnderlyingObject_value_projection_counterexample :
  getUnderlyingObject valueProjectionGraph
    (Projection_isAddressProjection valueProjectionGraph) 3 2 = Done 1 /\
  Projection_isObjectProjection valueProjectionGraph 1 = true.
Proof. split; reflexivity. Qed.

Lemma projectionGraph_descends : descends projectionGraph handleRank.
Proof. apply check_descends_sound. reflexivity. Qed.

Lemma branchGraph_descends : descends branchGraph handleRank.
Proof. apply check_descends_sound. reflexivity. Qed.

Lemma projectionGraph_acyclic : acyclic projectionGraph.
Proof. exact (descends_acyclic _ _ projectionGraph_descends). Qed.

Lemma branchGraph_acyclic : acyclic branchGraph.
Proof. exact (descends_acyclic _ _ branchGraph_descends). Qed.

Lemma branchGraph_wellFormed :
  wellFormed branchGraph
    (fun W => Projection_isAddressProjection branchGraph W
              || Projection_isObjectProjection branchGraph W).
Proof.
  apply check_wellFormed_sound; [reflexivity|].
  intros V HV.
  rewrite Projection_isAddressProjection_out_of_range,
    Projection_isObjectProjection_out_of_range by exact HV.
  reflexivity.
Qed.

Lemma projectionGraph_wellFormed :
  wellFormed projectionGraph (Projection_isAddressProjection projectionGraph).
Proof.
  apply check_wellFormed_sound; [reflexivity|].
  apply Projection_isAddressProjection_out_of_range.
Qed.

Lemma getUnderlyingObject_not_projection_nor_index_witness :
  exists r,
    getUnderlyingObject projectionGraph
      (Projection_isAddressProjection projectionGraph) 6 5 = Done r /\
    Projection_isAddressProjection projectionGraph r = false /\
    isa_IndexingInst (kindOf projectionGraph r) = false.
Proof.
  apply (getUnderlyingObject_not_projection_nor_index projectionGraph
           (Projection_isAddressProjection projectionGraph) 5 6).
  - exact projectionGraph_acyclic.
  - exact projectionGraph_wellFormed.
  - vm_compute. lia.
Defined.

(** [stripBorrow] and [stripExpectIntrinsic] applied twice to a doubly
    wrapped value strip two layers, applied once only one. *)
Lemma one_shot_strippers_not_idempotent_counterexample :
  stripBorrow oneShotGraph 3 = Done 2 /\
  stripBorrow oneShotGraph 2 = Done 0 /\
  (letO r := stripBorrow oneShotGraph 3 in stripBorrow oneShotGraph r)
    <> stripBorrow oneShotGraph 3 /\
  stripExpectIntrinsic oneShotGraph 5 = Done 4 /\
  stripExpectIntrinsic oneShotGraph 4 = Done 0 /\
  (letO r := stripExpectIntrinsic oneShotGraph 5 in
   stripExpectIntrinsic oneShotGraph r)
    <> stripExpectIntrinsic oneShotGraph 5.
Proof. repeat apply conj; try reflexivity; discriminate. Qed.

Lemma strip_functions_idempotent_witness :
  stripCasts valueProjectionGraph 3 1 = Done 1 /\
  getUnderlyingObject projectionGraph
    (Projection_isAddressProjection projectionGraph) 6 0 = Done 0 /\
  stripSinglePredecessorArgs branchGraph 6 0 = Done 0.
Proof.
  split; [|split].
  - apply (strip_functions_idempotent valueProjectionGraph
             (Projection_isAddressProjection valueProjectionGraph)
             (Projection_isObjectProjection valueProjectionGraph) 3 2 1).
    reflexivity.
  - apply (strip_functions_idempotent projectionGraph
             (Projection_isAddressProjection projectionGraph)
             (Projection_isObjectProjection projectionGraph) 6 5 0).
    reflexivity.
  - apply (strip_functions_idempotent branchGraph
             (Projection_isAddressProjection branchGraph)
             (Projection_isObjectProjection branchGraph) 6 4 0).
    reflexivity.
Defined.

(** The branch example of the specification: the argument %1 of a block
    whose sole predecessor ends in [br bb1(%0)] resolves to %0; %2, in a
    block with two predecessors, is unchanged; %3 and %4 take the operand of
    their edge of the [cond_br], and %4 goes on through %1 to %0; %5, behind
    a [checked_cast_br], is unchanged. *)
Lemma stripSinglePredecessorArgs_resolution_witness :
  stripSinglePredecessorArgs branchGraph 2 1 = Done 0 /\
  stripSinglePredecessorArgs branchGraph 1 2 = Done 2 /\
  stripSinglePredecessorArgs branchGraph 2 3 = Done 0 /\
  stripSinglePredecessorArgs branchGraph 3 4 = Done 0 /\
  stripSinglePredecessorArgs branchGraph 1 5 = Done 5.
Proof.
  repeat apply conj.
  - rewrite (proj1 (stripSinglePredecessorArgs_resolution branchGraph 1 1)
               0 1 [0] 0); reflexivity.
  - apply (proj1 (proj2 (proj2
             (stripSinglePredecessorArgs_resolution branchGraph 2 0)))).
    simpl. lia.
  - rewrite (proj1 (proj2 (stripSinglePredecessorArgs_resolution branchGraph 3 1))
               3 0 4 [0] 5 [1] 0); try reflexivity; [lia|].
    left. split; reflexivity.
  - rewrite (proj1 (proj2 (stripSinglePredecessorArgs_resolution branchGraph 4 2))
               3 0 4 [0] 5 [1] 1); try reflexivity; [lia|].
    right. split; reflexivity.
  - apply (proj1 (proj2 (proj2 (proj2
             (stripSinglePredecessorArgs_resolution branchGraph 5 0)))) 6).
    + reflexivity.
    + exact Logic.I.
Defined.

(** The argument of a block that is its own single predecessor: the
    operand edges of the graph are acyclic (there are none), and
    [stripSinglePredecessorArgs], and with it [stripCasts], exhausts every
    fuel. *)
Lemma strip_self_loop_counterexample :
  operandAcyclic selfLoopGraph /\
  ~ (exists fuel, stripSinglePredecessorArgs selfLoopGraph fuel 0
                    <> OutOfFuel) /\
  ~ (exists fuel, stripCasts selfLoopGraph fuel 0 <> OutOfFuel).
Proof.
  assert (forall fuel,
            stripSinglePredecessorArgs selfLoopGraph fuel 0 = OutOfFuel)
    as Hloop.
  { intros fuel. induction fuel as [|fuel IH]; [reflexivity|].
    unfold stripSinglePredecessorArgs in *.
    rewrite (while_true_continue _ fuel 0 0); [exact IH|reflexivity]. }
  split; [|split].
  - apply (descendsAlong_acyclic _ (fun _ => 0)).
    intros V W HW. exfalso. unfold operandsOf in HW.
    destruct V as [|V]; simpl in HW; inversion HW.
  - intros [fuel H]. apply H. apply Hloop.
  - intros [fuel H]. apply H.
    destruct fuel as [|fuel]; [reflexivity|].
    unfold stripCasts. rewrite while_true_S.
    unfold stripCasts_body. rewrite Hloop. reflexivity.
Qed.

Lemma projectionGraph_operandAcyclic : operandAcyclic projectionGraph.
Proof.
  exact (descendsAlong_acyclic _ _
           (descends_operands _ _ projectionGraph_descends)).
Qed.

Lemma strip_and_root_functions_terminate_witness :
  stripSinglePredecessorArgs branchGraph 5 4 <> OutOfFuel /\
  findAccessedAddressBase projectionGraph 6 5 <> OutOfFuel /\
  (exists r, stripCasts branchGraph 5 4 = Done r).
Proof.
  split; [|split].
  - apply (proj1 (strip_and_root_functions_terminate branchGraph
                    (Projection_isAddressProjection branchGraph)
                    (Projection_isObjectProjection branchGraph) 4 5)).
    + exact branchGraph_acyclic.
    + vm_compute. lia.
  - apply (proj2 (strip_and_root_functions_terminate projectionGraph
                    (Projection_isAddressProjection projectionGraph)
                    (Projection_isObjectProjection projectionGraph) 5 6)).
    + exact projectionGraph_operandAcyclic.
    + vm_compute. lia.
  - apply (proj1 (strip_and_root_functions_terminate branchGraph
                    (Projection_isAddressProjection branchGraph)
                    (Projection_isObjectProjection branchGraph) 4 5)).
    + exact branchGraph_acyclic.
    + vm_compute. lia.
    + exact branchGraph_wellFormed.
Defined.

(** * Properties of the closure origin resolver *)

Section ClosureFacts.

Variable G : SILGraph.
Variable isReferenceCounted : SILType -> bool.

Lemma stripConvertFunctions_at_other (fuel : nat) (V : SILValue) :
  getKind (node G V) <> ConvertFunctionInst ->
  stripConvertFunctions G (S fuel) V = Done V.
Proof.
  intros H. apply while_true_return. unfold stripConvertFunctions_body, kindOf.
  destruct (getKind (node G V)); try reflexivity. congruence.
Qed.

(** The head of [findClosureForAppliedArg] on a value that is no borrow and
    whose type is a function type, not an optional. *)
Lemma findClosureForAppliedArg_head (fuel : nat) (V : SILValue)
    (rep : SILFunctionTypeRepresentation) :
  getKind (node G V) <> BeginBorrowInst ->
  getSwiftRValueType (getType (node G V)) = SILFunctionType rep ->
  findClosureForAppliedArg G isReferenceCounted (S fuel) V =
  letO V := if isBlockRepresentation rep
            then findClosureStoredIntoBlock G (S fuel) V
            else Done (Some V) in
  match V with
  | None => Done (mkFindClosureResult None false)
  | Some V =>
      letO pai := stripConvertFunctions G (S fuel) V in
      match getKind (node G pai) with
      | PartialApplyInst =>
          letO thunkArg :=
            isPartialApplyOfReabstractionThunk G isReferenceCounted pai in
          match thunkArg with
          | Some thunkArg =>
              letO result :=
                findClosureForAppliedArg G isReferenceCounted fuel thunkArg in
              Done (mkFindClosureResult (PAI result) true)
          | None => Done (mkFindClosureResult (Some pai) false)
          end
      | _ => Done (mkFindClosureResult None false)
      end
  end.
Proof.
  intros HK HT. simpl.
  assert (match getKind (node G V) with
          | BeginBorrowInst => getOperand (node G V) 0
          | _ => Done V
          end = Done V) as ->.
  { destruct (getKind (node G V)); try reflexivity. congruence. }
  simpl. unfold getOptionalObjectType. rewrite HT. simpl. rewrite HT. simpl.
  reflexivity.
Qed.

Lemma isPartialApplyOfReabstractionThunk_thunk (t callee c : SILValue)
    (rep : SILFunctionTypeRepresentation) :
  getOperands (node G t) = [callee; c] ->
  getKind (node G callee) = FunctionRefInst ->
  referencedThunk (node G callee) = IsReabstractionThunk ->
  getSwiftRValueType (getType (node G c)) = SILFunctionType rep ->
  isReferenceCounted (getType (node G c)) = true ->
  isPartialApplyOfReabstractionThunk G isReferenceCounted t = Done (Some c).
Proof.
  intros Hops Hk Hthunk HT HRC.
  unfold isPartialApplyOfReabstractionThunk, getNumArguments,
    getReferencedFunction, getArgument, getOperand.
  rewrite Hops. simpl. rewrite Hk, Hthunk. simpl. rewrite HT, HRC.
  reflexivity.
Qed.

Lemma isPartialApplyOfReabstractionThunk_inv (p a : SILValue) :
  isPartialApplyOfReabstractionThunk G isReferenceCounted p = Done (Some a) ->
  isThunkApplication G isReferenceCounted p a.
Proof.
  unfold isPartialApplyOfReabstractionThunk, getNumArguments,
    getReferencedFunction, getArgument, getOperand, isThunkApplication.
  intros H.
  destruct (getOperands (node G p)) as [|c [|x [|y l]]]; simpl in H;
    try discriminate.
  destruct (getKind (node G c)) eqn:K; try discriminate.
  destruct (referencedThunk (node G c)) eqn:T; try discriminate.
  destruct (getSwiftRValueType (getType (node G x))) eqn:Ty; simpl in H;
    try discriminate.
  destruct (isReferenceCounted (getType (node G x))) eqn:RC; simpl in H;
    try discriminate.
  injection H as <-. exists c. rewrite Ty. auto.
Qed.

Lemma isPartialApplyOfReabstractionThunk_intro (p a : SILValue) :
  isThunkApplication G isReferenceCounted p a ->
  isPartialApplyOfReabstractionThunk G isReferenceCounted p = Done (Some a).
Proof.
  intros (callee & Hops & K & T & Ty & RC).
  destruct (getSwiftRValueType (getType (node G a))) as [rep| | | | |] eqn:E;
    try discriminate Ty.
  eapply isPartialApplyOfReabstractionThunk_thunk; eauto.
Qed.

Lemma isPartialApplyOfReabstractionThunk_returns (p : SILValue) :
  exists r,
    isPartialApplyOfReabstractionThunk G isReferenceCounted p = Done r.
Proof.
  unfold isPartialApplyOfReabstractionThunk, getNumArguments,
    getReferencedFunction, getArgument, getOperand.
  destruct (getOperands (node G p)) as [|c [|x [|y l]]]; simpl; eauto.
  destruct (getKind (node G c)); eauto.
  destruct (referencedThunk (node G c)); eauto.
  destruct (negb _ || negb _); eauto.
Qed.

(** [isPartialApplyOfReabstractionThunk] answers null exactly when the
    partial application is the thunk application of no argument. *)
Lemma isPartialApplyOfReabstractionThunk_none (p : SILValue) :
  (forall a, ~ isThunkApplication G isReferenceCounted p a) <->
  isPartialApplyOfReabstractionThunk G isReferenceCounted p = Done None.
Proof.
  split.
  - intros Hno.
    destruct (isPartialApplyOfReabstractionThunk_returns p) as [[a|] Hr];
      [|exact Hr].
    apply isPartialApplyOfReabstractionThunk_inv in Hr.
    destruct (Hno a Hr).
  - intros Hr a Ha.
    apply isPartialApplyOfReabstractionThunk_intro in Ha. congruence.
Qed.

Lemma findClosureForAppliedArg_direct (fuel : nat) (c : SILValue)
    (rep : SILFunctionTypeRepresentation) :
  getKind (node G c) = PartialApplyInst ->
  getSwiftRValueType (getType (node G c)) = SILFunctionType rep ->
  isBlockRepresentation rep = false ->
  isPartialApplyOfReabstractionThunk G isReferenceCounted c = Done None ->
  findClosureForAppliedArg G isReferenceCounted (S fuel) c
    = Done (mkFindClosureResult (Some c) false).
Proof.
  intros HK HT HB Hthunk.
  rewrite (findClosureForAppliedArg_head fuel c rep); [|congruence|exact HT].
  rewrite HB. simpl. rewrite stripConvertFunctions_at_other by congruence.
  simpl. rewrite HK, Hthunk. reflexivity.
Qed.

Lemma findClosureForAppliedArg_thunk (fuel : nat) (t callee a : SILValue)
    (rept rep : SILFunctionTypeRepresentation) :
  getKind (node G t) = PartialApplyInst ->
  getSwiftRValueType (getType (node G t)) = SILFunctionType rept ->
  isBlockRepresentation rept = false ->
  getOperands (node G t) = [callee; a] ->
  getKind (node G callee) = FunctionRefInst ->
  referencedThunk (node G callee) = IsReabstractionThunk ->
  getSwiftRValueType (getType (node G a)) = SILFunctionType rep ->
  isReferenceCounted (getType (node G a)) = true ->
  findClosureForAppliedArg G isReferenceCounted (S fuel) t
    = letO result := findClosureForAppliedArg G isReferenceCounted fuel a in
      Done (mkFindClosureResult (PAI result) true).
Proof.
  intros HK HT HB Hops Hk Hthunk HTa HRC.
  rewrite (findClosureForAppliedArg_head fuel t rept); [|congruence|exact HT].
  rewrite HB. simpl. rewrite stripConvertFunctions_at_other by congruence.
  simpl. rewrite HK.
  rewrite (isPartialApplyOfReabstractionThunk_thunk t callee a rep); auto.
Qed.


(** *** Blocks *)

Lemma lookThroughBlockCopies_chain (N : nat) (V W : SILValue) (fuel : nat) :
  BehindBlockCopies G N V W ->
  N < fuel ->
  while_true (lookThroughBlockCopies_body G) fuel V =
  Done (if isa_InitBlockStorageHeaderInst (getKind (node G W))
        then Some W else None).
Proof.
  intros H. revert fuel.
  induction H as [W HW|N V V' W HK Hop H IH]; intros fuel Hf.
  - destruct fuel as [|fuel]; [lia|].
    apply while_true_return. unfold lookThroughBlockCopies_body.
    destruct (getKind (node G W)); try reflexivity. congruence.
  - destruct fuel as [|fuel]; [lia|].
    rewrite (while_true_continue _ fuel V V').
    + apply IH. lia.
    + unfold lookThroughBlockCopies_body, getOperand. rewrite HK, Hop.
      reflexivity.
Qed.

Lemma findClosureStoredIntoBlock_chain (N : nat) (V W : SILValue)
    (fuel : nat) :
  getSwiftRValueType (getType (node G V)) = SILFunctionType Block ->
  BehindBlockCopies G N V W ->
  N < fuel ->
  findClosureStoredIntoBlock G fuel V =
  if isa_InitBlockStorageHeaderInst (getKind (node G W)) then
    letO BlockStorage := getOperand (node G W) 0 in
    match getSingleUserOfType G isa_ProjectBlockStorageInst BlockStorage with
    | None => Fatal
    | Some PBSI =>
        match getSingleUserOfType G isa_StoreInst PBSI with
        | None => Fatal
        | Some SI => letO Src := getOperand (node G SI) 0 in Done (Some Src)
        end
    end
  else Done None.
Proof.
  intros HT Hchain Hf. unfold findClosureStoredIntoBlock.
  rewrite HT. simpl.
  rewrite (lookThroughBlockCopies_chain N V W fuel Hchain Hf).
  destruct (isa_InitBlockStorageHeaderInst (getKind (node G W))); reflexivity.
Qed.

(** C6, as amended.  For a value of the block representation that stands
    before [N] [copy_block] wrappers of [W]: when [W] is no
    [init_block_storage_header], [findClosureForAppliedArg] returns "no
    closure"; when [W] is one, but its storage has no single
    [project_block_storage] user, or that projection no single [store]
    user, the function fails its assertion instead of returning. *)
Theorem findClosureForAppliedArg_block (N : nat) (V W : SILValue)
    (fuel : nat) :
  getKind (node G V) <> BeginBorrowInst ->
  getSwiftRValueType (getType (node G V)) = SILFunctionType Block ->
  BehindBlockCopies G N V W ->
  N < fuel ->
  (getKind (node G W) <> InitBlockStorageHeaderInst ->
   findClosureForAppliedArg G isReferenceCounted fuel V
     = Done (mkFindClosureResult None false)) /\
  (forall BlockStorage,
     getKind (node G W) = InitBlockStorageHeaderInst ->
     getOperands (node G W) !! 0 = Some BlockStorage ->
     getSingleUserOfType G isa_ProjectBlockStorageInst BlockStorage = None ->
     findClosureForAppliedArg G isReferenceCounted fuel V = Fatal) /\
  (forall BlockStorage PBSI,
     getKind (node G W) = InitBlockStorageHeaderInst ->
     getOperands (node G W) !! 0 = Some BlockStorage ->
     getSingleUserOfType G isa_ProjectBlockStorageInst BlockStorage
       = Some PBSI ->
     getSingleUserOfType G isa_StoreInst PBSI = None ->
     findClosureForAppliedArg G isReferenceCounted fuel V = Fatal).
Proof.
  intros HK HT Hchain Hf.
  destruct fuel as [|fuel]; [lia|].
  rewrite (findClosureForAppliedArg_head fuel V Block HK HT). simpl.
  rewrite (findClosureStoredIntoBlock_chain N V W (S fuel) HT Hchain Hf).
  split; [|split].
  - intros HW.
    destruct (getKind (node G W)); try reflexivity. congruence.
  - intros BlockStorage HW Hop Hnone. unfold getOperand.
    rewrite HW, Hop. simpl. rewrite Hnone. reflexivity.
  - intros BlockStorage PBSI HW Hop Hsome Hnone. unfold getOperand.
    rewrite HW, Hop. simpl. rewrite Hsome, Hnone. reflexivity.
Qed.

End ClosureFacts.

(** The partial applications of the example graphs that are no thunk
    applications: the callee is no thunk, or there are two arguments. *)
Lemma direct_closures :
  (forall a, ~ isThunkApplication closureGraph functionsAreReferenceCounted
               2 a) /\
  (forall a, ~ isThunkApplication plainClosureGraph
               functionsAreReferenceCounted 3 a) /\
  (forall a, ~ isThunkApplication plainClosureGraph
               functionsAreReferenceCounted 5 a).
Proof.
  split; [|split]; intros a (callee & Hops & _ & T & _); cbv in Hops.
  - injection Hops as <- <-. discriminate T.
  - injection Hops as <- <-. discriminate T.
  - discriminate Hops.
Qed.


(** A block whose storage has no [project_block_storage] user: the pattern
    is not found, and the outcome is the failed assertion, not "no
    closure". *)
Lemma findClosureForAppliedArg_block_counterexample :
  getSingleUserOfType blockGraph isa_ProjectBlockStorageInst 0 = None /\
  findClosureForAppliedArg blockGraph functionsAreReferenceCounted 5 2
    = Fatal /\
  findClosureForAppliedArg blockGraph functionsAreReferenceCounted 5 2
    <> Done (mkFindClosureResult None false).
Proof. repeat apply conj; [reflexivity|reflexivity|discriminate]. Qed.

Lemma findClosureForAppliedArg_block_witness :
  findClosureForAppliedArg blockGraph functionsAreReferenceCounted 5 4
    = Done (mkFindClosureResult None false) /\
  findClosureForAppliedArg blockGraph functionsAreReferenceCounted 5 2
    = Fatal.
Proof.
  split.
  - apply (findClosureForAppliedArg_block blockGraph
             functionsAreReferenceCounted 1 4 3 5).
    + discriminate.
    + reflexivity.
    + apply (copies_step blockGraph 0 4 3 3); [reflexivity|reflexivity|].
      apply copies_end. discriminate.
    + lia.
    + discriminate.
  - apply (proj1 (proj2 (findClosureForAppliedArg_block blockGraph
                           functionsAreReferenceCounted 1 2 1 5
                           ltac:(discriminate) eq_refl
                           (copies_step blockGraph 0 2 1 1 eq_refl eq_refl
                              (copies_end blockGraph 1 ltac:(discriminate)))
                           ltac:(lia))) 0); reflexivity.
Defined.

(** * Properties of the ownership-dialect evaluator *)

Lemma evaluate_simulates (E : FunctionOwnershipEvaluator) (I : SILNode) :
  getFunction I = F E ->
  exists E',
    evaluate E I
      = Done (fst (dialect_step (dialectState E)
                     (OwnershipQualifiedKindVisitor_visit I)), E') /\
    dialectState E'
      = snd (dialect_step (dialectState E)
               (OwnershipQualifiedKindVisitor_visit I)) /\
    F E' = F E /\
    (dialectState E' = dialectState E -> E' = E).
Proof.
  intros HF. unfold evaluate. rewrite HF, Nat.eqb_refl. simpl.
  destruct E as [Fn q e]. unfold dialectState. simpl.
  destruct (OwnershipQualifiedKindVisitor_visit I), q, e; simpl;
    eexists; repeat split; try reflexivity; discriminate.
Qed.

(** C4.  The evaluator implements the three-state machine of the
    specification.  A fresh evaluator is in [QualifiedNoEvidence]; on an
    instruction of its function, [evaluate] answers as [dialect_step] does
    from the state the evaluator is in and moves to the state
    [dialect_step] names, and where the machine stays in its state the
    evaluator is left untouched.  From a fresh evaluator, two qualified
    instructions are both accepted and end in [QualifiedWithEvidence]; a
    qualified then an unqualified one has the second rejected; two
    unqualified instructions are both accepted. *)
Theorem evaluate_implements_dialect_machine (Fn : SILFunctionRef) :
  dialectState (newEvaluator Fn) = QualifiedNoEvidence /\
  (forall E I,
     F E = Fn -> getFunction I = Fn ->
     exists E',
       evaluate E I
         = Done (fst (dialect_step (dialectState E)
                        (OwnershipQualifiedKindVisitor_visit I)), E') /\
       dialectState E'
         = snd (dialect_step (dialectState E)
                  (OwnershipQualifiedKindVisitor_visit I)) /\
       F E' = Fn /\
       (dialectState E' = dialectState E -> E' = E)) /\
  (forall I1 I2,
     getFunction I1 = Fn -> getFunction I2 = Fn ->
     (OwnershipQualifiedKindVisitor_visit I1 = Qualified ->
      OwnershipQualifiedKindVisitor_visit I2 = Qualified ->
      exists E', evaluateAll (newEvaluator Fn) [I1; I2]
                   = Done ([true; true], E') /\
                 dialectState E' = QualifiedWithEvidence) /\
     (OwnershipQualifiedKindVisitor_visit I1 = Qualified ->
      OwnershipQualifiedKindVisitor_visit I2 = Unqualified ->
      exists E', evaluateAll (newEvaluator Fn) [I1; I2]
                   = Done ([true; false], E')) /\
     (OwnershipQualifiedKindVisitor_visit I1 = Unqualified ->
      OwnershipQualifiedKindVisitor_visit I2 = Unqualified ->
      exists E', evaluateAll (newEvaluator Fn) [I1; I2]
                   = Done ([true; true], E') /\
                 dialectState E' = StateUnqualified)).
Proof.
  split; [reflexivity|]. split.
  - intros E I HE HI.
    destruct (evaluate_simulates E I) as (E' & H1 & H2 & H3 & H4);
      [congruence|].
    exists E'. repeat split; try congruence. exact H4.
  - intros I1 I2 H1 H2.
    repeat split; intros K1 K2; unfold evaluateAll, evaluate, newEvaluator;
      simpl; rewrite H1, H2, K1, K2;
      repeat (rewrite Nat.eqb_refl; simpl);
      eexists; repeat split; reflexivity.
Qed.

(** C10.  A rejection leaves the evaluator as it was: when [evaluate]
    returns false, the function's qualified-ownership flag and the
    has-qualified-evidence flag are unchanged, and the instructions that
    follow are answered as if the rejected one had not been there. *)
Theorem evaluate_rejection_keeps_state
    (E E' : FunctionOwnershipEvaluator) (I : SILNode) :
  evaluate E I = Done (false, E') ->
  E' = E /\
  hasQualifiedOwnership E' = hasQualifiedOwnership E /\
  HasOwnershipQualifiedInstruction E' = HasOwnershipQualifiedInstruction E /\
  forall rest,
    evaluateAll E (I :: rest)
      = letO rs := evaluateAll E rest in Done (false :: fst rs, snd rs).
Proof.
  intros H.
  assert (E' = E) as ->.
  { unfold evaluate in H.
    destruct (negb (Nat.eqb (getFunction I) (F E))); [discriminate|].
    destruct (OwnershipQualifiedKindVisitor_visit I);
      destruct (hasQualifiedOwnership E);
      destruct (HasOwnershipQualifiedInstruction E);
      simpl in H; congruence. }
  repeat split.
  intros rest. simpl. rewrite H. reflexivity.
Qed.

(** The three sequences of the specification, on a [load [copy]], a
    [store [init]], an unqualified [load] and an unqualified [store] of
    function 7. *)
Lemma evaluate_implements_dialect_machine_witness :
  (exists E', evaluateAll (newEvaluator 7)
                [loadInst 7 LoadCopy; storeInst 7 StoreInit]
              = Done ([true; true], E') /\
              dialectState E' = QualifiedWithEvidence) /\
  (exists E', evaluateAll (newEvaluator 7)
                [loadInst 7 LoadCopy; storeInst 7 StoreUnqualified]
              = Done ([true; false], E')) /\
  (exists E', evaluateAll (newEvaluator 7)
                [loadInst 7 LoadUnqualified; storeInst 7 StoreUnqualified]
              = Done ([true; true], E') /\
              dialectState E' = StateUnqualified).
Proof.
  destruct (evaluate_implements_dialect_machine 7) as (_ & _ & Hseq).
  split; [|split].
  - apply (Hseq (loadInst 7 LoadCopy) (storeInst 7 StoreInit));
      reflexivity.
  - apply (Hseq (loadInst 7 LoadCopy) (storeInst 7 StoreUnqualified));
      reflexivity.
  - apply (Hseq (loadInst 7 LoadUnqualified) (storeInst 7 StoreUnqualified));
      reflexivity.
Defined.

Lemma evaluate_rejection_keeps_state_witness :
  evaluate (mkEvaluator 7 true true) (storeInst 7 StoreUnqualified)
    = Done (false, mkEvaluator 7 true true) /\
  evaluateAll (mkEvaluator 7 true true)
    [storeInst 7 StoreUnqualified; loadInst 7 LoadCopy]
    = Done ([false; true], mkEvaluator 7 true true).
Proof.
  split; [reflexivity|].
  rewrite (proj2 (proj2 (proj2
             (evaluate_rejection_keeps_state (mkEvaluator 7 true true)
                (mkEvaluator 7 true true) (storeInst 7 StoreUnqualified)
                eq_refl)))).
  reflexivity.
Defined.

(** * Further properties of the canonicalizer *)

Section CanonicalizerChains.

Variable G : SILGraph.
Variable isAddressProjection : SILValue -> bool.
Variable isObjectProjection : SILValue -> bool.

Lemma stripSinglePredecessorArgs_non_argument (fuel : nat) (V : SILValue) :
  isa_SILArgument (kindOf G V) = false ->
  stripSinglePredecessorArgs G (S fuel) V = Done V.
Proof.
  intros H. apply while_true_return.
  unfold stripSinglePredecessorArgs_body. unfold kindOf in H. rewrite H.
  reflexivity.
Qed.

(** A peeling loop walks down a chain of values that it strips. *)
Lemma peel_chain (pre : SILValue -> Outcome SILValue)
    (strips : SILValue -> bool) (N : nat) (V W : SILValue) (fuel : nat) :
  (forall X, strips X = true -> pre X = Done X) ->
  OperandChain G strips N V W ->
  N < fuel ->
  while_true (peel_body G pre strips) fuel V
    = while_true (peel_body G pre strips) (fuel - N) W.
Proof.
  intros Hpre Hchain. revert fuel.
  induction Hchain as [W|N V V' W HV Hop Hchain IH]; intros fuel Hf.
  - rewrite Nat.sub_0_r. reflexivity.
  - destruct fuel as [|fuel]; [lia|].
    rewrite (while_true_continue _ fuel V V').
    + rewrite IH by lia. reflexivity.
    + unfold peel_body. rewrite (Hpre V HV). simpl. rewrite HV.
      unfold operand0, getOperand. rewrite Hop. reflexivity.
Qed.

Lemma peel_chain_end (pre : SILValue -> Outcome SILValue)
    (strips : SILValue -> bool) (N : nat) (V W : SILValue) (fuel : nat) :
  (forall X, strips X = true -> pre X = Done X) ->
  OperandChain G strips N V W ->
  pre W = Done W ->
  strips W = false ->
  N < fuel ->
  while_true (peel_body G pre strips) fuel V = Done W.
Proof.
  intros Hpre Hchain HW HS Hf.
  rewrite (peel_chain pre strips N V W fuel Hpre Hchain Hf).
  destruct (fuel - N) as [|k] eqn:E; [lia|].
  apply while_true_return. unfold peel_body. rewrite HW. simpl.
  rewrite HS. reflexivity.
Qed.

Lemma strips_Casts_non_argument (X : SILValue) :
  strips_Casts G X = true -> isa_SILArgument (kindOf G X) = false.
Proof.
  unfold strips_Casts. destruct (kindOf G X); simpl; congruence.
Qed.

Lemma strips_CastsWithoutMarkDependence_non_argument (X : SILValue) :
  strips_CastsWithoutMarkDependence G X = true ->
  isa_SILArgument (kindOf G X) = false.
Proof.
  unfold strips_CastsWithoutMarkDependence.
  destruct (kindOf G X); simpl; congruence.
Qed.

Lemma OperandChain_ext (p q : SILValue -> bool) (N : nat) (V W : SILValue) :
  (forall X, p X = q X) ->
  OperandChain G p N V W -> OperandChain G q N V W.
Proof.
  intros Hpq H. induction H as [W|N V V' W HV Hop H IH].
  - apply operand_chain_end.
  - apply (operand_chain_step G q N V V' W); [|exact Hop|exact IH].
    rewrite <- Hpq. exact HV.
Qed.

(** What [stripCasts] and [stripCastsWithoutMarkDependence] test at each
    step, by kind. *)
Lemma strips_Casts_kinds (X : SILValue) :
  isCastOrMarkDependenceKind (kindOf G X) = strips_Casts G X.
Proof. unfold strips_Casts. destruct (kindOf G X); reflexivity. Qed.

Lemma strips_CastsWithoutMarkDependence_kinds (X : SILValue) :
  isIdentityOrTrivialCastKind (kindOf G X)
    = strips_CastsWithoutMarkDependence G X.
Proof.
  unfold strips_CastsWithoutMarkDependence.
  destruct (kindOf G X); reflexivity.
Qed.

(** X1.  [stripCasts] applied to the top of a chain of reference-identity
    casts ([upcast], [unchecked_ref_cast], [unconditional_checked_cast],
    [unconditional_checked_cast_value], [ref_to_bridge_object],
    [bridge_object_to_ref]), trivial bitcasts and [mark_dependence]s returns
    the value under the chain, when that value is none of these and no
    block argument; [stripCastsWithoutMarkDependence] does so for chains
    without [mark_dependence], and returns a [mark_dependence] itself. *)
Theorem stripCasts_cast_chain (N : nat) (V base : SILValue) (fuel : nat) :
  isa_SILArgument (kindOf G base) = false ->
  N < fuel ->
  (OperandChain G (fun X => isCastOrMarkDependenceKind (kindOf G X)) N V base ->
   isCastOrMarkDependenceKind (kindOf G base) = false ->
   stripCasts G fuel V = Done base) /\
  (OperandChain G (fun X => isIdentityOrTrivialCastKind (kindOf G X))
     N V base ->
   isIdentityOrTrivialCastKind (kindOf G base) = false ->
   stripCastsWithoutMarkDependence G fuel V = Done base) /\
  (kindOf G base = MarkDependenceInst ->
   OperandChain G (fun X => isIdentityOrTrivialCastKind (kindOf G X))
     N V base ->
   stripCastsWithoutMarkDependence G fuel V = Done base).
Proof.
  intros Harg Hf.
  destruct fuel as [|fuel]; [lia|].
  split; [|split].
  - intros Hchain Hbase. rewrite stripCasts_peel.
    apply (OperandChain_ext _ (strips_Casts G)) in Hchain;
      [|apply strips_Casts_kinds].
    rewrite strips_Casts_kinds in Hbase.
    apply (peel_chain_end _ _ N); auto.
    + intros X HX. apply stripSinglePredecessorArgs_non_argument.
      apply strips_Casts_non_argument. exact HX.
    + apply stripSinglePredecessorArgs_non_argument. exact Harg.
  - intros Hchain Hbase. rewrite stripCastsWithoutMarkDependence_peel.
    apply (OperandChain_ext _ (strips_CastsWithoutMarkDependence G)) in Hchain;
      [|apply strips_CastsWithoutMarkDependence_kinds].
    rewrite strips_CastsWithoutMarkDependence_kinds in Hbase.
    apply (peel_chain_end _ _ N); auto.
    + intros X HX. apply stripSinglePredecessorArgs_non_argument.
      apply strips_CastsWithoutMarkDependence_non_argument. exact HX.
    + apply stripSinglePredecessorArgs_non_argument. exact Harg.
  - intros HK Hchain. rewrite stripCastsWithoutMarkDependence_peel.
    apply (OperandChain_ext _ (strips_CastsWithoutMarkDependence G)) in Hchain;
      [|apply strips_CastsWithoutMarkDependence_kinds].
    apply (peel_chain_end _ _ N); auto.
    + intros X HX. apply stripSinglePredecessorArgs_non_argument.
      apply strips_CastsWithoutMarkDependence_non_argument. exact HX.
    + apply stripSinglePredecessorArgs_non_argument. exact Harg.
    + unfold strips_CastsWithoutMarkDependence. rewrite HK. reflexivity.
Qed.

Lemma upcast_chain_non_argument (N : nat) (V base : SILValue) :
  OperandChain G (fun X => isa_UpcastInst (kindOf G X)) N V base ->
  isa_SILArgument (kindOf G base) = false ->
  isa_SILArgument (kindOf G V) = false.
Proof.
  intros H Hbase. destruct H as [W|N V V' W HV _ _]; [exact Hbase|].
  destruct (kindOf G V); simpl in *; congruence.
Qed.

Lemma stripUpCasts_loop_chain (N : nat) (V base : SILValue)
    (fuel fuel' : nat) :
  OperandChain G (fun X => isa_UpcastInst (kindOf G X)) N V base ->
  isa_UpcastInst (kindOf G base) = false ->
  isa_SILArgument (kindOf G base) = false ->
  N < fuel' ->
  while_true (stripUpCasts_body G (S fuel)) fuel' V = Done base.
Proof.
  intros Hchain Hbase Harg. revert fuel'.
  induction Hchain as [W|N V V' W HV Hop Hchain IH]; intros fuel' Hf.
  - destruct fuel' as [|fuel']; [lia|].
    apply while_true_return. unfold stripUpCasts_body.
    destruct (kindOf G W); try reflexivity. discriminate Hbase.
  - destruct fuel' as [|fuel']; [lia|].
    rewrite (while_true_continue _ fuel' V V'); [apply IH; auto; lia|].
    unfold stripUpCasts_body, operand0, getOperand.
    destruct (kindOf G V); try discriminate HV. rewrite Hop. simpl.
    rewrite stripSinglePredecessorArgs_non_argument; [reflexivity|].
    eapply upcast_chain_non_argument; eauto.
Qed.

(** X2.  [stripUpCasts] fails its assertion on a value that is not of class
    or class-metatype type, whatever the fuel; on a class value at the top
    of a chain of upcasts it returns the value under the chain, and it stops
    at any other instruction, a checked cast (a downcast) included. *)
Theorem stripUpCasts_upcast_chain (N : nat) (V base : SILValue) (fuel : nat) :
  (isClassOrClassMetatype (getType (node G V)) = false ->
   stripUpCasts G fuel V = Fatal) /\
  (isClassOrClassMetatype (getType (node G V)) = true ->
   OperandChain G (fun X => isa_UpcastInst (kindOf G X)) N V base ->
   isa_UpcastInst (kindOf G base) = false ->
   isa_SILArgument (kindOf G base) = false ->
   N < fuel ->
   stripUpCasts G fuel V = Done base).
Proof.
  split.
  - intros H. unfold stripUpCasts. rewrite H. reflexivity.
  - intros Hclass Hchain Hbase Harg Hf. unfold stripUpCasts.
    rewrite Hclass. simpl.
    destruct fuel as [|fuel]; [lia|].
    rewrite stripSinglePredecessorArgs_non_argument
      by (eapply upcast_chain_non_argument; eauto).
    change (while_true (stripUpCasts_body G (S fuel)) (S fuel) V = Done base).
    apply (stripUpCasts_loop_chain N); auto.
Qed.

(** X3.  The three strippers that do not resolve block arguments walk down
    a chain of the instructions they strip and return whatever stands under
    it, a block argument included: [stripClassCasts] through upcasts and
    unconditional checked casts, [stripIndexingInsts] through indexing
    instructions, [stripConvertFunctions] through [convert_function]s. *)
Theorem plain_strippers_chain (N : nat) (V base : SILValue) (fuel : nat) :
  N < fuel ->
  (OperandChain G (strips_ClassCasts G) N V base ->
   strips_ClassCasts G base = false ->
   stripClassCasts G fuel V = Done base) /\
  (OperandChain G (strips_IndexingInsts G) N V base ->
   strips_IndexingInsts G base = false ->
   stripIndexingInsts G fuel V = Done base) /\
  (OperandChain G (strips_ConvertFunctions G) N V base ->
   strips_ConvertFunctions G base = false ->
   stripConvertFunctions G fuel V = Done base).
Proof.
  intros Hf. split; [|split]; intros Hchain Hbase.
  - rewrite stripClassCasts_peel.
    apply (peel_chain_end _ _ N); auto.
  - rewrite stripIndexingInsts_peel.
    apply (peel_chain_end _ _ N); auto.
  - rewrite stripConvertFunctions_peel.
    apply (peel_chain_end _ _ N); auto.
Qed.

(** X4.  [stripAddressProjections] and [stripValueProjections] walk down a
    chain of projections (which are instructions, not block arguments) and
    return the value under it, when that is no projection and no block
    argument. *)
Theorem projection_strippers_chain (N : nat) (V base : SILValue)
    (fuel : nat) :
  isa_SILArgument (kindOf G base) = false ->
  N < fuel ->
  ((forall X, isAddressProjection X = true ->
              isa_SILArgument (kindOf G X) = false) ->
   OperandChain G isAddressProjection N V base ->
   isAddressProjection base = false ->
   stripAddressProjections G isAddressProjection fuel V = Done base) /\
  ((forall X, isObjectProjection X = true ->
              isa_SILArgument (kindOf G X) = false) ->
   OperandChain G isObjectProjection N V base ->
   isObjectProjection base = false ->
   stripValueProjections G isObjectProjection fuel V = Done base).
Proof.
  intros Harg Hf. destruct fuel as [|fuel]; [lia|].
  split; intros Hinst Hchain Hbase.
  - rewrite stripAddressProjections_peel.
    apply (peel_chain_end _ _ N); auto.
    + intros X HX. apply stripSinglePredecessorArgs_non_argument. auto.
    + apply stripSinglePredecessorArgs_non_argument. exact Harg.
  - rewrite stripValueProjections_peel.
    apply (peel_chain_end _ _ N); auto.
    + intros X HX. apply stripSinglePredecessorArgs_non_argument. auto.
    + apply stripSinglePredecessorArgs_non_argument. exact Harg.
Qed.

End CanonicalizerChains.

Section CanonicalizerResults.

Variable G : SILGraph.
Variable isAddressProjection : SILValue -> bool.
Variable isObjectProjection : SILValue -> bool.

Lemma stripUpCasts_result (fuel : nat) (V r : SILValue) :
  stripUpCasts G fuel V = Done r ->
  isa_UpcastInst (kindOf G r) = false /\
  stripSinglePredecessorArgs G fuel r = Done r.
Proof.
  unfold stripUpCasts. intros H.
  destruct (negb (isClassOrClassMetatype (getType (node G V))));
    [discriminate|].
  destruct (stripSinglePredecessorArgs G fuel V) as [W| |] eqn:HW;
    simpl in H; try discriminate.
  destruct (while_true_inv (stripUpCasts_body G fuel)
              (fun X => stripSinglePredecessorArgs G fuel X = Done X))
    with (fuel := fuel) (V := W) (r := r) as (V' & HV' & Hret); auto.
  - intros X X' _ Hc. apply stripUpCasts_body_continue in Hc as (op & _ & Hc).
    eapply stripSinglePredecessorArgs_idem; eauto.
  - eapply stripSinglePredecessorArgs_idem; eauto.
  - apply stripUpCasts_body_return in Hret as [-> Hret].
    split; [|exact HV'].
    unfold stripUpCasts_body in Hret.
    destruct (kindOf G V'); try reflexivity.
    destruct (operand0 G V') as [op| |]; simpl in Hret; try discriminate.
    destruct (stripSinglePredecessorArgs G fuel op); discriminate.
Qed.

(** X5.  What a stripper returns is fully stripped: the result of each
    looping stripper is no instruction of the kind it strips, and the result
    of each stripper that resolves block arguments is a value that
    [stripSinglePredecessorArgs] leaves alone. *)
Theorem strippers_results_are_stripped (fuel : nat) (V r : SILValue) :
  (stripCastsWithoutMarkDependence G fuel V = Done r ->
   isRCIdentityPreservingCast (kindOf G r) = false /\
   kindOf G r <> UncheckedTrivialBitCastInst /\
   stripSinglePredecessorArgs G fuel r = Done r) /\
  (stripCasts G fuel V = Done r ->
   isRCIdentityPreservingCast (kindOf G r) = false /\
   kindOf G r <> UncheckedTrivialBitCastInst /\
   kindOf G r <> MarkDependenceInst /\
   stripSinglePredecessorArgs G fuel r = Done r) /\
  (stripUpCasts G fuel V = Done r ->
   kindOf G r <> UpcastInst /\
   stripSinglePredecessorArgs G fuel r = Done r) /\
  (stripClassCasts G fuel V = Done r ->
   kindOf G r <> UpcastInst /\
   kindOf G r <> UnconditionalCheckedCastInst) /\
  (stripAddressProjections G isAddressProjection fuel V = Done r ->
   isAddressProjection r = false /\
   stripSinglePredecessorArgs G fuel r = Done r) /\
  (stripUnaryAddressProjections G isAddressProjection fuel V = Done r ->
   (isAddressProjection r = false \/
    1 < length (getOperands (node G r))) /\
   stripSinglePredecessorArgs G fuel r = Done r) /\
  (stripValueProjections G isObjectProjection fuel V = Done r ->
   isObjectProjection r = false /\
   stripSinglePredecessorArgs G fuel r = Done r) /\
  (stripIndexingInsts G fuel V = Done r ->
   isa_IndexingInst (kindOf G r) = false) /\
  (stripConvertFunctions G fuel V = Done r ->
   kindOf G r <> ConvertFunctionInst).
Proof.
  repeat apply conj.
  - rewrite stripCastsWithoutMarkDependence_peel. intros H.
    apply peel_result in H as [H1 H2];
      [|apply stripSinglePredecessorArgs_idem].
    unfold strips_CastsWithoutMarkDependence in H2.
    apply orb_false_iff in H2 as [H2 H3].
    repeat split; auto. intros K. rewrite K in H3. discriminate.
  - rewrite stripCasts_peel. intros H.
    apply peel_result in H as [H1 H2];
      [|apply stripSinglePredecessorArgs_idem].
    unfold strips_Casts in H2.
    apply orb_false_iff in H2 as [H2 H4].
    apply orb_false_iff in H2 as [H2 H3].
    repeat split; auto; intros K.
    + rewrite K in H3. discriminate.
    + rewrite K in H4. discriminate.
  - intros H. apply stripUpCasts_result in H as [H1 H2].
    split; [|exact H2]. intros K. rewrite K in H1. discriminate.
  - rewrite stripClassCasts_peel. intros H.
    apply peel_result in H as [_ H2]; [|intros ? ? ?; reflexivity].
    unfold strips_ClassCasts in H2.
    split; intros K; rewrite K in H2; discriminate.
  - rewrite stripAddressProjections_peel. intros H.
    apply peel_result in H as [H1 H2];
      [|apply stripSinglePredecessorArgs_idem].
    auto.
  - rewrite stripUnaryAddressProjections_peel. intros H.
    apply peel_result in H as [H1 H2];
      [|apply stripSinglePredecessorArgs_idem].
    split; [|exact H1].
    unfold strips_UnaryAddressProjections in H2.
    apply andb_false_iff in H2 as [H2|H2]; [left; exact H2|right].
    apply negb_false_iff, Nat.ltb_lt in H2. exact H2.
  - rewrite stripValueProjections_peel. intros H.
    apply peel_result in H as [H1 H2];
      [|apply stripSinglePredecessorArgs_idem].
    auto.
  - intros H. eapply stripIndexingInsts_result; eauto.
  - rewrite stripConvertFunctions_peel. intros H.
    apply peel_result in H as [_ H2]; [|intros ? ? ?; reflexivity].
    unfold strips_ConvertFunctions in H2.
    intros K. rewrite K in H2. discriminate.
Qed.

(** X6.  On an acyclic graph the result of [getUnderlyingObject] is a fixed
    point of each of the three strippers it composes, so that no cast, no
    [mark_dependence] and no resolvable block argument is left on top of it;
    the result of [getUnderlyingObjectStopAtMarkDependence] likewise, with
    the cast stripper that keeps [mark_dependence]. *)
Theorem getUnderlyingObject_result_is_fixed_point
    (V r : SILValue) (fuel : nat) :
  acyclic G ->
  (getUnderlyingObject G isAddressProjection fuel V = Done r ->
   stripCasts G fuel r = Done r /\
   stripAddressProjections G isAddressProjection fuel r = Done r /\
   stripIndexingInsts G fuel r = Done r) /\
  (getUnderlyingObjectStopAtMarkDependence G isAddressProjection fuel V
     = Done r ->
   stripCastsWithoutMarkDependence G fuel r = Done r /\
   stripAddressProjections G isAddressProjection fuel r = Done r /\
   stripIndexingInsts G fuel r = Done r).
Proof.
  intros Hacyc.
  pose proof (acyclic_descends G Hacyc) as Hdesc.
  pose proof (descends_operands G _ Hdesc) as Hop.
  pose proof (descends_incoming G _ Hdesc) as Hin.
  split; intros Hr.
  - rewrite getUnderlyingObject_fixpoint in Hr.
    apply fixpoint_result in Hr.
    apply getUnderlyingObject_step_parts in Hr as (V0 & V1 & H0 & H1 & H2).
    pose proof (stripCasts_below G _ Hop Hin _ _ _ H0) as B0.
    pose proof (stripAddressProjections_below G _ _ Hop Hin _ _ _ H1) as B1.
    pose proof (stripIndexingInsts_below G _ Hop _ _ _ H2) as B2.
    assert (V1 = r) as ->.
    { apply (below_antisym (graphDepth G)); [|exact B2].
      eapply below_trans; eauto. }
    assert (V0 = r) as ->.
    { apply (below_antisym (graphDepth G)); [exact B0|]. exact B1. }
    auto.
  - rewrite getUnderlyingObjectStopAtMarkDependence_fixpoint in Hr.
    apply fixpoint_result in Hr.
    unfold getUnderlyingObjectStopAtMarkDependence_step in Hr.
    destruct (stripCastsWithoutMarkDependence G fuel r) as [V0| |] eqn:H0;
      simpl in Hr; try discriminate.
    destruct (stripAddressProjections G isAddressProjection fuel V0)
      as [V1| |] eqn:H1; simpl in Hr; try discriminate.
    pose proof (stripCastsWithoutMarkDependence_below G _ Hop Hin _ _ _ H0)
      as B0.
    pose proof (stripAddressProjections_below G _ _ Hop Hin _ _ _ H1) as B1.
    pose proof (stripIndexingInsts_below G _ Hop _ _ _ Hr) as B2.
    assert (V1 = r) as ->.
    { apply (below_antisym (graphDepth G)); [|exact B2].
      eapply below_trans; eauto. }
    assert (V0 = r) as ->.
    { apply (below_antisym (graphDepth G)); [exact B0|]. exact B1. }
    auto.
Qed.

Lemma getUnderlyingAddressRoot_at_root (fuel : nat) (V : SILValue) :
  isa_SILArgument (kindOf G V) = false ->
  strips_Casts G V = false ->
  isa_IndexingInst (kindOf G V) = false ->
  kindOf G V <> StructElementAddrInst ->
  kindOf G V <> TupleElementAddrInst ->
  kindOf G V <> UncheckedTakeEnumDataAddrInst ->
  getUnderlyingAddressRoot G (S fuel) V = Done V.
Proof.
  intros Harg Hcast Hidx K1 K2 K3.
  apply while_true_return. unfold getUnderlyingAddressRoot_body.
  assert (stripCasts G (S fuel) V = Done V) as ->.
  { rewrite stripCasts_peel. apply while_true_return. unfold peel_body.
    rewrite stripSinglePredecessorArgs_non_argument by exact Harg.
    simpl. rewrite Hcast. reflexivity. }
  simpl.
  assert (stripIndexingInsts G (S fuel) V = Done V) as ->.
  { apply while_true_return. unfold stripIndexingInsts_body.
    rewrite Hidx. reflexivity. }
  simpl.
  destruct (kindOf G V); try congruence;
    simpl; rewrite Nat.eqb_refl; reflexivity.
Qed.

(** X7.  On an acyclic graph the result of [getUnderlyingAddressRoot] is no
    cast, no indexing instruction and no struct, tuple or enum-payload
    address projection.  Conversely every instruction that is none of those
    is its own address root: a class property ([ref_element_addr]) is not
    looked through. *)
Theorem getUnderlyingAddressRoot_roots (V r : SILValue) (fuel : nat) :
  acyclic G ->
  (getUnderlyingAddressRoot G fuel V = Done r ->
   strips_Casts G r = false /\
   isa_IndexingInst (kindOf G r) = false /\
   kindOf G r <> StructElementAddrInst /\
   kindOf G r <> TupleElementAddrInst /\
   kindOf G r <> UncheckedTakeEnumDataAddrInst) /\
  (isa_SILArgument (kindOf G V) = false ->
   strips_Casts G V = false ->
   isa_IndexingInst (kindOf G V) = false ->
   kindOf G V <> StructElementAddrInst ->
   kindOf G V <> TupleElementAddrInst ->
   kindOf G V <> UncheckedTakeEnumDataAddrInst ->
   getUnderlyingAddressRoot G (S fuel) V = Done V) /\
  (kindOf G V = RefElementAddrInst ->
   getUnderlyingAddressRoot G (S fuel) V = Done V).
Proof.
  intros Hacyc.
  pose proof (acyclic_descends G Hacyc) as Hdesc.
  pose proof (descends_operands G _ Hdesc) as Hop.
  pose proof (descends_incoming G _ Hdesc) as Hin.
  split; [|split].
  - intros Hr. rewrite getUnderlyingAddressRoot_fixpoint in Hr.
    apply fixpoint_result in Hr.
    unfold getUnderlyingAddressRoot_step in Hr.
    destruct (stripCasts G fuel r) as [V0| |] eqn:H0; simpl in Hr;
      try discriminate.
    destruct (stripIndexingInsts G fuel V0) as [V1| |] eqn:H1; simpl in Hr;
      try discriminate.
    pose proof (stripCasts_below G _ Hop Hin _ _ _ H0) as B0.
    pose proof (stripIndexingInsts_below G _ Hop _ _ _ H1) as B1.
    assert (below (graphDepth G) V1 r) as B01
      by (eapply below_trans; eauto).
    assert (Done V1 = Done r /\
            kindOf G V1 <> StructElementAddrInst /\
            kindOf G V1 <> TupleElementAddrInst /\
            kindOf G V1 <> UncheckedTakeEnumDataAddrInst) as (E & K1 & K2 & K3).
    { destruct (kindOf G V1) eqn:K;
        try (repeat split; [exact Hr|discriminate..]);
        exfalso; apply operand0_edge, Hop in Hr;
        apply below_le in B01; lia. }
    injection E as ->.
    assert (V0 = r) as ->.
    { apply (below_antisym (graphDepth G)); [exact B0|exact B1]. }
    repeat split; auto.
    + rewrite stripCasts_peel in H0.
      apply peel_result in H0 as [_ H0];
        [exact H0|apply stripSinglePredecessorArgs_idem].
    + eapply stripIndexingInsts_result; eauto.
  - apply getUnderlyingAddressRoot_at_root.
  - intros K. apply getUnderlyingAddressRoot_at_root;
      unfold strips_Casts; rewrite K; try reflexivity; discriminate.
Qed.

(** X8.  In a graph without [mark_dependence] the two cast strippers agree
    on every value, and so do [getUnderlyingObject] and
    [getUnderlyingObjectStopAtMarkDependence]. *)
Theorem mark_dependence_free_strippers_agree (fuel : nat) (V : SILValue) :
  (forall W, kindOf G W <> MarkDependenceInst) ->
  stripCasts G fuel V = stripCastsWithoutMarkDependence G fuel V /\
  getUnderlyingObject G isAddressProjection fuel V
    = getUnderlyingObjectStopAtMarkDependence G isAddressProjection fuel V.
Proof.
  intros Hno.
  assert (forall n W,
            stripCasts G n W = stripCastsWithoutMarkDependence G n W) as Heq.
  { intros n W. apply while_true_ext. intros X.
    unfold stripCasts_body, stripCastsWithoutMarkDependence_body.
    destruct (stripSinglePredecessorArgs G n X) as [Y| |]; simpl; auto.
    specialize (Hno Y).
    destruct (kindOf G Y); try reflexivity. congruence. }
  split; [apply Heq|].
  apply while_true_ext. intros X.
  unfold getUnderlyingObject_body,
    getUnderlyingObjectStopAtMarkDependence_body.
  rewrite Heq. reflexivity.
Qed.

(** X9.  When every address projection has a single operand,
    [stripUnaryAddressProjections] is [stripAddressProjections]; an address
    projection with more operands stops the former. *)
Theorem stripUnaryAddressProjections_agrees (fuel : nat) (V : SILValue) :
  ((forall W, isAddressProjection W = true ->
              length (getOperands (node G W)) <= 1) ->
   stripUnaryAddressProjections G isAddressProjection fuel V
     = stripAddressProjections G isAddressProjection fuel V) /\
  (isa_SILArgument (kindOf G V) = false ->
   isAddressProjection V = true ->
   1 < length (getOperands (node G V)) ->
   stripUnaryAddressProjections G isAddressProjection (S fuel) V = Done V).
Proof.
  split.
  - intros Hunary. apply while_true_ext. intros X.
    unfold stripUnaryAddressProjections_body, stripAddressProjections_body.
    destruct (stripSinglePredecessorArgs G fuel X) as [Y| |]; simpl; auto.
    destruct (isAddressProjection Y) eqn:HY; simpl; [|reflexivity].
    apply Hunary in HY.
    destruct (Nat.ltb_spec 1 (length (getOperands (node G Y)))); [lia|].
    reflexivity.
  - intros Harg HAP Hlen. apply while_true_return.
    unfold stripUnaryAddressProjections_body.
    rewrite stripSinglePredecessorArgs_non_argument by exact Harg.
    simpl. rewrite HAP. simpl.
    destruct (Nat.ltb_spec 1 (length (getOperands (node G V)))); [|lia].
    reflexivity.
Qed.

End CanonicalizerResults.

(** * Further properties of the formal access root resolver *)

Section AccessRootChains.

Variable G : SILGraph.

(** What one pass of the loop of [findAccessedAddressBase] does, by the
    bucket of the kind. *)
Lemma findAccessedAddressBase_body_cases (V : SILValue) :
  match findAccessedAddressBase_body G V with
  | Done (Return (Some b)) =>
      b = V /\
      (isFormalAccessBaseKind (getKind (node G V)) = true \/
       isSwitchEnumPayload G V = true)
  | Done (Return None) => isAccessNoRootKind (getKind (node G V)) = true
  | Done (Continue V') =>
      isAccessInductiveKind (getKind (node G V)) = true /\
      getOperands (node G V) !! 0 = Some V'
  | Fatal => True
  | OutOfFuel => False
  end.
Proof.
  unfold findAccessedAddressBase_body, isSwitchEnumPayload, getOperand.
  destruct (getKind (node G V)); simpl; auto;
    try (destruct (getOperands (node G V) !! 0); simpl; auto).
  all: destruct (isAddress (getType (node G V))); simpl; auto.
  all: destruct (getSinglePredecessorBlock _); simpl; auto.
  all: destruct (getTerminator _); simpl; auto.
Qed.

Lemma findAccessedAddressBase_chain (N : nat) (V W : SILValue) (fuel : nat) :
  OperandChain G (fun X => isAccessInductiveKind (getKind (node G X))) N V W ->
  N < fuel ->
  findAccessedAddressBase G fuel V = findAccessedAddressBase G (fuel - N) W.
Proof.
  intros Hchain. revert fuel.
  induction Hchain as [W|N V V' W HV Hop Hchain IH]; intros fuel Hf.
  - rewrite Nat.sub_0_r. reflexivity.
  - destruct fuel as [|fuel]; [lia|].
    unfold findAccessedAddressBase in *.
    rewrite (while_true_continue _ fuel V V').
    + rewrite IH by lia. reflexivity.
    + unfold findAccessedAddressBase_body, getOperand. rewrite Hop.
      destruct (getKind (node G V)); try discriminate HV; reflexivity.
Qed.

(** X10.  [findAccessedAddressBase] looks through any chain of the
    instructions of its inductive cases -- address casts, [copy_value],
    [mark_dependence], box and block-storage projections, [begin_borrow],
    subobject projections -- and answers for the value under the chain: that
    value when it is of a base kind or the payload argument of a
    [switch_enum], "no root" when it is a value-to-address conversion or a
    local initialization. *)
Theorem findAccessedAddressBase_inductive_chain
    (N : nat) (V W : SILValue) (fuel : nat) :
  OperandChain G (fun X => isAccessInductiveKind (getKind (node G X))) N V W ->
  N < fuel ->
  (isFormalAccessBaseKind (getKind (node G W)) = true ->
   findAccessedAddressBase G fuel V = Done (Some W)) /\
  (isSwitchEnumPayload G W = true ->
   findAccessedAddressBase G fuel V = Done (Some W)) /\
  (isAccessNoRootKind (getKind (node G W)) = true ->
   findAccessedAddressBase G fuel V = Done None).
Proof.
  intros Hchain Hf.
  rewrite (findAccessedAddressBase_chain N V W fuel Hchain Hf).
  destruct (fuel - N) as [|k] eqn:E; [lia|].
  split; [|split]; intros HW; apply while_true_return.
  - unfold findAccessedAddressBase_body.
    destruct (getKind (node G W)); try discriminate HW; reflexivity.
  - unfold isSwitchEnumPayload in HW. unfold findAccessedAddressBase_body.
    destruct (getKind (node G W)); try discriminate HW.
    destruct (isAddress (getType (node G W))); [discriminate|].
    destruct (getSinglePredecessorBlock _); [|discriminate].
    destruct (getTerminator _); try discriminate HW. reflexivity.
  - unfold findAccessedAddressBase_body.
    destruct (getKind (node G W)); try discriminate HW; reflexivity.
Qed.

(** X11.  Whatever [findAccessedAddressBase] returns was found under a
    chain of inductive instructions: a returned base is of a base kind or is
    the payload argument of a [switch_enum], never one of the instructions
    looked through; "no root" comes from a value-to-address conversion or a
    local initialization at the end of the chain. *)
Theorem findAccessedAddressBase_result (fuel : nat) (V : SILValue)
    (res : option SILValue) :
  findAccessedAddressBase G fuel V = Done res ->
  exists N W,
    OperandChain G (fun X => isAccessInductiveKind (getKind (node G X)))
      N V W /\
    match res with
    | Some b =>
        b = W /\
        (isFormalAccessBaseKind (getKind (node G W)) = true \/
         isSwitchEnumPayload G W = true) /\
        isAccessInductiveKind (getKind (node G b)) = false
    | None => isAccessNoRootKind (getKind (node G W)) = true
    end.
Proof.
  revert V. induction fuel as [|fuel IH]; intros V H; [discriminate|].
  unfold findAccessedAddressBase in *. rewrite while_true_S in H.
  pose proof (findAccessedAddressBase_body_cases V) as Hb.
  destruct (findAccessedAddressBase_body G V) as [[V'|r]| |];
    try discriminate.
  - destruct Hb as [Hk Hop].
    destruct (IH V' H) as (N & W & Hchain & Hres).
    exists (S N), W. split; [|exact Hres].
    eapply operand_chain_step; eauto.
  - injection H as ->. exists 0, V. split; [apply operand_chain_end|].
    destruct res as [b|]; [|exact Hb].
    destruct Hb as [-> Hb]. repeat split; [exact Hb|].
    destruct Hb as [Hb|Hb].
    + destruct (getKind (node G V)); try discriminate Hb; reflexivity.
    + unfold isSwitchEnumPayload in Hb.
      destruct (getKind (node G V)); try discriminate Hb; reflexivity.
Qed.

End AccessRootChains.

Lemma castGraph_examples :
  OperandChain castGraph (strips_Casts castGraph) 6 6 0 /\
  OperandChain castGraph (strips_CastsWithoutMarkDependence castGraph) 3 6 3 /\
  OperandChain castGraph (fun X => isa_UpcastInst (kindOf castGraph X)) 2 6 4 /\
  OperandChain castGraph (strips_ClassCasts castGraph) 3 6 3.
Proof.
  repeat apply conj;
    repeat (eapply operand_chain_step; [reflexivity|reflexivity|]);
    apply operand_chain_end.
Qed.

Lemma identityCastGraph_chains :
  OperandChain identityCastGraph
    (fun X => isCastOrMarkDependenceKind (kindOf identityCastGraph X)) 9 9 0 /\
  OperandChain identityCastGraph
    (fun X => isIdentityOrTrivialCastKind (kindOf identityCastGraph X)) 7 7 0 /\
  OperandChain identityCastGraph
    (fun X => isIdentityOrTrivialCastKind (kindOf identityCastGraph X)) 1 9 8.
Proof.
  repeat apply conj;
    repeat (eapply operand_chain_step; [reflexivity|reflexivity|]);
    apply operand_chain_end.
Qed.

(** Through one cast of each kind: [stripCasts] walks from [%9] down to the
    [apply], [stripCastsWithoutMarkDependence] from [%7] down to it, and
    from [%9] only to the [mark_dependence]. *)
Lemma stripCasts_cast_chain_witness :
  stripCasts identityCastGraph 10 9 = Done 0 /\
  stripCastsWithoutMarkDependence identityCastGraph 8 7 = Done 0 /\
  stripCastsWithoutMarkDependence identityCastGraph 10 9 = Done 8.
Proof.
  destruct identityCastGraph_chains as (H1 & H2 & H3).
  split; [|split].
  - apply (proj1 (stripCasts_cast_chain identityCastGraph 9 9 0 10 eq_refl
                    ltac:(lia)) H1).
    reflexivity.
  - apply (proj1 (proj2 (stripCasts_cast_chain identityCastGraph 7 7 0 8
                           eq_refl ltac:(lia))) H2).
    reflexivity.
  - apply (proj2 (proj2 (stripCasts_cast_chain identityCastGraph 1 9 8 10
                           eq_refl ltac:(lia))) eq_refl H3).
Defined.

Lemma stripUpCasts_upcast_chain_witness :
  stripUpCasts castGraph 7 6 = Done 4 /\
  stripUpCasts accessGraph 7 4 = Fatal.
Proof.
  destruct castGraph_examples as (_ & _ & H3 & _).
  split.
  - apply (proj2 (stripUpCasts_upcast_chain castGraph 2 6 4 7) eq_refl H3);
      [reflexivity|reflexivity|lia].
  - apply (proj1 (stripUpCasts_upcast_chain accessGraph 0 4 4 7)).
    reflexivity.
Defined.

Lemma plain_strippers_chain_witness :
  stripClassCasts castGraph 7 6 = Done 3 /\
  stripIndexingInsts accessGraph 3 10 = Done 8 /\
  stripConvertFunctions blockClosureGraph 3 10 = Done 2.
Proof.
  destruct castGraph_examples as (_ & _ & _ & H4).
  split; [|split].
  - apply (proj1 (plain_strippers_chain castGraph 3 6 3 7 ltac:(lia)) H4).
    reflexivity.
  - apply (proj1 (proj2 (plain_strippers_chain accessGraph 1 10 8 3
                           ltac:(lia)))); [|reflexivity].
    eapply operand_chain_step; [reflexivity|reflexivity|].
    apply operand_chain_end.
  - apply (proj2 (proj2 (plain_strippers_chain blockClosureGraph 2 10 2 3
                           ltac:(lia)))); [|reflexivity].
    repeat (eapply operand_chain_step; [reflexivity|reflexivity|]).
    apply operand_chain_end.
Defined.

Lemma projection_strippers_chain_witness :
  stripAddressProjections projectionGraph
    (Projection_isAddressProjection projectionGraph) 6 5 = Done 0 /\
  stripValueProjections valueProjectionGraph
    (Projection_isObjectProjection valueProjectionGraph) 3 1 = Done 0.
Proof.
  split.
  - apply (proj1 (projection_strippers_chain projectionGraph
                    (Projection_isAddressProjection projectionGraph)
                    (Projection_isObjectProjection projectionGraph)
                    4 5 0 6 eq_refl ltac:(lia))).
    + intros X HX. unfold Projection_isAddressProjection in HX.
      destruct (kindOf projectionGraph X); try discriminate HX; reflexivity.
    + repeat (eapply operand_chain_step; [reflexivity|reflexivity|]).
      apply operand_chain_end.
    + reflexivity.
  - apply (proj2 (projection_strippers_chain valueProjectionGraph
                    (Projection_isAddressProjection valueProjectionGraph)
                    (Projection_isObjectProjection valueProjectionGraph)
                    1 1 0 3 eq_refl ltac:(lia))).
    + intros X HX. unfold Projection_isObjectProjection in HX.
      destruct (kindOf valueProjectionGraph X); try discriminate HX;
        reflexivity.
    + eapply operand_chain_step; [reflexivity|reflexivity|].
      apply operand_chain_end.
    + reflexivity.
Defined.

(** * Further properties of the closure origin resolver *)

Section ClosureMore.

Variable G : SILGraph.
Variable isReferenceCounted : SILType -> bool.

Lemma findClosureForAppliedArg_S (fuel : nat) (V : SILValue) :
  findClosureForAppliedArg G isReferenceCounted (S fuel) V =
  letO V := match getKind (node G V) with
            | BeginBorrowInst => getOperand (node G V) 0
            | _ => Done V
            end in
  letO V := match getOptionalObjectType (getType (node G V)) with
            | Some _ =>
                match getKind (node G V) with
                | EnumInst => getOperand (node G V) 0
                | _ => Fatal
                end
            | None => Done V
            end in
  match getAs_SILFunctionType (getSwiftRValueType (getType (node G V))) with
  | None => Fatal
  | Some rep =>
      letO V := if isBlockRepresentation rep
                then findClosureStoredIntoBlock G (S fuel) V
                else Done (Some V) in
      match V with
      | None => Done (mkFindClosureResult None false)
      | Some V =>
          letO pai := stripConvertFunctions G (S fuel) V in
          if isa_PartialApplyInst (getKind (node G pai)) then
            letO thunkArg :=
              isPartialApplyOfReabstractionThunk G isReferenceCounted pai in
            match thunkArg with
            | Some thunkArg =>
                letO result :=
                  findClosureForAppliedArg G isReferenceCounted fuel thunkArg in
                Done (mkFindClosureResult (PAI result) true)
            | None => Done (mkFindClosureResult (Some pai) false)
            end
          else Done (mkFindClosureResult None false)
      end
  end.
Proof.
  simpl.
  destruct (match getKind (node G V) with
            | BeginBorrowInst => getOperand (node G V) 0
            | _ => Done V
            end) as [V1| |]; simpl; auto.
  destruct (match getOptionalObjectType (getType (node G V1)) with
            | Some _ =>
                match getKind (node G V1) with
                | EnumInst => getOperand (node G V1) 0
                | _ => Fatal
                end
            | None => Done V1
            end) as [V2| |]; simpl; auto.
  destruct (getAs_SILFunctionType (getSwiftRValueType (getType (node G V2))))
    as [rep|]; auto.
  destruct (if isBlockRepresentation rep
            then findClosureStoredIntoBlock G (S fuel) V2
            else Done (Some V2)) as [[V3|]| |]; simpl; auto.
  destruct (stripConvertFunctions G (S fuel) V3) as [pai| |]; simpl; auto.
  destruct (getKind (node G pai)); reflexivity.
Qed.

Ltac step_bind H :=
  match type of H with
  | bindO ?m _ = _ =>
      let E := fresh "E" in
      destruct m eqn:E; unfold bindO at 1 in H; cbv beta iota in H;
      try discriminate H
  end.

(** One level of [findClosureForAppliedArg]: "no closure", a partial
    application that is no thunk application, or the result of the level
    below behind a thunk application. *)
Lemma findClosureForAppliedArg_step (fuel : nat) (V : SILValue)
    (res : FindClosureResult) :
  findClosureForAppliedArg G isReferenceCounted (S fuel) V = Done res ->
  res = mkFindClosureResult None false \/
  (exists pai,
     getKind (node G pai) = PartialApplyInst /\
     isPartialApplyOfReabstractionThunk G isReferenceCounted pai = Done None /\
     res = mkFindClosureResult (Some pai) false) \/
  (exists pai a r',
     getKind (node G pai) = PartialApplyInst /\
     isPartialApplyOfReabstractionThunk G isReferenceCounted pai
       = Done (Some a) /\
     findClosureForAppliedArg G isReferenceCounted fuel a = Done r' /\
     res = mkFindClosureResult (PAI r') true).
Proof.
  intros H. rewrite findClosureForAppliedArg_S in H.
  step_bind H. step_bind H.
  destruct (getAs_SILFunctionType _) as [rep|]; [|discriminate H].
  step_bind H.
  match type of H with
  | match ?o with _ => _ end = _ => destruct o as [V3|]
  end; [|injection H as <-; left; reflexivity].
  step_bind H.
  destruct (isa_PartialApplyInst (getKind (node G a1))) eqn:K;
    [|injection H as <-; left; reflexivity].
  assert (getKind (node G a1) = PartialApplyInst) as K'.
  { destruct (getKind (node G a1)); try discriminate K; reflexivity. }
  step_bind H.
  match type of H with
  | match ?o with _ => _ end = _ => destruct o as [thunkArg|]
  end.
  - step_bind H. injection H as <-.
    right. right. eauto 10.
  - injection H as <-. right. left. eauto.
Qed.

(** X12.  A closure that [findClosureForAppliedArg] returns is a partial
    application that is not itself the application of a reabstraction thunk
    to a closure -- it is not a one-argument application of a
    [function_ref] flagged as a reabstraction thunk to a reference-counted
    function value: thunks are never returned, only looked through. *)
Theorem findClosureForAppliedArg_returns_closure (fuel : nat) (V p : SILValue)
    (res : FindClosureResult) :
  findClosureForAppliedArg G isReferenceCounted fuel V = Done res ->
  PAI res = Some p ->
  getKind (node G p) = PartialApplyInst /\
  forall a, ~ isThunkApplication G isReferenceCounted p a.
Proof.
  revert V res. induction fuel as [|fuel IH]; intros V res H Hp;
    [discriminate|].
  apply findClosureForAppliedArg_step in H
    as [->|[(pai & K & T & ->)|(pai & a & r' & K & T & Hr & ->)]].
  - discriminate.
  - injection Hp as <-. split; [exact K|].
    apply isPartialApplyOfReabstractionThunk_none. exact T.
  - simpl in Hp. eapply IH; eauto.
Qed.

Lemma bindO_Done {A B} (a : A) (k : A -> Outcome B) : bindO (Done a) k = k a.
Proof. reflexivity. Qed.







(** X14.  [isPartialApplyOfReabstractionThunk] always returns, and it
    returns an argument exactly when the partial application has one
    argument, its callee is a [function_ref] to a function flagged as a
    reabstraction thunk, and the argument is a reference-counted value of
    function type: then it returns that argument.  A callee that is no
    [function_ref], a plain thunk, or a second argument give null. *)
Theorem isPartialApplyOfReabstractionThunk_spec (p a : SILValue) :
  (isPartialApplyOfReabstractionThunk G isReferenceCounted p = Done (Some a)
   <-> isThunkApplication G isReferenceCounted p a) /\
  (exists r,
     isPartialApplyOfReabstractionThunk G isReferenceCounted p = Done r) /\
  (length (getOperands (node G p)) <> 2 ->
   isPartialApplyOfReabstractionThunk G isReferenceCounted p = Done None).
Proof.
  split; [|split].
  - split.
    + apply isPartialApplyOfReabstractionThunk_inv.
    + apply isPartialApplyOfReabstractionThunk_intro.
  - apply isPartialApplyOfReabstractionThunk_returns.
  - intros Hlen. unfold isPartialApplyOfReabstractionThunk, getNumArguments.
    destruct (Nat.eqb_spec (length (getOperands (node G p)) - 1) 1) as [E|E];
      simpl; [|reflexivity].
    lia.
Qed.

Lemma hasNonBlockFunctionType_inv (V : SILValue) :
  hasNonBlockFunctionType G V = true ->
  exists rep,
    getSwiftRValueType (getType (node G V)) = SILFunctionType rep /\
    isBlockRepresentation rep = false.
Proof.
  unfold hasNonBlockFunctionType. intros H.
  destruct (getSwiftRValueType (getType (node G V))) as [rep| | | | |];
    try discriminate.
  exists rep. split; [reflexivity|]. apply negb_true_iff. exact H.
Qed.

Lemma findClosureForAppliedArg_at_thunk (fuel : nat) (t a : SILValue) :
  getKind (node G t) = PartialApplyInst ->
  hasNonBlockFunctionType G t = true ->
  isThunkApplication G isReferenceCounted t a ->
  findClosureForAppliedArg G isReferenceCounted (S fuel) t
    = letO result := findClosureForAppliedArg G isReferenceCounted fuel a in
      Done (mkFindClosureResult (PAI result) true).
Proof.
  intros K HT (callee & Hops & Kc & T & Ty & RC).
  destruct (hasNonBlockFunctionType_inv t HT) as (rept & Et & Bt).
  destruct (getSwiftRValueType (getType (node G a))) as [rep| | | | |] eqn:E;
    try discriminate Ty.
  eapply findClosureForAppliedArg_thunk; eauto.
Qed.

(** X15.  [findClosureForAppliedArg] follows a chain of reabstraction
    thunks of any length: for a partial application that wraps the closure
    [c] -- a partial application that is no thunk application itself -- in
    [N] thunks it returns [c], with the thunk flag set exactly when [N] is
    not zero. *)
Theorem findClosureForAppliedArg_thunk_chain
    (N : nat) (t c : SILValue) (fuel : nat) :
  ThunkChain G isReferenceCounted N t c ->
  getKind (node G c) = PartialApplyInst ->
  hasNonBlockFunctionType G c = true ->
  (forall a, ~ isThunkApplication G isReferenceCounted c a) ->
  N < fuel ->
  findClosureForAppliedArg G isReferenceCounted fuel t
    = Done (mkFindClosureResult (Some c) (negb (Nat.eqb N 0))).
Proof.
  intros Hchain Kc Tc Dc.
  apply isPartialApplyOfReabstractionThunk_none in Dc. revert fuel.
  induction Hchain as [c|N t a c Kt Tt Ht Hchain IH]; intros fuel Hf.
  - destruct fuel as [|fuel]; [lia|].
    destruct (hasNonBlockFunctionType_inv c Tc) as (rep & E & B).
    eapply findClosureForAppliedArg_direct; eauto.
  - destruct fuel as [|fuel]; [lia|].
    rewrite (findClosureForAppliedArg_at_thunk fuel t a Kt Tt Ht).
    rewrite IH by (auto; lia). reflexivity.
Qed.

Lemma stripConvertFunctions_chain (N : nat) (V t : SILValue) (fuel : nat) :
  OperandChain G (strips_ConvertFunctions G) N V t ->
  strips_ConvertFunctions G t = false ->
  N < fuel ->
  stripConvertFunctions G fuel V = Done t.
Proof.
  intros Hchain Ht Hf. rewrite stripConvertFunctions_peel.
  apply (peel_chain_end G _ _ N); auto.
Qed.

Lemma findClosureForAppliedArg_tail (fuel : nat) (t : SILValue) :
  getKind (node G t) = PartialApplyInst ->
  hasNonBlockFunctionType G t = true ->
  findClosureForAppliedArg G isReferenceCounted (S fuel) t =
  letO thunkArg :=
    isPartialApplyOfReabstractionThunk G isReferenceCounted t in
  match thunkArg with
  | Some thunkArg =>
      letO result :=
        findClosureForAppliedArg G isReferenceCounted fuel thunkArg in
      Done (mkFindClosureResult (PAI result) true)
  | None => Done (mkFindClosureResult (Some t) false)
  end.
Proof.
  intros K HT.
  destruct (hasNonBlockFunctionType_inv t HT) as (rep & E & B).
  rewrite (findClosureForAppliedArg_head G isReferenceCounted fuel t rep);
    [|congruence|exact E].
  rewrite B, bindO_Done.
  rewrite stripConvertFunctions_at_other by congruence.
  rewrite bindO_Done, K. reflexivity.
Qed.

(** X16.  [findClosureForAppliedArg] looks through function conversions:
    for a function value (not of the block representation) on top of a
    chain of [convert_function]s over a partial application it answers as
    for that partial application. *)
Theorem findClosureForAppliedArg_through_conversions
    (N : nat) (V t : SILValue) (fuel : nat) :
  getKind (node G V) <> BeginBorrowInst ->
  hasNonBlockFunctionType G V = true ->
  OperandChain G (strips_ConvertFunctions G) N V t ->
  getKind (node G t) = PartialApplyInst ->
  hasNonBlockFunctionType G t = true ->
  N <= fuel ->
  findClosureForAppliedArg G isReferenceCounted (S fuel) V
    = findClosureForAppliedArg G isReferenceCounted (S fuel) t.
Proof.
  intros KV TV Hchain Kt Tt Hf.
  rewrite (findClosureForAppliedArg_tail fuel t Kt Tt).
  destruct (hasNonBlockFunctionType_inv V TV) as (rep & E & B).
  rewrite (findClosureForAppliedArg_head G isReferenceCounted fuel V rep KV E).
  rewrite B, bindO_Done.
  rewrite (stripConvertFunctions_chain N V t (S fuel) Hchain);
    [|unfold strips_ConvertFunctions, kindOf; rewrite Kt; reflexivity|lia].
  rewrite bindO_Done, Kt. reflexivity.
Qed.

(** X17.  The block pattern, found: for a block value that stands before
    any number of [copy_block]s of an [init_block_storage_header] whose
    storage has a single [project_block_storage] user with a single [store]
    user, [findClosureForAppliedArg] answers as for the partial application
    under the [convert_function]s of the stored value. *)
Theorem findClosureForAppliedArg_stored_closure_found
    (N M : nat) (V W BlockStorage PBSI SI Src t : SILValue) (fuel : nat) :
  getKind (node G V) <> BeginBorrowInst ->
  getSwiftRValueType (getType (node G V)) = SILFunctionType Block ->
  BehindBlockCopies G N V W ->
  getKind (node G W) = InitBlockStorageHeaderInst ->
  getOperands (node G W) !! 0 = Some BlockStorage ->
  getSingleUserOfType G isa_ProjectBlockStorageInst BlockStorage = Some PBSI ->
  getSingleUserOfType G isa_StoreInst PBSI = Some SI ->
  getOperands (node G SI) !! 0 = Some Src ->
  OperandChain G (strips_ConvertFunctions G) M Src t ->
  getKind (node G t) = PartialApplyInst ->
  hasNonBlockFunctionType G t = true ->
  N <= fuel -> M <= fuel ->
  findClosureForAppliedArg G isReferenceCounted (S fuel) V
    = findClosureForAppliedArg G isReferenceCounted (S fuel) t.
Proof.
  intros KV TV Hcopies KW HS HP HSI Hsrc Hchain Kt Tt HN HM.
  rewrite (findClosureForAppliedArg_tail fuel t Kt Tt).
  rewrite (findClosureForAppliedArg_head G isReferenceCounted fuel V Block
             KV TV).
  assert (findClosureStoredIntoBlock G (S fuel) V = Done (Some Src)) as ->.
  { rewrite (findClosureStoredIntoBlock_chain G N V W (S fuel) TV Hcopies)
      by lia.
    rewrite KW. unfold getOperand. simpl. rewrite HS. simpl.
    rewrite HP, HSI, Hsrc. reflexivity. }
  simpl isBlockRepresentation. cbv iota. rewrite bindO_Done.
  rewrite (stripConvertFunctions_chain M Src t (S fuel) Hchain);
    [|unfold strips_ConvertFunctions, kindOf; rewrite Kt; reflexivity|lia].
  rewrite bindO_Done, Kt. reflexivity.
Qed.

(** X18.  On a graph with acyclic operand edges and without values of the
    block representation, the recursion of [findClosureForAppliedArg]
    through reabstraction thunks ends: with fuel above the operand depth of
    the value it is never cut off. *)
Theorem findClosureForAppliedArg_terminates (V : SILValue) (fuel : nat) :
  operandAcyclic G ->
  (forall W,
     getAs_SILFunctionType (getSwiftRValueType (getType (node G W)))
       <> Some Block) ->
  operandDepth G V < fuel ->
  findClosureForAppliedArg G isReferenceCounted fuel V <> OutOfFuel.
Proof.
  intros Hacyc Hnoblock.
  pose proof (operandAcyclic_descends G Hacyc) as Hop.
  revert V. induction fuel as [|fuel IH]; intros V Hf; [lia|].
  rewrite findClosureForAppliedArg_S.
  assert (forall X Y, getOperand (node G X) 0 = Done Y ->
                      operandDepth G Y < operandDepth G X) as Hop0.
  { intros X Y H. apply Hop. apply (operand0_edge G X Y). exact H. }
  assert (forall X, getOperand (node G X) 0 <> OutOfFuel) as Hnf.
  { intros X. unfold getOperand.
    destruct (getOperands (node G X) !! 0); discriminate. }
  destruct (match getKind (node G V) with
            | BeginBorrowInst => getOperand (node G V) 0
            | _ => Done V
            end) as [V1| |] eqn:E1; simpl; try discriminate.
  2:{ destruct (getKind (node G V)); try discriminate E1.
      exfalso. eapply Hnf; eauto. }
  assert (operandDepth G V1 <= operandDepth G V) as L1.
  { destruct (getKind (node G V));
      try (injection E1 as <-; lia).
    apply Hop0 in E1. lia. }
  destruct (match getOptionalObjectType (getType (node G V1)) with
            | Some _ =>
                match getKind (node G V1) with
                | EnumInst => getOperand (node G V1) 0
                | _ => Fatal
                end
            | None => Done V1
            end) as [V2| |] eqn:E2; simpl; try discriminate.
  2:{ destruct (getOptionalObjectType (getType (node G V1)));
        [|discriminate E2].
      destruct (getKind (node G V1)); try discriminate E2.
      exfalso. eapply Hnf; eauto. }
  assert (operandDepth G V2 <= operandDepth G V1) as L2.
  { destruct (getOptionalObjectType (getType (node G V1)));
      [|injection E2 as <-; lia].
    destruct (getKind (node G V1)); try discriminate E2.
    apply Hop0 in E2. lia. }
  destruct (getAs_SILFunctionType (getSwiftRValueType (getType (node G V2))))
    as [rep|] eqn:ER; [|discriminate].
  assert (isBlockRepresentation rep = false) as ->.
  { destruct rep; try reflexivity. exfalso. eapply Hnoblock; eauto. }
  rewrite bindO_Done.
  destruct (stripConvertFunctions G (S fuel) V2) as [pai| |] eqn:E3;
    simpl; try discriminate.
  2:{ exfalso.
      eapply (stripConvertFunctions_terminates G _ Hop (S fuel) V2);
        [lia|exact E3]. }
  assert (operandDepth G pai <= operandDepth G V2) as L3.
  { rewrite stripConvertFunctions_peel in E3.
    apply (peel_below G _ Hop) in E3; [apply below_le; exact E3|].
    intros X r [= ->]. apply below_refl. }
  destruct (isa_PartialApplyInst (getKind (node G pai))); [|discriminate].
  destruct (isPartialApplyOfReabstractionThunk G isReferenceCounted pai)
    as [[a|]| |] eqn:Ha; simpl; try discriminate.
  2:{ destruct (isPartialApplyOfReabstractionThunk_returns G isReferenceCounted
                   pai) as [r Hr].
      congruence. }
  destruct (findClosureForAppliedArg G isReferenceCounted fuel a)
    as [r| |] eqn:E4; simpl; try discriminate.
  exfalso. apply (IH a); [|exact E4].
  assert (operandDepth G a < operandDepth G pai); [|lia].
  apply isPartialApplyOfReabstractionThunk_inv in Ha
    as (callee & Hops & _).
  apply Hop. unfold operandsOf. rewrite Hops.
  apply list_elem_of_further, list_elem_of_here.
Qed.

End ClosureMore.

(** * Further properties of the ownership-dialect evaluator *)

Lemma evaluate_flags (E E' : FunctionOwnershipEvaluator) (I : SILNode)
    (b : bool) :
  evaluate E I = Done (b, E') ->
  F E' = F E /\
  (hasQualifiedOwnership E = false -> hasQualifiedOwnership E' = false) /\
  (HasOwnershipQualifiedInstruction E = true ->
   HasOwnershipQualifiedInstruction E' = true) /\
  ((HasOwnershipQualifiedInstruction E = true ->
    hasQualifiedOwnership E = true) ->
   HasOwnershipQualifiedInstruction E' = true ->
   hasQualifiedOwnership E' = true).
Proof.
  unfold evaluate. intros H.
  destruct (negb (Nat.eqb (getFunction I) (F E))); [discriminate|].
  destruct E as [Fn q e]. simpl in *.
  destruct (OwnershipQualifiedKindVisitor_visit I), q, e; simpl in H;
    injection H as <- <-; simpl; repeat split; auto; discriminate.
Qed.

(** X19.  The flags of the evaluator only move one way: over any run the
    function stays the same, a function that has unqualified ownership
    never becomes qualified again, the evidence flag is never cleared, and
    evidence of qualified instructions is only ever recorded for a function
    with qualified ownership -- so an evaluator that starts fresh is never
    in the state "unqualified with qualified evidence". *)
Theorem evaluateAll_flags_monotone
    (E E' : FunctionOwnershipEvaluator) (Is : list SILNode)
    (rs : list bool) :
  evaluateAll E Is = Done (rs, E') ->
  F E' = F E /\
  length rs = length Is /\
  (hasQualifiedOwnership E = false -> hasQualifiedOwnership E' = false) /\
  (HasOwnershipQualifiedInstruction E = true ->
   HasOwnershipQualifiedInstruction E' = true) /\
  ((HasOwnershipQualifiedInstruction E = true ->
    hasQualifiedOwnership E = true) ->
   HasOwnershipQualifiedInstruction E' = true ->
   hasQualifiedOwnership E' = true).
Proof.
  revert E rs. induction Is as [|I Is IH]; intros E rs H.
  - injection H as <- <-. repeat split; auto.
  - simpl in H.
    destruct (evaluate E I) as [[b E1]| |] eqn:HE; simpl in H;
      try discriminate.
    destruct (evaluateAll E1 Is) as [[rs1 E2]| |] eqn:HR; simpl in H;
      try discriminate.
    injection H as <- <-.
    apply evaluate_flags in HE as (F1 & Q1 & V1 & I1).
    apply IH in HR as (F2 & L2 & Q2 & V2 & I2).
    repeat split; simpl; auto; congruence.
Qed.

Lemma evaluateAll_accepts_from (Is : list SILNode)
    (E : FunctionOwnershipEvaluator) :
  Forall (fun I => getFunction I = F E) Is ->
  exists rs E',
    evaluateAll E Is = Done (rs, E') /\
    forallb id rs =
    match dialectState E with
    | QualifiedNoEvidence =>
        negb (existsb isQualifiedInst Is && existsb isUnqualifiedInst Is)
    | QualifiedWithEvidence => negb (existsb isUnqualifiedInst Is)
    | StateUnqualified => negb (existsb isQualifiedInst Is)
    end.
Proof.
  revert E. induction Is as [|I Is IH]; intros E HF.
  - exists [], E. split; [reflexivity|].
    destruct (dialectState E); reflexivity.
  - apply Forall_cons in HF as [HI HF].
    destruct (evaluate_simulates E I HI) as (E1 & HE & HS & HF1 & _).
    destruct (IH E1) as (rs & E2 & HR & Hacc).
    { rewrite HF1. exact HF. }
    eexists _, E2. split.
    + simpl. rewrite HE. simpl. rewrite HR. reflexivity.
    + clear IH HE HR. simpl forallb. rewrite Hacc, HS. simpl existsb.
      remember (existsb isQualifiedInst Is) as q.
      remember (existsb isUnqualifiedInst Is) as u.
      unfold isQualifiedInst, isUnqualifiedInst.
      destruct (OwnershipQualifiedKindVisitor_visit I),
        (dialectState E), q, u; reflexivity.
Qed.

(** X20.  The evaluator accepts every instruction of a function, starting
    fresh, exactly when the function does not mix the two dialects: when
    not both a qualified and an unqualified instruction occur.  From the
    state with qualified evidence it accepts all exactly when no
    unqualified instruction occurs, from the unqualified state exactly when
    no qualified one does. *)
Theorem evaluateAll_accepts_iff_unmixed (Fn : SILFunctionRef)
    (Is : list SILNode) :
  Forall (fun I => getFunction I = Fn) Is ->
  (exists rs E',
     evaluateAll (newEvaluator Fn) Is = Done (rs, E') /\
     forallb id rs =
     negb (existsb isQualifiedInst Is && existsb isUnqualifiedInst Is)) /\
  (forall E, F E = Fn ->
     exists rs E',
       evaluateAll E Is = Done (rs, E') /\
       forallb id rs =
       match dialectState E with
       | QualifiedNoEvidence =>
           negb (existsb isQualifiedInst Is && existsb isUnqualifiedInst Is)
       | QualifiedWithEvidence => negb (existsb isUnqualifiedInst Is)
       | StateUnqualified => negb (existsb isQualifiedInst Is)
       end).
Proof.
  intros HF. split.
  - destruct (evaluateAll_accepts_from Is (newEvaluator Fn) HF)
      as (rs & E' & H1 & H2).
    exists rs, E'. split; [exact H1|exact H2].
  - intros E HE. apply evaluateAll_accepts_from. rewrite HE. exact HF.
Qed.

(** X21.  An instruction to which ownership qualification does not apply
    is accepted wherever it stands and changes nothing around it: the
    answers and the final state of a run with such an instruction inserted
    are those of the run without it, with one more [true] at its place. *)
Theorem evaluateAll_not_applicable_neutral
    (E : FunctionOwnershipEvaluator) (I : SILNode) (l1 l2 : list SILNode) :
  OwnershipQualifiedKindVisitor_visit I = NotApplicable ->
  getFunction I = F E ->
  evaluateAll E (l1 ++ I :: l2) =
  letO r := evaluateAll E (l1 ++ l2) in
  Done (take (length l1) (fst r) ++ true :: drop (length l1) (fst r), snd r).
Proof.
  intros HNA. revert E. induction l1 as [|J l1 IH]; intros E HI.
  - simpl. unfold evaluate. rewrite HI, Nat.eqb_refl, HNA. simpl.
    destruct (evaluateAll E l2) as [[rs E2]| |]; reflexivity.
  - simpl.
    destruct (evaluate E J) as [[b E1]| |] eqn:HE; simpl; try reflexivity.
    pose proof (evaluate_flags _ _ _ _ HE) as (HF & _).
    rewrite IH by congruence.
    destruct (evaluateAll E1 (l1 ++ l2)) as [[rs E2]| |]; reflexivity.
Qed.

(** * The further properties on the example graphs *)

Lemma accessGraph_acyclic : acyclic accessGraph.
Proof.
  apply (descends_acyclic _ handleRank). apply check_descends_sound.
  reflexivity.
Qed.

Lemma closureGraph_operandAcyclic : operandAcyclic closureGraph.
Proof.
  apply (descendsAlong_acyclic _ handleRank). apply descends_operands.
  apply check_descends_sound. reflexivity.
Qed.

Lemma strippers_results_are_stripped_witness :
  isRCIdentityPreservingCast (kindOf castGraph 0) = false /\
  kindOf castGraph 3 <> UpcastInst /\
  isa_IndexingInst (kindOf accessGraph 8) = false.
Proof.
  pose proof (strippers_results_are_stripped castGraph
                (Projection_isAddressProjection castGraph)
                (Projection_isObjectProjection castGraph) 7 6 0) as H0.
  pose proof (strippers_results_are_stripped castGraph
                (Projection_isAddressProjection castGraph)
                (Projection_isObjectProjection castGraph) 7 6 3) as H3.
  pose proof (strippers_results_are_stripped accessGraph
                (Projection_isAddressProjection accessGraph)
                (Projection_isObjectProjection accessGraph) 3 10 8) as H8.
  split; [|split].
  - apply (proj1 (proj2 H0)). reflexivity.
  - apply (proj1 (proj2 (proj2 (proj2 H3)))). reflexivity.
  - apply (proj1 (proj2 (proj2 (proj2 (proj2 (proj2 (proj2 (proj2 H8)))))))).
    reflexivity.
Defined.

Lemma getUnderlyingObject_result_is_fixed_point_witness :
  stripCasts projectionGraph 6 0 = Done 0 /\
  stripAddressProjections projectionGraph
    (Projection_isAddressProjection projectionGraph) 6 0 = Done 0 /\
  stripIndexingInsts projectionGraph 6 0 = Done 0.
Proof.
  apply (proj1 (getUnderlyingObject_result_is_fixed_point projectionGraph
                  (Projection_isAddressProjection projectionGraph) 5 0 6
                  projectionGraph_acyclic)).
  reflexivity.
Defined.

Lemma getUnderlyingAddressRoot_roots_witness :
  isa_IndexingInst (kindOf accessGraph 8) = false /\
  getUnderlyingAddressRoot accessGraph 4 8 = Done 8.
Proof.
  split.
  - apply (proj1 (getUnderlyingAddressRoot_roots accessGraph 10 8 11
                    accessGraph_acyclic)).
    reflexivity.
  - apply (proj2 (proj2 (getUnderlyingAddressRoot_roots accessGraph 8 8 3
                           accessGraph_acyclic))).
    reflexivity.
Defined.

Lemma projectionGraph_no_mark_dependence :
  forall W, kindOf projectionGraph W <> MarkDependenceInst.
Proof.
  intros W. do 6 (destruct W as [|W]; [discriminate|]). discriminate.
Qed.

Lemma mark_dependence_free_strippers_agree_witness :
  stripCasts projectionGraph 6 5
    = stripCastsWithoutMarkDependence projectionGraph 6 5 /\
  getUnderlyingObject projectionGraph
    (Projection_isAddressProjection projectionGraph) 6 5
    = getUnderlyingObjectStopAtMarkDependence projectionGraph
        (Projection_isAddressProjection projectionGraph) 6 5.
Proof.
  apply (mark_dependence_free_strippers_agree projectionGraph
           (Projection_isAddressProjection projectionGraph) 6 5).
  exact projectionGraph_no_mark_dependence.
Defined.

Lemma stripUnaryAddressProjections_agrees_witness :
  stripUnaryAddressProjections projectionGraph
    (Projection_isAddressProjection projectionGraph) 6 5 = Done 4 /\
  stripUnaryAddressProjections projectionGraph
    (Projection_isAddressProjection projectionGraph) 6 4 = Done 4.
Proof.
  split; [reflexivity|].
  apply (proj2 (stripUnaryAddressProjections_agrees projectionGraph
                  (Projection_isAddressProjection projectionGraph) 5 4));
    [reflexivity|reflexivity|simpl; lia].
Defined.

Lemma accessGraph_chains :
  OperandChain accessGraph
    (fun X => isAccessInductiveKind (getKind (node accessGraph X))) 4 4 0 /\
  OperandChain accessGraph
    (fun X => isAccessInductiveKind (getKind (node accessGraph X))) 1 7 6.
Proof.
  split;
    repeat (eapply operand_chain_step; [reflexivity|reflexivity|]);
    apply operand_chain_end.
Qed.

Lemma findAccessedAddressBase_inductive_chain_witness :
  findAccessedAddressBase accessGraph 5 4 = Done (Some 0) /\
  findAccessedAddressBase accessGraph 5 7 = Done None /\
  findAccessedAddressBase switchEnumGraph 2 2 = Done (Some 1).
Proof.
  destruct accessGraph_chains as [H1 H2].
  split; [|split].
  - apply (proj1 (findAccessedAddressBase_inductive_chain accessGraph
                    4 4 0 5 H1 ltac:(lia))).
    reflexivity.
  - apply (proj2 (proj2 (findAccessedAddressBase_inductive_chain accessGraph
                           1 7 6 5 H2 ltac:(lia)))).
    reflexivity.
  - apply (proj1 (proj2 (findAccessedAddressBase_inductive_chain
                           switchEnumGraph 1 2 1 2
                           (operand_chain_step switchEnumGraph _ 0 2 1 1
                              eq_refl eq_refl
                              (operand_chain_end switchEnumGraph _ 1))
                           ltac:(lia)))).
    reflexivity.
Defined.

Lemma findAccessedAddressBase_result_witness :
  exists N W,
    OperandChain accessGraph
      (fun X => isAccessInductiveKind (getKind (node accessGraph X)))
      N 4 W /\
    0 = W /\
    (isFormalAccessBaseKind (getKind (node accessGraph W)) = true \/
     isSwitchEnumPayload accessGraph W = true) /\
    isAccessInductiveKind (getKind (node accessGraph 0)) = false.
Proof.
  exact (findAccessedAddressBase_result accessGraph 5 4 (Some 0) eq_refl).
Defined.

Lemma findClosureForAppliedArg_returns_closure_witness :
  getKind (node closureGraph 2) = PartialApplyInst /\
  forall a, ~ isThunkApplication closureGraph functionsAreReferenceCounted
              2 a.
Proof.
  apply (findClosureForAppliedArg_returns_closure closureGraph
           functionsAreReferenceCounted 3 5 2
           (mkFindClosureResult (Some 2) true)); reflexivity.
Defined.


Lemma closureGraph_thunk_application :
  isThunkApplication closureGraph functionsAreReferenceCounted 4 2 /\
  isThunkApplication closureGraph functionsAreReferenceCounted 5 4.
Proof. split; exists 3; repeat split; reflexivity. Qed.

Lemma isPartialApplyOfReabstractionThunk_spec_witness :
  isPartialApplyOfReabstractionThunk closureGraph
    functionsAreReferenceCounted 4 = Done (Some 2) /\
  isPartialApplyOfReabstractionThunk blockClosureGraph
    functionsAreReferenceCounted 14 = Done None.
Proof.
  split.
  - apply (proj1 (isPartialApplyOfReabstractionThunk_spec closureGraph
                    functionsAreReferenceCounted 4 2)).
    exact (proj1 closureGraph_thunk_application).
  - apply (proj2 (proj2 (isPartialApplyOfReabstractionThunk_spec
                           blockClosureGraph functionsAreReferenceCounted
                           14 0))).
    simpl. lia.
Defined.

(** Two thunks around the closure [%2]; one thunk around a closure over a
    closure; and no thunk at all around a two-argument application of a
    thunk. *)
Lemma findClosureForAppliedArg_thunk_chain_witness :
  findClosureForAppliedArg closureGraph functionsAreReferenceCounted 3 5
    = Done (mkFindClosureResult (Some 2) true) /\
  findClosureForAppliedArg plainClosureGraph functionsAreReferenceCounted 2 6
    = Done (mkFindClosureResult (Some 3) true) /\
  findClosureForAppliedArg plainClosureGraph functionsAreReferenceCounted 1 5
    = Done (mkFindClosureResult (Some 5) false).
Proof.
  destruct direct_closures as (D2 & D3 & D5).
  split; [|split].
  - apply (findClosureForAppliedArg_thunk_chain closureGraph
             functionsAreReferenceCounted 2 5 2 3);
      [|reflexivity|reflexivity|exact D2|lia].
    apply (thunk_chain_step closureGraph functionsAreReferenceCounted
             1 5 4 2 eq_refl eq_refl (proj2 closureGraph_thunk_application)).
    apply (thunk_chain_step closureGraph functionsAreReferenceCounted
             0 4 2 2 eq_refl eq_refl (proj1 closureGraph_thunk_application)).
    apply thunk_chain_end.
  - apply (findClosureForAppliedArg_thunk_chain plainClosureGraph
             functionsAreReferenceCounted 1 6 3 2);
      [|reflexivity|reflexivity|exact D3|lia].
    apply (thunk_chain_step plainClosureGraph functionsAreReferenceCounted
             0 6 3 3 eq_refl eq_refl); [|apply thunk_chain_end].
    exists 4. repeat split; reflexivity.
  - apply (findClosureForAppliedArg_thunk_chain plainClosureGraph
             functionsAreReferenceCounted 0 5 5 1);
      [|reflexivity|reflexivity|exact D5|lia].
    apply thunk_chain_end.
Defined.

Lemma blockClosureGraph_chains :
  OperandChain blockClosureGraph (strips_ConvertFunctions blockClosureGraph)
    2 10 2 /\
  OperandChain blockClosureGraph (strips_ConvertFunctions blockClosureGraph)
    1 3 2 /\
  BehindBlockCopies blockClosureGraph 2 9 7.
Proof.
  split; [|split].
  - repeat (eapply operand_chain_step; [reflexivity|reflexivity|]).
    apply operand_chain_end.
  - eapply operand_chain_step; [reflexivity|reflexivity|].
    apply operand_chain_end.
  - repeat (eapply copies_step; [reflexivity|reflexivity|]).
    apply copies_end. discriminate.
Qed.

Lemma findClosureForAppliedArg_through_conversions_witness :
  findClosureForAppliedArg blockClosureGraph functionsAreReferenceCounted 3 10
    = findClosureForAppliedArg blockClosureGraph functionsAreReferenceCounted
        3 2.
Proof.
  apply (findClosureForAppliedArg_through_conversions blockClosureGraph
           functionsAreReferenceCounted 2 10 2 2);
    [discriminate|reflexivity|exact (proj1 blockClosureGraph_chains)
    |reflexivity|reflexivity|lia].
Defined.

Lemma findClosureForAppliedArg_stored_closure_found_witness :
  findClosureForAppliedArg blockClosureGraph functionsAreReferenceCounted 3 9
    = findClosureForAppliedArg blockClosureGraph functionsAreReferenceCounted
        3 2.
Proof.
  apply (findClosureForAppliedArg_stored_closure_found blockClosureGraph
           functionsAreReferenceCounted 2 1 9 7 4 5 6 3 2 2);
    [discriminate|reflexivity|exact (proj2 (proj2 blockClosureGraph_chains))
    |reflexivity|reflexivity|reflexivity|reflexivity|reflexivity
    |exact (proj1 (proj2 blockClosureGraph_chains))
    |reflexivity|reflexivity|lia|lia].
Defined.

Lemma closureGraph_no_blocks :
  forall W,
    getAs_SILFunctionType
      (getSwiftRValueType (getType (node closureGraph W))) <> Some Block.
Proof.
  intros W. do 6 (destruct W as [|W]; [discriminate|]). discriminate.
Qed.

Lemma findClosureForAppliedArg_terminates_witness :
  findClosureForAppliedArg closureGraph functionsAreReferenceCounted 6 5
    <> OutOfFuel.
Proof.
  apply (findClosureForAppliedArg_terminates closureGraph
           functionsAreReferenceCounted 5 6).
  - exact closureGraph_operandAcyclic.
  - exact closureGraph_no_blocks.
  - vm_compute. lia.
Defined.

Lemma evaluateAll_flags_monotone_witness :
  F (mkEvaluator 0 false false) = 0 /\
  length [true; false] = 2 /\
  hasQualifiedOwnership (mkEvaluator 0 false false) = false.
Proof.
  destruct (evaluateAll_flags_monotone (newEvaluator 0)
              (mkEvaluator 0 false false)
              [loadInst 0 LoadUnqualified; loadInst 0 LoadCopy]
              [true; false] eq_refl) as (H1 & H2 & _).
  destruct (evaluateAll_flags_monotone (mkEvaluator 0 false false)
              (mkEvaluator 0 false false)
              [loadInst 0 LoadCopy] [false] eq_refl) as (_ & _ & H3 & _).
  split; [exact H1|]. split; [exact H2|]. apply H3. reflexivity.
Defined.

Lemma evaluateAll_accepts_iff_unmixed_witness :
  exists rs E',
    evaluateAll (newEvaluator 0)
      [loadInst 0 LoadCopy; inst DebugValueInst [0];
       storeInst 0 StoreUnqualified] = Done (rs, E') /\
    forallb id rs = false.
Proof.
  apply (proj1 (evaluateAll_accepts_iff_unmixed 0
                  [loadInst 0 LoadCopy; inst DebugValueInst [0];
                   storeInst 0 StoreUnqualified]
                  ltac:(repeat constructor))).
Defined.

Lemma evaluateAll_not_applicable_neutral_witness :
  evaluateAll (newEvaluator 0)
    ([loadInst 0 LoadCopy] ++ inst DebugValueInst [0]
       :: [storeInst 0 StoreUnqualified])
  = Done ([true; true; false], mkEvaluator 0 true true).
Proof.
  rewrite (evaluateAll_not_applicable_neutral (newEvaluator 0)
             (inst DebugValueInst [0]) [loadInst 0 LoadCopy]
             [storeInst 0 StoreUnqualified] eq_refl eq_refl).
  reflexivity.
Defined.
